(** * Algorithm Visual Playground: step generators, containers and playback

    A shallow embedding of the step-generation core of the playground
    (js/algorithms/sorting.js, the graph and pathfinding generators,
    js/algorithms/recursion.js), of the containers of js/utils/helpers.js
    and of the AnimationController of js/controllers, with the properties
    its specification states about them (C1 to C10) and further
    properties of the code (X1 to X30).

    Conventions of the embedding.
    - JavaScript numbers that the code uses as array indices, grid
      coordinates, distances and priorities are integers; they are [Z]
      (or [nat] for a counter that only counts up from 0).
    - A position [{row, col}] is a pair [(row, col)].  The code keys its
      [Set]s and [Map]s by the template string [`${row},${col}`], which is
      injective on integer pairs ([GridFacts.key_inj]); the embedding
      keys them by the pair.
    - A [Map] is a [gmap], a [Set] a [gset]; [new Set(visited)] copies the
      set, which for an immutable [gset] is the set itself.
    - The [description] field of a step is a display string computed from
      the other fields; it is left out of the step records.
    - The source has no [throw]: a generator call either returns its array
      of steps or does not terminate.  While loops and recursions whose
      termination is not structural take a [fuel] argument and return
      [None] when it runs out; the totality theorems give fuel that
      suffices. *)

From stdpp Require Import gmap list sorting strings pretty.
From Stdlib Require Import ZArith Lia Ascii.

#[local] Set Warnings "-clear-no-such-hyp".

Local Open Scope Z_scope.

(* ===================================================================== *)
(** * Part I: the program *)
(* ===================================================================== *)

(** ** js/controllers: AnimationController

    The synchronous methods of the controller, and the run of the
    asynchronous [play] when no other method is called while it waits. *)

Module Playback.

(** What [getProgress] can evaluate to.  [0 / 0] is [NaN] and
    [Math.round(NaN)] is [NaN]; [x / 0] is [Infinity] for [x > 0] and
    [-Infinity] for [x < 0].  A finite quotient is taken exactly (the
    double rounding of the division is not modelled). *)
Inductive number : Type :=
| NaN
| Infinity
| NegInfinity
| Finite (z : Z).

Section Controller.
Context {Step : Type}.

(** The fields of the controller.  [onStepChange] records whether a
    callback is installed (it is [null] after construction) and
    [notified] the calls made to it, latest first. *)
Record controller : Type := Controller {
  steps : list Step;
  currentStepIndex : Z;
  isPlaying : bool;
  isPaused : bool;
  speed : Z;
  onStepChange : bool;
  notified : list (option Step * Z)
}.

Definition constructor : controller :=
  Controller [] 0 false false 50 false [].

Definition set_index (c : controller) (i : Z) : controller :=
  Controller (steps c) i (isPlaying c) (isPaused c) (speed c)
             (onStepChange c) (notified c).

Definition loadSteps (c : controller) (ss : list Step) : controller :=
  Controller ss 0 false false (speed c) (onStepChange c) (notified c).

(** [this.steps[this.currentStepIndex] || null]: an index outside the
    array reads [undefined], which [||] turns into [null]. *)
Definition getCurrentStep (c : controller) : option Step :=
  if currentStepIndex c <? 0 then None
  else steps c !! Z.to_nat (currentStepIndex c).

(** [if (this.onStepChange) this.onStepChange(step, this.currentStepIndex)] *)
Definition notify (c : controller) : controller :=
  if onStepChange c
  then Controller (steps c) (currentStepIndex c) (isPlaying c) (isPaused c)
         (speed c) (onStepChange c)
         ((getCurrentStep c, currentStepIndex c) :: notified c)
  else c.

Definition pause (c : controller) : controller :=
  Controller (steps c) (currentStepIndex c) (isPlaying c) true (speed c)
             (onStepChange c) (notified c).

Definition resume (c : controller) : controller :=
  Controller (steps c) (currentStepIndex c) (isPlaying c) false (speed c)
             (onStepChange c) (notified c).

Definition stop (c : controller) : controller :=
  Controller (steps c) (currentStepIndex c) false false (speed c)
             (onStepChange c) (notified c).

Definition stepForward (c : controller) : controller :=
  if currentStepIndex c <? Z.of_nat (length (steps c)) - 1
  then notify (set_index c (currentStepIndex c + 1))
  else c.

Definition stepBackward (c : controller) : controller :=
  if 0 <? currentStepIndex c
  then notify (set_index c (currentStepIndex c - 1))
  else c.

Definition reset (c : controller) : controller :=
  notify (set_index (stop c) 0).

Definition setSpeed (c : controller) (s : Z) : controller :=
  Controller (steps c) (currentStepIndex c) (isPlaying c) (isPaused c)
             (Z.max 1 (Z.min 100 s)) (onStepChange c) (notified c).

Definition isAtEnd (c : controller) : bool :=
  Z.of_nat (length (steps c)) - 1 <=? currentStepIndex c.

Definition isAtStart (c : controller) : bool :=
  currentStepIndex c =? 0.

(** [Math.round(x)] is [floor(x + 1/2)]; for [x = 100 * i / d] with
    [d > 0] that is [(200 * i + d) / (2 * d)] in integer division. *)
Definition round_percent (i d : Z) : Z := (200 * i + d) / (2 * d).

(** [if (this.steps.length === 0) return 0;
     return Math.round((this.currentStepIndex / (this.steps.length - 1)) * 100);] *)
Definition getProgress (c : controller) : number :=
  let len := Z.of_nat (length (steps c)) in
  if len =? 0 then Finite 0
  else if len - 1 =? 0
       then (if currentStepIndex c =? 0 then NaN
             else if 0 <? currentStepIndex c then Infinity
             else NegInfinity)
       else Finite (round_percent (currentStepIndex c) (len - 1)).

(** The loop of [play]:
    [while (this.isPlaying && this.currentStepIndex < this.steps.length)].
    The two [await delay(...)] are the points where other methods can
    run; this is the run in which none does, so that an [await] leaves
    the controller as it is.  A paused controller then waits for ever:
    [fuel] bounds the turns of the loop. *)
Fixpoint play_loop (fuel : nat) (c : controller) : option controller :=
  if isPlaying c && (currentStepIndex c <? Z.of_nat (length (steps c))) then
    match fuel with
    | O => None
    | S fuel' =>
        if isPaused c then play_loop fuel' c
        else
          let c := notify c in
          play_loop fuel' (set_index c (currentStepIndex c + 1))
    end
  else Some c.

Definition play (fuel : nat) (c : controller) : option controller :=
  if isPlaying c then Some c
  else
    let c := Controller (steps c) (currentStepIndex c) true false (speed c)
               (onStepChange c) (notified c) in
    match play_loop fuel c with
    | None => None
    | Some c =>
        if Z.of_nat (length (steps c)) <=? currentStepIndex c
        then Some (Controller (steps c) (Z.of_nat (length (steps c)) - 1)
                     false (isPaused c) (speed c) (onStepChange c)
                     (notified c))
        else Some c
    end.

End Controller.

Arguments controller : clear implicits.

End Playback.

(** ** js/utils/helpers.js: PriorityQueue and Queue *)

Module PriorityQueue.

Section Queue.
Context {A : Type}.

(** The objects [{ element, priority }] held in [this.values]. *)
Record entry : Type := Entry { element : A; priority : Z }.

(** [this.values.sort((a, b) => a.priority - b.priority)].
    [Array.prototype.sort] is a stable sort: the result is ordered by the
    comparator and entries that compare equal keep their relative order.
    That arrangement is unique ([PriorityQueueFacts.sort_unique]); [sort]
    computes it by insertion from the right, an entry going in front of
    the first one whose priority is not smaller. *)
Fixpoint insert (e : entry) (l : list entry) : list entry :=
  match l with
  | [] => [e]
  | x :: l' =>
      if priority e <=? priority x then e :: x :: l'
      else x :: insert e l'
  end.

Fixpoint sort (l : list entry) : list entry :=
  match l with
  | [] => []
  | x :: l' => insert x (sort l')
  end.

(** The queue is its [values] array. *)
Definition constructor : list entry := [].

(** [this.values.push({ element, priority }); this.sort();] *)
Definition enqueue (e : A) (p : Z) (values : list entry) : list entry :=
  sort (values ++ [Entry e p]).

(** [return this.values.shift();] the first entry (or [undefined]) and
    the array without it. *)
Definition dequeue (values : list entry) : option entry * list entry :=
  match values with
  | [] => (None, [])
  | x :: rest => (Some x, rest)
  end.

Definition isEmpty (values : list entry) : bool :=
  match values with [] => true | _ => false end.

End Queue.

Arguments entry : clear implicits.

End PriorityQueue.

Module Queue.

Section Queue.
Context {A : Type}.

Definition constructor : list A := [].

Definition enqueue (x : A) (items : list A) : list A := items ++ [x].

Definition dequeue (items : list A) : option A * list A :=
  match items with
  | [] => (None, [])
  | x :: rest => (Some x, rest)
  end.

Definition isEmpty (items : list A) : bool :=
  match items with [] => true | _ => false end.

Definition size (items : list A) : Z := Z.of_nat (length items).

End Queue.

End Queue.

(** ** js/algorithms/sorting.js *)

Module Sorting.

Local Open Scope nat_scope.

(** A step object.  Fields that a step does not have are [None].  Array
    indices and lengths are [nat]: where the code subtracts ([n - 1],
    [n - i - 1], [i - 1]) the result is either non-negative or only
    compared against a counter that starts at 0, for which the truncated
    subtraction of [nat] gives the same loop. *)
Record step : Type := Step {
  type : string;
  array : list Z;
  indices : option (list nat);
  sorted : option (list nat);
  range : option (nat * nat);
  mid : option nat;
  depth : option nat
}.

(** [x > y] and [x <= y] on array reads; a read outside the array is
    [undefined] and every comparison with it is false. *)
Definition gt (x y : option Z) : bool :=
  match x, y with
  | Some a, Some b => (b <? a)%Z
  | _, _ => false
  end.

Definition le (x y : option Z) : bool :=
  match x, y with
  | Some a, Some b => (a <=? b)%Z
  | _, _ => false
  end.

(** [array[k] = v].  The sorts only store numbers read from inside an
    array at indices inside [array]; there the assignment is the list
    update.  (Outside, JavaScript would grow the array or store
    [undefined], which an array of numbers cannot hold; the model leaves
    the array unchanged.) *)
Definition assign (a : list Z) (k : nat) (v : option Z) : list Z :=
  match v with
  | Some x => <[k:=x]> a
  | None => a
  end.

(** helpers.js: [[arr[i], arr[j]] = [arr[j], arr[i]]]: both reads come
    before both writes. *)
Definition swap (arr : list Z) (i j : nat) : list Z :=
  let ai := arr !! i in
  let aj := arr !! j in
  assign (assign arr i aj) j ai.

(** [Array.from({ length: len }, (_, idx) => f idx)] *)
Definition array_from (len : nat) (f : nat → nat) : list nat :=
  f <$> seq 0 len.

Definition push (steps : list step) (s : step) : list step := steps ++ [s].

(** *** bubbleSort *)

(** The loop [for (let j = 0; j < n - i - 1; j++)], with [todo] the
    number of iterations left, [n - i - 1 - j]. *)
Fixpoint bubble_inner (todo : nat) (n i j : nat)
    (array : list Z) (swapped : bool) (steps : list step)
    : list Z * bool * list step :=
  match todo with
  | O => (array, swapped, steps)
  | S todo' =>
      let steps := push steps
        (Step "compare" array (Some [j; j + 1])
              (Some (array_from i (λ idx, n - 1 - idx))) None None None) in
      if gt (array !! j) (array !! (j + 1)) then
        let array := swap array j (j + 1) in
        let steps := push steps
          (Step "swap" array (Some [j; j + 1])
                (Some (array_from i (λ idx, n - 1 - idx))) None None None) in
        bubble_inner todo' n i (j + 1) array true steps
      else
        bubble_inner todo' n i (j + 1) array swapped steps
  end.

(** The loop [for (let i = 0; i < n - 1; i++)], with [todo] the number of
    iterations left, [n - 1 - i]; the [break] returns at once. *)
Fixpoint bubble_outer (todo : nat) (n i : nat)
    (array : list Z) (steps : list step) : list Z * list step :=
  match todo with
  | O => (array, steps)
  | S todo' =>
      let steps := push steps
        (Step "pass" array None
              (Some (array_from (n - i) (λ idx, n - 1 - idx))) None None None) in
      let '(array, swapped, steps) :=
        bubble_inner (n - i - 1) n i 0 array false steps in
      if negb swapped then
        (array,
         push steps
           (Step "early-exit" array None (Some (array_from n (λ idx, idx)))
                 None None None))
      else bubble_outer todo' n (i + 1) array steps
  end.

Definition bubbleSort (arr : list Z) : list step :=
  let array := arr in
  let n := length array in
  let steps := push [] (Step "init" array None None None None None) in
  let '(array, steps) := bubble_outer (n - 1) n 0 array steps in
  push steps
    (Step "complete" array None (Some (array_from n (λ idx, idx)))
          None None None).

(** *** insertionSort *)

(** The loop [while (j >= 0 && array[j] > key)].  [j] runs from [i - 1]
    down to [-1]; the counter of the model is [j + 1], which stays
    natural, and the result is its value when the loop ends. *)
Fixpoint insertion_inner (j1 : nat) (i : nat) (key : option Z)
    (array : list Z) (steps : list step) : nat * list Z * list step :=
  match j1 with
  | O => (O, array, steps)
  | S j =>
      if gt (array !! j) key then
        let steps := push steps
          (Step "compare" array (Some [j; j + 1])
                (Some (array_from i (λ idx, idx))) None None None) in
        let array := assign array (j + 1) (array !! j) in
        let steps := push steps
          (Step "shift" array (Some [j; j + 1])
                (Some (array_from i (λ idx, idx))) None None None) in
        insertion_inner j i key array steps
      else (S j, array, steps)
  end.

(** The loop [for (let i = 1; i < n; i++)], with [todo] the number of
    iterations left, [n - i]. *)
Fixpoint insertion_outer (todo : nat) (i : nat)
    (array : list Z) (steps : list step) : list Z * list step :=
  match todo with
  | O => (array, steps)
  | S todo' =>
      let key := array !! i in
      let steps := push steps
        (Step "select" array (Some [i])
              (Some (array_from i (λ idx, idx))) None None None) in
      let '(j1, array, steps) := insertion_inner i i key array steps in
      let array := assign array j1 key in
      let steps := push steps
        (Step "insert" array (Some [j1])
              (Some (array_from (i + 1) (λ idx, idx))) None None None) in
      insertion_outer todo' (i + 1) array steps
  end.

Definition insertionSort (arr : list Z) : list step :=
  let array := arr in
  let n := length array in
  let steps := push [] (Step "init" array None None None None None) in
  let '(array, steps) := insertion_outer (n - 1) 1 array steps in
  push steps
    (Step "complete" array None (Some (array_from n (λ idx, idx)))
          None None None).

(** *** mergeSort *)

(** [array.slice(from, to)] *)
Definition slice (a : list Z) (from to : nat) : list Z :=
  take (to - from) (drop from a).

(** The first loop of [merge],
    [while (i < leftArr.length && j < rightArr.length)]. *)
Fixpoint merge_both (fuel : nat) (leftArr rightArr : list Z)
    (left mid : nat) (i j k : nat) (array : list Z) (steps : list step)
    : option (nat * nat * nat * list Z * list step) :=
  if (i <? length leftArr) && (j <? length rightArr) then
    match fuel with
    | O => None
    | S fuel' =>
        let steps := push steps
          (Step "compare" array (Some [left + i; mid + 1 + j])
                None None None None) in
        let '(array, i, j) :=
          if le (leftArr !! i) (rightArr !! j)
          then (assign array k (leftArr !! i), i + 1, j)
          else (assign array k (rightArr !! j), i, j + 1) in
        let steps := push steps
          (Step "place" array (Some [k]) None None None None) in
        merge_both fuel' leftArr rightArr left mid i j (k + 1) array steps
    end
  else Some (i, j, k, array, steps).

(** The loops [while (i < leftArr.length)] and
    [while (j < rightArr.length)] copy the rest of one side; [todo] is
    the number of elements left, [src.length - i]. *)
Fixpoint merge_rest (todo : nat) (src : list Z) (i k : nat)
    (array : list Z) (steps : list step) : nat * list Z * list step :=
  match todo with
  | O => (k, array, steps)
  | S todo' =>
      let array := assign array k (src !! i) in
      let steps := push steps
        (Step "place" array (Some [k]) None None None None) in
      merge_rest todo' src (i + 1) (k + 1) array steps
  end.

Definition merge (left mid right depth : nat)
    (array : list Z) (steps : list step) : option (list Z * list step) :=
  let leftArr := slice array left (mid + 1) in
  let rightArr := slice array (mid + 1) (right + 1) in
  let steps := push steps
    (Step "merge-start" array None None (Some (left, right)) None
          (Some depth)) in
  match merge_both (length leftArr + length rightArr) leftArr rightArr
                   left mid 0 0 left array steps with
  | None => None
  | Some (i, j, k, array, steps) =>
      let '(k, array, steps) :=
        merge_rest (length leftArr - i) leftArr i k array steps in
      let '(k, array, steps) :=
        merge_rest (length rightArr - j) rightArr j k array steps in
      Some (array,
            push steps
              (Step "merge-complete" array None None (Some (left, right))
                    None None))
  end.

(** [mergeSortHelper(arr, left, right, depth)]; [fuel] bounds the depth
    of the recursion. *)
Fixpoint mergeSortHelper (fuel : nat) (left right depth : nat)
    (array : list Z) (steps : list step) : option (list Z * list step) :=
  if right <=? left then Some (array, steps)
  else
    match fuel with
    | O => None
    | S fuel' =>
        let mid := (left + right) / 2 in
        let steps := push steps
          (Step "divide" array None None (Some (left, right)) (Some mid)
                (Some depth)) in
        match mergeSortHelper fuel' left mid (depth + 1) array steps with
        | None => None
        | Some (array, steps) =>
            match mergeSortHelper fuel' (mid + 1) right (depth + 1)
                                  array steps with
            | None => None
            | Some (array, steps) => merge left mid right depth array steps
            end
        end
    end.

Definition mergeSort (fuel : nat) (arr : list Z) : option (list step) :=
  let array := arr in
  let steps := push [] (Step "init" array None None None None None) in
  match mergeSortHelper fuel 0 (length array - 1) 0 array steps with
  | None => None
  | Some (array, steps) =>
      Some (push steps
              (Step "complete" array None
                    (Some (array_from (length array) (λ idx, idx)))
                    None None None))
  end.

End Sorting.

(** ** js/utils/helpers.js: grid helpers *)

Module Grid.

(** A position [{ row, col }]. *)
Abbreviation pos := (Z * Z)%type.

Definition row (p : pos) : Z := p.1.
Definition col (p : pos) : Z := p.2.

(** The key [`${p.row},${p.col}`] under which the code stores a position
    in its [Set]s and [Map]s.  Different positions have different keys
    ([GridFacts.key_inj]); the sets and maps of the model are keyed by
    the position. *)
Definition key (p : pos) : string :=
  pretty (row p) +:+ "," +:+ pretty (col p).

(** [current.row === end.row && current.col === end.col] *)
Definition same_pos (p q : pos) : bool :=
  (row p =? row q) && (col p =? col q).

(** [set.has(`${p.row},${p.col}`)] *)
Definition has (s : gset pos) (p : pos) : bool := bool_decide (p ∈ s).

(** [set.add(`${p.row},${p.col}`)] *)
Definition add (s : gset pos) (p : pos) : gset pos := {[p]} ∪ s.

Definition directions : list (Z * Z) := [(-1, 0); (1, 0); (0, -1); (0, 1)].

Definition in_bounds (rows cols : Z) (p : pos) : bool :=
  (0 <=? row p) && (row p <? rows) && (0 <=? col p) && (col p <? cols).

(** [getNeighbors(row, col, rows, cols)]: up, down, left, right, the
    ones outside the grid left out. *)
Definition getNeighbors (r c rows cols : Z) : list pos :=
  List.filter (in_bounds rows cols)
              ((λ d : Z * Z, (r + d.1, c + d.2)) <$> directions).

Definition manhattanDistance (nodeA nodeB : pos) : Z :=
  Z.abs (row nodeA - row nodeB) + Z.abs (col nodeA - col nodeB).

(** The loop of [reconstructPath]: [current] is a node here; the loop
    ends when [parentMap.get] gives [undefined] or the start. *)
Fixpoint reconstruct_loop (fuel : nat) (parentMap : gmap pos pos)
    (start current : pos) (path : list pos) : option (list pos) :=
  match fuel with
  | O => None
  | S fuel' =>
      let path := current :: path in
      match parentMap !! current with
      | None => Some path
      | Some parent =>
          if same_pos parent start then Some (start :: path)
          else reconstruct_loop fuel' parentMap start parent path
      end
  end.

Definition reconstructPath (fuel : nat) (parentMap : gmap pos pos)
    (start end_ : pos) : option (list pos) :=
  reconstruct_loop fuel parentMap start end_ [].

End Grid.

(** ** Graph traversal: bfs and dfs *)

Module Traversal.
Import Grid.

Record step : Type := Step {
  type : string;
  current : option pos;
  neighbor : option pos;
  parent : option pos;
  visited : gset pos;
  depth : option Z;
  queueSize : option Z
}.

Definition push (steps : list step) (s : step) : list step := steps ++ [s].

(** *** bfs *)

(** [for (const neighbor of neighbors)] *)
Fixpoint bfs_neighbors (walls : gset pos) (current : pos)
    (neighbors : list pos)
    (visited : gset pos) (queue : list pos) (steps : list step)
    : gset pos * list pos * list step :=
  match neighbors with
  | [] => (visited, queue, steps)
  | neighbor :: rest =>
      if negb (has visited neighbor) && negb (has walls neighbor) then
        let visited := add visited neighbor in
        let queue := Queue.enqueue neighbor queue in
        let steps := push steps
          (Step "discover" (Some current) (Some neighbor) None visited
                None (Some (Queue.size queue))) in
        bfs_neighbors walls current rest visited queue steps
      else bfs_neighbors walls current rest visited queue steps
  end.

(** [while (!queue.isEmpty())]; [dequeue] gives [undefined] exactly when
    the queue is empty.  The result is the state after the loop. *)
Fixpoint bfs_loop (fuel : nat) (rows cols : Z) (walls : gset pos)
    (visited : gset pos) (queue : list pos) (steps : list step)
    : option (gset pos * list step) :=
  match Queue.dequeue queue with
  | (None, _) => Some (visited, steps)
  | (Some current, queue) =>
      match fuel with
      | O => None
      | S fuel' =>
          let steps := push steps
            (Step "visit" (Some current) None None visited None None) in
          let neighbors := getNeighbors (row current) (col current) rows cols in
          let '(visited, queue, steps) :=
            bfs_neighbors walls current neighbors visited queue steps in
          bfs_loop fuel' rows cols walls visited queue steps
      end
  end.

Definition bfs (fuel : nat) (rows cols : Z) (start : pos) (walls : gset pos)
    : option (list step) :=
  let queue := Queue.enqueue start Queue.constructor in
  let visited := add ∅ start in
  let steps := push []
    (Step "init" (Some start) None None visited None None) in
  match bfs_loop fuel rows cols walls visited queue steps with
  | None => None
  | Some (visited, steps) =>
      Some (push steps (Step "complete" None None None visited None None))
  end.

(** *** dfs *)

(** The loop [for (const neighbor of neighbors)] of [dfsHelper(node,
    depth)]; [helper] is the recursive call [dfsHelper]. *)
Fixpoint dfs_neighbors
    (helper : pos → Z → gset pos → list step → option (gset pos * list step))
    (walls : gset pos) (node : pos) (depth : Z) (neighbors : list pos)
    (visited : gset pos) (steps : list step)
    : option (gset pos * list step) :=
  match neighbors with
  | [] => Some (visited, steps)
  | neighbor :: rest =>
      if negb (has visited neighbor) && negb (has walls neighbor) then
        let steps := push steps
          (Step "discover" (Some node) (Some neighbor) None visited
                (Some (depth + 1)) None) in
        match helper neighbor (depth + 1) visited steps with
        | None => None
        | Some (visited, steps) =>
            let steps := push steps
              (Step "backtrack" (Some neighbor) None (Some node) visited
                    None None) in
            dfs_neighbors helper walls node depth rest visited steps
        end
      else dfs_neighbors helper walls node depth rest visited steps
  end.

(** [dfsHelper(node, depth)]; [fuel] bounds the depth of the recursion. *)
Fixpoint dfsHelper (fuel : nat) (rows cols : Z) (walls : gset pos)
    (node : pos) (depth : Z) (visited : gset pos) (steps : list step)
    : option (gset pos * list step) :=
  if has visited node || has walls node then Some (visited, steps)
  else
    match fuel with
    | O => None
    | S fuel' =>
        let visited := add visited node in
        let steps := push steps
          (Step "visit" (Some node) None None visited (Some depth) None) in
        let neighbors := getNeighbors (row node) (col node) rows cols in
        dfs_neighbors (dfsHelper fuel' rows cols walls) walls node depth
                      neighbors visited steps
    end.

Definition dfs (fuel : nat) (rows cols : Z) (start : pos) (walls : gset pos)
    : option (list step) :=
  let visited : gset pos := ∅ in
  let steps := push []
    (Step "init" (Some start) None None visited None None) in
  match dfsHelper fuel rows cols walls start 0 visited steps with
  | None => None
  | Some (visited, steps) =>
      Some (push steps (Step "complete" None None None visited None None))
  end.

End Traversal.

(** ** Pathfinding: dijkstra and aStar *)

Module Pathfinding.
Import Grid.

(** The fields of the steps of both generators.  [distance] and the
    scores are numbers when present; [gScore.get] of a key that is not in
    the map is [undefined], and sums with it are not numbers: such a
    field is [None]. *)
Record step : Type := Step {
  type : string;
  start : option pos;
  end_ : option pos;
  current : option pos;
  neighbor : option pos;
  path : option (list pos);
  distance : option Z;
  heuristic : option Z;
  gScore : option Z;
  hScore : option Z;
  fScore : option Z;
  visited : option (gset pos)
}.

Definition push (steps : list step) (s : step) : list step := steps ++ [s].

Abbreviation entry := (PriorityQueue.entry pos).

(** [newDist < (map.get(key) ?? Infinity)] *)
Definition improves (newDist : Z) (old : option Z) : bool :=
  match old with
  | None => true
  | Some oldDist => newDist <? oldDist
  end.

(** *** dijkstra *)

(** [for (const neighbor of neighbors)] *)
Fixpoint dijkstra_neighbors (walls visited : gset pos)
    (current : pos) (currentDist : Z) (neighbors : list pos)
    (distances : gmap pos Z) (previous : gmap pos pos)
    (pq : list entry) (steps : list step)
    : gmap pos Z * gmap pos pos * list entry * list step :=
  match neighbors with
  | [] => (distances, previous, pq, steps)
  | neighbor :: rest =>
      if has walls neighbor || has visited neighbor then
        dijkstra_neighbors walls visited current currentDist rest
                           distances previous pq steps
      else
        let newDist := currentDist + 1 in
        let oldDist := distances !! neighbor in
        if improves newDist oldDist then
          let distances := <[neighbor := newDist]> distances in
          let previous := <[neighbor := current]> previous in
          let pq := PriorityQueue.enqueue neighbor newDist pq in
          let steps := push steps
            (Step "update" None None (Some current) (Some neighbor) None
                  (Some newDist) None None None None (Some visited)) in
          dijkstra_neighbors walls visited current currentDist rest
                             distances previous pq steps
        else
          dijkstra_neighbors walls visited current currentDist rest
                             distances previous pq steps
  end.

(** [while (!pq.isEmpty())]; [dequeue] gives [undefined] exactly when
    the queue is empty.  [pfuel] is the fuel of [reconstructPath]. *)
Fixpoint dijkstra_loop (fuel pfuel : nat) (rows cols : Z)
    (start end_ : pos) (walls : gset pos)
    (distances : gmap pos Z) (previous : gmap pos pos)
    (visited : gset pos) (pq : list entry) (steps : list step)
    : option (list step) :=
  match PriorityQueue.dequeue pq with
  | (None, _) =>
      Some (push steps
              (Step "no-path" None None None None None None None None None
                    None (Some visited)))
  | (Some e, pq) =>
      match fuel with
      | O => None
      | S fuel' =>
          let current := PriorityQueue.element e in
          let currentDist := PriorityQueue.priority e in
          if has visited current then
            dijkstra_loop fuel' pfuel rows cols start end_ walls
                          distances previous visited pq steps
          else
            let visited := add visited current in
            let steps := push steps
              (Step "visit" None None (Some current) None None
                    (Some currentDist) None None None None (Some visited)) in
            if same_pos current end_ then
              match reconstructPath pfuel previous start end_ with
              | None => None
              | Some path =>
                  Some (push steps
                          (Step "path-found" None None None None (Some path)
                                (Some currentDist) None None None None
                                (Some visited)))
              end
            else
              let neighbors :=
                getNeighbors (row current) (col current) rows cols in
              let '(distances, previous, pq, steps) :=
                dijkstra_neighbors walls visited current currentDist
                                   neighbors distances previous pq steps in
              dijkstra_loop fuel' pfuel rows cols start end_ walls
                            distances previous visited pq steps
      end
  end.

Definition dijkstra (fuel : nat) (rows cols : Z) (start end_ : pos)
    (walls : gset pos) : option (list step) :=
  let distances : gmap pos Z := <[start := 0]> ∅ in
  let pq := PriorityQueue.enqueue start 0 PriorityQueue.constructor in
  let steps := push []
    (Step "init" (Some start) (Some end_) None None None None None None
          None None None) in
  dijkstra_loop fuel fuel rows cols start end_ walls distances ∅ ∅ pq steps.

(** *** aStar *)

(** [for (const neighbor of neighbors)], for a number [g]. *)
Fixpoint aStar_neighbors (walls visited : gset pos) (end_ : pos)
    (current : pos) (g : Z) (neighbors : list pos)
    (gScore : gmap pos Z) (fScore : gmap pos Z) (previous : gmap pos pos)
    (openSet : list entry) (steps : list step)
    : gmap pos Z * gmap pos Z * gmap pos pos * list entry * list step :=
  match neighbors with
  | [] => (gScore, fScore, previous, openSet, steps)
  | neighbor :: rest =>
      if has walls neighbor || has visited neighbor then
        aStar_neighbors walls visited end_ current g rest
                        gScore fScore previous openSet steps
      else
        let tentativeG := g + 1 in
        let oldG := gScore !! neighbor in
        if improves tentativeG oldG then
          let gScore := <[neighbor := tentativeG]> gScore in
          let h := manhattanDistance neighbor end_ in
          let f := tentativeG + h in
          let fScore := <[neighbor := f]> fScore in
          let previous := <[neighbor := current]> previous in
          let openSet := PriorityQueue.enqueue neighbor f openSet in
          let steps := push steps
            (Step "update" None None (Some current) (Some neighbor) None
                  None None (Some tentativeG) (Some h) (Some f)
                  (Some visited)) in
          aStar_neighbors walls visited end_ current g rest
                          gScore fScore previous openSet steps
        else
          aStar_neighbors walls visited end_ current g rest
                          gScore fScore previous openSet steps
  end.

(** [while (!openSet.isEmpty())].  When [gScore.get(currentKey)] is
    [undefined], [tentativeG] is not a number, the test
    [tentativeG < oldG] fails for every neighbour and the loop over the
    neighbours changes nothing. *)
Fixpoint aStar_loop (fuel pfuel : nat) (rows cols : Z)
    (start end_ : pos) (walls : gset pos)
    (gScore : gmap pos Z) (fScore : gmap pos Z) (previous : gmap pos pos)
    (visited : gset pos) (openSet : list entry) (steps : list step)
    : option (list step) :=
  match PriorityQueue.dequeue openSet with
  | (None, _) =>
      Some (push steps
              (Step "no-path" None None None None None None None None None
                    None (Some visited)))
  | (Some e, openSet) =>
      match fuel with
      | O => None
      | S fuel' =>
          let current := PriorityQueue.element e in
          if has visited current then
            aStar_loop fuel' pfuel rows cols start end_ walls
                       gScore fScore previous visited openSet steps
          else
            let visited := add visited current in
            let g := gScore !! current in
            let h := manhattanDistance current end_ in
            let f := (λ g, g + h) <$> g in
            let steps := push steps
              (Step "visit" None None (Some current) None None None None
                    g (Some h) f (Some visited)) in
            if same_pos current end_ then
              match reconstructPath pfuel previous start end_ with
              | None => None
              | Some path =>
                  Some (push steps
                          (Step "path-found" None None None None (Some path)
                                g None None None None (Some visited)))
              end
            else
              let neighbors :=
                getNeighbors (row current) (col current) rows cols in
              let '(gScore, fScore, previous, openSet, steps) :=
                match g with
                | Some g =>
                    aStar_neighbors walls visited end_ current g neighbors
                                    gScore fScore previous openSet steps
                | None => (gScore, fScore, previous, openSet, steps)
                end in
              aStar_loop fuel' pfuel rows cols start end_ walls
                         gScore fScore previous visited openSet steps
      end
  end.

Definition aStar (fuel : nat) (rows cols : Z) (start end_ : pos)
    (walls : gset pos) : option (list step) :=
  let gScore : gmap pos Z := <[start := 0]> ∅ in
  let fScore : gmap pos Z := <[start := manhattanDistance start end_]> ∅ in
  let openSet :=
    PriorityQueue.enqueue start (manhattanDistance start end_)
                          PriorityQueue.constructor in
  let steps := push []
    (Step "init" (Some start) (Some end_) None None None None
          (Some (manhattanDistance start end_)) None None None None) in
  aStar_loop fuel fuel rows cols start end_ walls gScore fScore ∅ ∅
             openSet steps.

End Pathfinding.

(** ** js/algorithms/recursion.js *)

Module Recursion.

(** A tree node [{ id, value, left, right }]; [Null] is the absent child
    ([null]).  Being an inductive type, a tree is finite and shares
    nothing. *)
Inductive tree : Type :=
| Null
| Node (id value : Z) (left right : tree).

Record step : Type := Step {
  type : string;
  node : option tree;
  phase : option string;
  direction : option string;
  callStack : option (list string);
  depth : option Z
}.

Definition push (steps : list step) (s : step) : list step := steps ++ [s].

(** [`${name}(${value})`] *)
Definition frame (name : string) (value : Z) : string :=
  name +:+ "(" +:+ pretty value +:+ ")".

(** [callStack.pop()] *)
Definition pop (callStack : list string) : list string :=
  removelast callStack.

Definition null_step (callStack : list string) (depth : Z) : step :=
  Step "null-node" None None None (Some callStack) (Some depth).

Definition visit_step (n : tree) (callStack : list string) (depth : Z) : step :=
  Step "visit" (Some n) (Some "root") None (Some callStack) (Some depth).

Definition recurse_step (n : tree) (dir : string) (callStack : list string)
    : step :=
  Step "recurse" (Some n) None (Some dir) (Some callStack) None.

Definition return_step (n : tree) (callStack : list string) : step :=
  Step "return" (Some n) None None (Some callStack) None.

Definition init_step : step := Step "init" None None None None None.

Definition complete_step : step := Step "complete" None None None None None.

(** The function [traverse(node, depth)] of [preorderTraversal], on the
    [callStack] and [steps] it shares with the caller. *)
Fixpoint preorder_traverse (n : tree) (depth : Z)
    (callStack : list string) (steps : list step)
    : list string * list step :=
  match n with
  | Null => (callStack, push steps (null_step callStack depth))
  | Node _ value l r =>
      let callStack := callStack ++ [frame "preorder" value] in
      let steps := push steps (visit_step n callStack depth) in
      let steps := push steps (recurse_step n "left" callStack) in
      let '(callStack, steps) :=
        preorder_traverse l (depth + 1) callStack steps in
      let steps := push steps (recurse_step n "right" callStack) in
      let '(callStack, steps) :=
        preorder_traverse r (depth + 1) callStack steps in
      let callStack := pop callStack in
      (callStack, push steps (return_step n callStack))
  end.

Definition preorderTraversal (root : tree) : list step :=
  let '(_, steps) := preorder_traverse root 0 [] (push [] init_step) in
  push steps complete_step.

Fixpoint inorder_traverse (n : tree) (depth : Z)
    (callStack : list string) (steps : list step)
    : list string * list step :=
  match n with
  | Null => (callStack, push steps (null_step callStack depth))
  | Node _ value l r =>
      let callStack := callStack ++ [frame "inorder" value] in
      let steps := push steps (recurse_step n "left" callStack) in
      let '(callStack, steps) :=
        inorder_traverse l (depth + 1) callStack steps in
      let steps := push steps (visit_step n callStack depth) in
      let steps := push steps (recurse_step n "right" callStack) in
      let '(callStack, steps) :=
        inorder_traverse r (depth + 1) callStack steps in
      let callStack := pop callStack in
      (callStack, push steps (return_step n callStack))
  end.

Definition inorderTraversal (root : tree) : list step :=
  let '(_, steps) := inorder_traverse root 0 [] (push [] init_step) in
  push steps complete_step.

Fixpoint postorder_traverse (n : tree) (depth : Z)
    (callStack : list string) (steps : list step)
    : list string * list step :=
  match n with
  | Null => (callStack, push steps (null_step callStack depth))
  | Node _ value l r =>
      let callStack := callStack ++ [frame "postorder" value] in
      let steps := push steps (recurse_step n "left" callStack) in
      let '(callStack, steps) :=
        postorder_traverse l (depth + 1) callStack steps in
      let steps := push steps (recurse_step n "right" callStack) in
      let '(callStack, steps) :=
        postorder_traverse r (depth + 1) callStack steps in
      let steps := push steps (visit_step n callStack depth) in
      let callStack := pop callStack in
      (callStack, push steps (return_step n callStack))
  end.

Definition postorderTraversal (root : tree) : list step :=
  let '(_, steps) := postorder_traverse root 0 [] (push [] init_step) in
  push steps complete_step.

End Recursion.

(** ** js/utils/helpers.js: speedToDelay and generateBinaryTree *)

Module Helpers.
Import Recursion.

(** [Math.floor(1000 / speedValue)] for an integer [speedValue]: the
    division by [0] gives [Infinity]; otherwise the floor of the
    quotient is the integer quotient (rounded down, also for a negative
    [speedValue]). *)
Definition speedToDelay (speedValue : Z) : Playback.number :=
  if speedValue =? 0 then Playback.Infinity
  else Playback.Finite (1000 / speedValue).

(** [createNode(depth)] of [generateBinaryTree(maxDepth)]; [nodeId] is
    the counter the calls share.  In the object literal [id: nodeId++]
    is evaluated before [value: nodeId - 1], and both before the
    children.  [fuel] bounds the depth of the recursion. *)
Fixpoint createNode (fuel : nat) (maxDepth depth nodeId : Z)
    : option (tree * Z) :=
  if maxDepth <? depth then Some (Null, nodeId)
  else
    match fuel with
    | O => None
    | S fuel' =>
        let id := nodeId in
        let nodeId := nodeId + 1 in
        let value := nodeId - 1 in
        match createNode fuel' maxDepth (depth + 1) nodeId with
        | None => None
        | Some (l, nodeId) =>
            match createNode fuel' maxDepth (depth + 1) nodeId with
            | None => None
            | Some (r, nodeId) => Some (Node id value l r, nodeId)
            end
        end
    end.

Definition generateBinaryTree (fuel : nat) (maxDepth : Z) : option tree :=
  fst <$> createNode fuel maxDepth 1 1.

End Helpers.

(* ===================================================================== *)
(** * Part II: properties *)
(* ===================================================================== *)

Module PlaybackFacts.
Import Playback.

Section Facts.
Context {Step : Type}.
Implicit Types c : controller Step.

Lemma getCurrentStep_reset c :
  getCurrentStep (reset c) = head (steps c).
Proof.
  unfold reset, notify. simpl.
  destruct (onStepChange c); unfold getCurrentStep; simpl;
    by destruct (steps c).
Qed.

Lemma index_reset c : currentStepIndex (reset c) = 0.
Proof. unfold reset, notify. simpl. by destruct (onStepChange c). Qed.

Lemma steps_reset c : steps (reset c) = steps c.
Proof. unfold reset, notify. simpl. by destruct (onStepChange c). Qed.

Lemma stepForward_advance c :
  currentStepIndex c < Z.of_nat (length (steps c)) - 1 →
  currentStepIndex (stepForward c) = currentStepIndex c + 1
  ∧ steps (stepForward c) = steps c.
Proof.
  intros H. unfold stepForward.
  destruct (Z.ltb_spec (currentStepIndex c) (Z.of_nat (length (steps c)) - 1));
    [|lia].
  unfold notify. simpl. by destruct (onStepChange c).
Qed.

Lemma stepForward_at_end c :
  Z.of_nat (length (steps c)) - 1 ≤ currentStepIndex c →
  stepForward c = c.
Proof.
  intros H. unfold stepForward.
  by destruct (Z.ltb_spec (currentStepIndex c) (Z.of_nat (length (steps c)) - 1));
    [lia|].
Qed.

(** C8. For every loaded step sequence: [reset()] makes the current step
    the first step of the sequence (and the index 0); a [stepForward()]
    below the last step advances the index by exactly one and leaves the
    sequence alone; a [stepForward()] at the last step changes nothing in
    the controller (no error, no notification), so the current step stays
    the last one. *)
Theorem C8_reset_stepForward c :
  (currentStepIndex (reset c) = 0
   ∧ steps (reset c) = steps c
   ∧ getCurrentStep (reset c) = head (steps c))
  ∧ (currentStepIndex c < Z.of_nat (length (steps c)) - 1 →
     currentStepIndex (stepForward c) = currentStepIndex c + 1
     ∧ steps (stepForward c) = steps c)
  ∧ (currentStepIndex c = Z.of_nat (length (steps c)) - 1 →
     stepForward c = c
     ∧ getCurrentStep (stepForward c) = last (steps c)).
Proof.
  split; [|split].
  - auto using index_reset, steps_reset, getCurrentStep_reset.
  - apply stepForward_advance.
  - intros H. rewrite stepForward_at_end by lia. split; [done|].
    unfold getCurrentStep. rewrite H.
    destruct (steps c) as [|s l] eqn:E; [done|].
    replace (Z.of_nat (length (s :: l)) - 1 <? 0) with false
      by (symmetry; apply Z.ltb_ge; simpl; lia).
    rewrite last_lookup. f_equal. simpl. lia.
Qed.

(** C9 at a one-step sequence: after [loadSteps([s0])] the index is 0 and
    [getProgress()] evaluates [0 / 0], which is [NaN], not a number
    between 0 and 100. *)
Theorem C9_progress_single_step c (s0 : Step) :
  currentStepIndex (loadSteps c [s0]) = 0
  ∧ getProgress (loadSteps c [s0]) = NaN.
Proof. done. Qed.

(** From two steps on, and for an index inside the sequence, the progress
    is a percentage. *)
Lemma getProgress_range c :
  (2 ≤ length (steps c))%nat →
  0 ≤ currentStepIndex c ≤ Z.of_nat (length (steps c)) - 1 →
  ∃ z, getProgress c = Finite z ∧ 0 ≤ z ≤ 100.
Proof.
  intros Hlen Hidx. unfold getProgress.
  set (len := Z.of_nat (length (steps c))) in *.
  assert (2 ≤ len) by (unfold len; lia).
  destruct (Z.eqb_spec len 0); [lia|].
  destruct (Z.eqb_spec (len - 1) 0); [lia|].
  eexists; split; [done|]. unfold round_percent. split.
  - apply Z.div_pos; lia.
  - apply Z.lt_succ_r, Z.div_lt_upper_bound; lia.
Qed.

End Facts.

(** The playback example of the specification: three steps, [reset],
    two [stepForward]s reach the last step and a third one stays there. *)
Example playback_three_steps :
  let c0 := reset (loadSteps constructor [10; 20; 30]) in
  let c2 := stepForward (stepForward c0) in
  getCurrentStep c0 = Some 10
  ∧ getCurrentStep c2 = Some 30
  ∧ stepForward c2 = c2.
Proof. done. Qed.

Lemma C8_witness :
  let c := stepForward (stepForward (loadSteps constructor [10; 20; 30])) in
  stepForward c = c ∧ getCurrentStep (stepForward c) = Some 30.
Proof.
  intros c.
  exact (proj2 (proj2 (C8_reset_stepForward c)) eq_refl).
Defined.

End PlaybackFacts.

Module PriorityQueueFacts.
Import PriorityQueue.

(** What the specification says of the queue, on the entries stored, kept
    in the order of their insertion: [enqueue] adds one at the end;
    [dequeue] takes out the entry of smallest priority, the earliest
    inserted of them when several have it. *)
Section Spec.
Context {A : Type}.
Implicit Types (l st : list (entry A)) (x y e : entry A).

Definition spec_enqueue (a : A) (p : Z) st : list (entry A) :=
  st ++ [Entry a p].

Fixpoint spec_dequeue st : option (entry A * list (entry A)) :=
  match st with
  | [] => None
  | x :: l =>
      match spec_dequeue l with
      | None => Some (x, [])
      | Some (y, rest) =>
          if priority x <=? priority y then Some (x, l)
          else Some (y, x :: rest)
      end
  end.

(** [x] is the stable minimum of [st] and [rest] is what is left: every
    entry inserted before [x] has a strictly larger priority, every entry
    inserted after it has one at least as large. *)
Definition stable_min st x rest : Prop :=
  ∃ l1 l2, st = l1 ++ x :: l2 ∧ rest = l1 ++ l2
           ∧ Forall (λ y, priority x < priority y) l1
           ∧ Forall (λ y, priority x ≤ priority y) l2.

(** Sequences of operations and the results of their [dequeue]s. *)
Inductive op : Type :=
| Enqueue (a : A) (p : Z)
| Dequeue.

Fixpoint run (ops : list op) (values : list (entry A)) : list (option (entry A)) :=
  match ops with
  | [] => []
  | Enqueue a p :: ops' => run ops' (enqueue a p values)
  | Dequeue :: ops' =>
      let '(r, values') := dequeue values in r :: run ops' values'
  end.

Fixpoint spec_run (ops : list op) st : list (option (entry A)) :=
  match ops with
  | [] => []
  | Enqueue a p :: ops' => spec_run ops' (spec_enqueue a p st)
  | Dequeue :: ops' =>
      match spec_dequeue st with
      | None => None :: spec_run ops' st
      | Some (x, rest) => Some x :: spec_run ops' rest
      end
  end.

Definition by_priority : relation (entry A) := λ x y, priority x ≤ priority y.

Definition with_priority (p : Z) l : list (entry A) :=
  filter (λ x, priority x = p) l.

Lemma insert_Permutation e l : insert e l ≡ₚ e :: l.
Proof.
  induction l as [|x l IH]; simpl; [done|].
  case_match; [done|]. rewrite IH. apply Permutation_swap.
Qed.

Lemma sort_Permutation l : sort l ≡ₚ l.
Proof.
  induction l as [|x l IH]; simpl; [done|].
  by rewrite insert_Permutation, IH.
Qed.

Lemma insert_sorted e l :
  StronglySorted by_priority l → StronglySorted by_priority (insert e l).
Proof.
  induction 1 as [|x l Hs IH Hx]; simpl.
  - repeat constructor.
  - destruct (Z.leb_spec (priority e) (priority x)).
    + constructor; [by constructor|]. constructor; [done|].
      eapply Forall_impl; [exact Hx|]. unfold by_priority. simpl. lia.
    + constructor; [done|]. rewrite insert_Permutation.
      constructor; [unfold by_priority; lia | done].
Qed.

Lemma sort_sorted l : StronglySorted by_priority (sort l).
Proof. induction l; simpl; [constructor | by apply insert_sorted]. Qed.

Lemma with_priority_insert p e l :
  with_priority p (insert e l) = with_priority p (e :: l).
Proof.
  unfold with_priority. induction l as [|x l IH]; simpl; [done|].
  destruct (Z.leb_spec (priority e) (priority x)); [done|].
  rewrite filter_cons, IH, !filter_cons.
  repeat case_decide; try done. lia.
Qed.

(** Stability: entries of one priority stay in their order. *)
Lemma with_priority_sort p l : with_priority p (sort l) = with_priority p l.
Proof.
  induction l as [|x l IH]; simpl; [done|].
  rewrite with_priority_insert. unfold with_priority in *.
  by rewrite !filter_cons, IH.
Qed.

(** There is one sorted and stable arrangement: the model of
    [Array.prototype.sort] does not depend on the algorithm chosen. *)
Lemma sort_unique l1 l2 :
  StronglySorted by_priority l1 → StronglySorted by_priority l2 →
  (∀ p, with_priority p l1 = with_priority p l2) → l1 = l2.
Proof.
  intros H1. revert l2. induction H1 as [|x l1 Hs IH Hx]; intros l2 H2 Hf.
  - destruct l2 as [|y l2]; [done|].
    specialize (Hf (priority y)). unfold with_priority in Hf.
    rewrite filter_cons in Hf. by case_decide.
  - destruct H2 as [|y l2 Hs2 Hy].
    { specialize (Hf (priority x)). unfold with_priority in Hf.
      rewrite filter_cons in Hf. by case_decide. }
    assert (priority x = priority y) as Hp.
    { apply Z.le_antisymm.
      - pose proof (Hf (priority y)) as Hfy. unfold with_priority in Hfy.
        rewrite (filter_cons _ y) in Hfy. case_decide; [|done].
        assert (y ∈ filter (λ z, priority z = priority y) (x :: l1)) as Hin
          by (rewrite Hfy; left).
        apply list_elem_of_filter in Hin as [_ Hin].
        apply elem_of_cons in Hin as [->|Hin]; [done|].
        rewrite Forall_forall in Hx. by apply Hx.
      - pose proof (Hf (priority x)) as Hfx. unfold with_priority in Hfx.
        rewrite (filter_cons _ x) in Hfx. case_decide; [|done].
        assert (x ∈ filter (λ z, priority z = priority x) (y :: l2)) as Hin
          by (rewrite <- Hfx; left).
        apply list_elem_of_filter in Hin as [_ Hin].
        apply elem_of_cons in Hin as [->|Hin]; [done|].
        rewrite Forall_forall in Hy. by apply Hy. }
    pose proof (Hf (priority x)) as Hfx. unfold with_priority in Hfx.
    rewrite !filter_cons in Hfx. rewrite <- Hp in Hfx.
    case_decide; [|done]. injection Hfx as -> Hfx.
    f_equal. apply IH; [done|]. intros p.
    destruct (decide (p = priority y)) as [->|Hne].
    + exact Hfx.
    + specialize (Hf p). unfold with_priority in *.
      rewrite !filter_cons in Hf.
      by rewrite !decide_False in Hf by lia.
Qed.

Lemma sort_app_sort l l' : sort (sort l ++ l') = sort (l ++ l').
Proof.
  apply sort_unique; [apply sort_sorted..|]. intros p.
  rewrite !with_priority_sort. unfold with_priority.
  rewrite !filter_app. f_equal. apply with_priority_sort.
Qed.

Lemma enqueue_sort a p st :
  enqueue a p (sort st) = sort (spec_enqueue a p st).
Proof. apply sort_app_sort. Qed.

Lemma spec_dequeue_None st : spec_dequeue st = None ↔ st = [].
Proof.
  destruct st as [|x l]; simpl; [done|].
  destruct (spec_dequeue l) as [[y rest]|]; [|done].
  by case_match.
Qed.

Lemma stable_min_least st x rest y :
  stable_min st x rest → y ∈ st → priority x ≤ priority y.
Proof.
  intros (l1 & l2 & -> & _ & H1 & H2) Hin.
  rewrite Forall_forall in H1, H2.
  apply elem_of_app in Hin as [Hin|Hin]; [apply H1 in Hin; lia|].
  apply elem_of_cons in Hin as [->|Hin]; [lia | by apply H2].
Qed.

Lemma spec_dequeue_stable_min st x rest :
  spec_dequeue st = Some (x, rest) → stable_min st x rest.
Proof.
  revert x rest. induction st as [|a l IH]; intros x rest; simpl; [done|].
  destruct (spec_dequeue l) as [[y r]|] eqn:E.
  - specialize (IH y r eq_refl).
    destruct (Z.leb_spec (priority a) (priority y)); intros [= <- <-].
    + exists [], l. repeat split; [constructor|].
      apply Forall_forall. intros z Hz.
      pose proof (stable_min_least _ _ _ z IH Hz). lia.
    + destruct IH as (l1 & l2 & -> & -> & H1 & H2).
      exists (a :: l1), l2. repeat split; [|done].
      constructor; [lia | done].
  - apply spec_dequeue_None in E as ->. intros [= <- <-].
    exists [], []. repeat split; constructor.
Qed.

(** The head of the sorted array is the stable minimum of what is stored,
    and the rest of the array is the sorted arrangement of the rest. *)
Lemma dequeue_sort st :
  dequeue (sort st) =
    match spec_dequeue st with
    | None => (None, [])
    | Some (x, rest) => (Some x, sort rest)
    end.
Proof.
  induction st as [|a l IH]; simpl; [done|].
  destruct (spec_dequeue l) as [[y r]|] eqn:E.
  - destruct (sort l) as [|y' t] eqn:Es; simpl in IH; [done|].
    injection IH as -> ->. simpl.
    destruct (Z.leb_spec (priority a) (priority y)); simpl; [|done].
    by rewrite Es.
  - apply spec_dequeue_None in E as ->. done.
Qed.

Lemma run_sort ops st : run ops (sort st) = spec_run ops st.
Proof.
  revert st. induction ops as [|[a p|] ops IH]; intros st; simpl; [done|..].
  - by rewrite enqueue_sort, IH.
  - rewrite dequeue_sort.
    destruct (spec_dequeue st) as [[x rest]|] eqn:E; [by rewrite IH|].
    apply spec_dequeue_None in E as ->. f_equal. apply (IH []).
Qed.

End Spec.

(** C7. For every sequence of [enqueue] and [dequeue] operations on a new
    queue, every [dequeue] returns what the specification's queue returns:
    the stored entry of smallest priority, the earliest inserted among
    those of that priority ([undefined] when nothing is stored).  The
    specification's choice is the stable minimum: nothing stored is
    smaller, and what was inserted before it is strictly larger.  In
    particular (A,5), (B,2), (C,2) and two [dequeue]s give B then C.
    ([dequeue] returns the entry object; its [element] is the element.) *)
Theorem C7_dequeue_stable_min (A : Type) :
  (∀ ops : list (@op A), run ops constructor = spec_run ops [])
  ∧ (∀ (st : list (entry A)) x rest,
       spec_dequeue st = Some (x, rest) → stable_min st x rest)
  ∧ (∀ st : list (entry A), spec_dequeue st = None ↔ st = [])
  ∧ (∀ a b c : A,
       run [Enqueue a 5; Enqueue b 2; Enqueue c 2; Dequeue; Dequeue]
           constructor
       = [Some (Entry b 2); Some (Entry c 2)]).
Proof.
  split; [|split; [|split]].
  - intros ops. apply (run_sort ops []).
  - apply spec_dequeue_stable_min.
  - apply spec_dequeue_None.
  - done.
Qed.

Lemma C7_witness :
  stable_min [Entry 1%nat 5; Entry 2%nat 2; Entry 3%nat 2]
             (Entry 2%nat 2) [Entry 1%nat 5; Entry 3%nat 2].
Proof.
  apply (proj1 (proj2 (C7_dequeue_stable_min nat))). reflexivity.
Defined.

End PriorityQueueFacts.

Module SortingFacts.
Import Sorting.

Local Open Scope nat_scope.

(** One pass of bubble sort on a list: [x] is carried to the right as
    long as its right neighbour is smaller; the flag tells whether
    anything was exchanged. *)
Fixpoint bubble_pass (x : Z) (l : list Z) : list Z * bool :=
  match l with
  | [] => ([x], false)
  | y :: l' =>
      if (y <? x)%Z then (y :: (bubble_pass x l').1, true)
      else (x :: (bubble_pass y l').1, (bubble_pass y l').2)
  end.

(** The array [arr] sorted in ascending order. *)
Definition sorted_version (arr result : list Z) : Prop :=
  StronglySorted Z.le result ∧ result ≡ₚ arr.

(** *** Reads and writes in the middle of an array *)

Lemma lookup_mid (pre : list Z) x r : (pre ++ x :: r) !! length pre = Some x.
Proof. by apply list_lookup_middle. Qed.

Lemma lookup_mid_S (pre : list Z) x y r :
  (pre ++ x :: y :: r) !! (length pre + 1) = Some y.
Proof.
  replace (pre ++ x :: y :: r) with ((pre ++ [x]) ++ y :: r)
    by by rewrite <- app_assoc.
  apply list_lookup_middle. rewrite length_app. simpl. lia.
Qed.

Lemma insert_mid (pre : list Z) x v r :
  <[length pre := v]> (pre ++ x :: r) = pre ++ v :: r.
Proof.
  rewrite insert_app_r_alt by lia. by rewrite Nat.sub_diag.
Qed.

Lemma insert_mid_S (pre : list Z) x y v r :
  <[length pre + 1 := v]> (pre ++ x :: y :: r) = pre ++ x :: v :: r.
Proof.
  rewrite insert_app_r_alt by lia.
  by replace (length pre + 1 - length pre) with 1 by lia.
Qed.

Lemma swap_mid (pre : list Z) x y r :
  swap (pre ++ x :: y :: r) (length pre) (length pre + 1)
  = pre ++ y :: x :: r.
Proof.
  unfold swap. rewrite lookup_mid, lookup_mid_S. simpl.
  by rewrite insert_mid, insert_mid_S.
Qed.

(** *** bubbleSort *)

Lemma bubble_inner_pass l : ∀ pre x suf n i swapped steps,
  ∃ steps',
    bubble_inner (length l) n i (length pre) (pre ++ x :: l ++ suf)
                 swapped steps
    = (pre ++ (bubble_pass x l).1 ++ suf,
       swapped || (bubble_pass x l).2, steps').
Proof.
  induction l as [|y l IH]; intros pre x suf n i swapped steps; simpl.
  - eexists. by rewrite orb_false_r.
  - rewrite lookup_mid, lookup_mid_S. simpl.
    destruct (y <? x)%Z eqn:E; simpl.
    + rewrite swap_mid.
      edestruct (IH (pre ++ [y]) x suf n i true) as [steps' Hs].
      rewrite length_app in Hs. simpl in Hs.
      rewrite <- !app_assoc in Hs. simpl in Hs.
      rewrite Hs. eexists. by rewrite orb_true_r.
    + edestruct (IH (pre ++ [x]) y suf n i swapped) as [steps' Hs].
      rewrite length_app in Hs. simpl in Hs.
      rewrite <- !app_assoc in Hs. simpl in Hs.
      rewrite Hs. by eexists.
Qed.

Lemma bubble_pass_Permutation l : ∀ x, (bubble_pass x l).1 ≡ₚ x :: l.
Proof.
  induction l as [|y l IH]; intros x; simpl; [done|].
  destruct (y <? x)%Z; simpl.
  - rewrite IH. apply Permutation_swap.
  - by rewrite IH.
Qed.

(** After a pass the last element is the largest. *)
Lemma bubble_pass_last l : ∀ x,
  ∃ r m, (bubble_pass x l).1 = r ++ [m]
         ∧ Forall (λ a, (a ≤ m)%Z) r ∧ (x ≤ m)%Z.
Proof.
  induction l as [|y l IH]; intros x; simpl.
  - by exists [], x.
  - destruct (Z.ltb_spec y x); simpl.
    + destruct (IH x) as (r & m & -> & Hr & Hx).
      exists (y :: r), m. split; [done|]. split; [|done].
      constructor; [lia | done].
    + destruct (IH y) as (r & m & -> & Hr & Hy).
      exists (x :: r), m. split; [done|]. split; [|lia].
      constructor; [lia | done].
Qed.

(** A pass without exchange found the list in order. *)
Lemma bubble_pass_unswapped l : ∀ x,
  (bubble_pass x l).2 = false →
  (bubble_pass x l).1 = x :: l ∧ Sorted Z.le (x :: l).
Proof.
  induction l as [|y l IH]; intros x; simpl.
  - intros _. split; [done|]. repeat constructor.
  - destruct (Z.ltb_spec y x); simpl; [done|].
    intros [-> Hs]%IH. split; [done|].
    constructor; [done|]. by constructor.
Qed.

(** State of the outer loop before pass [i]: the last [i] places hold,
    in order, the [i] largest elements. *)
Definition bubble_inv (arr array : list Z) (i : nat) : Prop :=
  ∃ pre suf,
    array = pre ++ suf ∧ length suf = i
    ∧ StronglySorted Z.le suf
    ∧ (∀ a b, a ∈ pre → b ∈ suf → (a ≤ b)%Z)
    ∧ array ≡ₚ arr.

Lemma bubble_outer_sorted arr todo : ∀ i array steps,
  bubble_inv arr array i →
  todo = length array - 1 - i →
  sorted_version arr (bubble_outer todo (length array) i array steps).1.
Proof.
  induction todo as [|todo IH]; intros i array steps
    (pre & suf & -> & Hi & Hsuf & Hle & Hperm) Htodo.
  - simpl. split; [|done]. rewrite length_app in Htodo.
    apply StronglySorted_app_2; [done| |done].
    destruct pre as [|p [|q pre]]; [constructor| |simpl in Htodo; lia].
    repeat constructor.
  - rewrite length_app in Htodo.
    destruct pre as [|x l]; [simpl in Htodo; lia|].
    cbn [bubble_outer].
    replace (length ((x :: l) ++ suf) - i - 1) with (length l)
      by (rewrite length_app; simpl; lia).
    destruct (bubble_inner_pass l [] x suf (length ((x :: l) ++ suf)) i false
                (push steps (Step "pass" ((x :: l) ++ suf) None
                   (Some (array_from (length ((x :: l) ++ suf) - i)
                      (λ idx, length ((x :: l) ++ suf) - 1 - idx)))
                   None None None))) as [steps' Hin].
    simpl in Hin. simpl. rewrite Hin. simpl.
    destruct (bubble_pass x l).2 eqn:Hsw; simpl.
    + pose proof (bubble_pass_Permutation l x) as Hp.
      destruct (bubble_pass_last l x) as (r & m & Hr & Hrm & _).
      rewrite Hr in *. clear Hr.
      assert (length ((r ++ [m]) ++ suf) = S (length (l ++ suf))) as Hlen.
      { rewrite length_app, Hp, length_app. done. }
      rewrite <- Hlen. apply IH.
      * exists r, (m :: suf). split; [by rewrite <- app_assoc|].
        split; [simpl; lia|]. split; [|split].
        -- constructor; [done|]. apply Forall_forall. intros b Hb.
           apply Hle; [|done]. rewrite <- Hp. set_solver.
        -- intros a b Ha [->|Hb]%elem_of_cons.
           ++ rewrite Forall_forall in Hrm. by apply Hrm.
           ++ apply Hle; [|done]. rewrite <- Hp. set_solver.
        -- by rewrite <- Hperm, <- app_assoc, (app_assoc r), Hp.
      * rewrite Hlen, length_app. simpl in Htodo. lia.
    + apply bubble_pass_unswapped in Hsw as [-> Hs]. split; [|done].
      apply (StronglySorted_app_2 _ (x :: l)); [done| |done].
      by apply Sorted_StronglySorted; [apply _|].
Qed.

Lemma bubbleSort_last arr :
  ∃ steps result,
    bubbleSort arr = steps ++
      [Step "complete" result None (Some (seq 0 (length arr))) None None None]
    ∧ sorted_version arr result.
Proof.
  unfold bubbleSort.
  pose proof (bubble_outer_sorted arr (length arr - 1) 0 arr
    (push [] (Step "init" arr None None None None None))) as H.
  destruct (bubble_outer _ _ _ _ _) as [result steps].
  exists steps, result. split.
  - unfold push, array_from. by rewrite list_fmap_id.
  - apply H; [|lia]. exists arr, []. rewrite app_nil_r.
    repeat split; [constructor|set_solver|done].
Qed.

(** *** insertionSort *)

(** The shifting loop, started with the sorted part split as [l1 ++ l2],
    the hole [g] between them and everything in [l2] above the key,
    ends with such a split where the key fits into the hole. *)
Lemma insertion_inner_split l1 : ∀ l2 g suf i key steps,
  Forall (λ a, (key < a)%Z) l2 →
  ∃ l1' l2' g' steps',
    insertion_inner (length l1) i (Some key) (l1 ++ g :: l2 ++ suf) steps
    = (length l1', l1' ++ g' :: l2' ++ suf, steps')
    ∧ l1' ++ l2' = l1 ++ l2
    ∧ Forall (λ a, (key < a)%Z) l2'
    ∧ (∀ a, last l1' = Some a → (a ≤ key)%Z).
Proof.
  induction l1 as [|a l1 IH] using rev_ind;
    intros l2 g suf i key steps Hl2.
  - exists [], l2, g, steps. by repeat split.
  - rewrite length_app. simpl. rewrite Nat.add_1_r. simpl.
    rewrite <- app_assoc. simpl. rewrite lookup_mid. simpl.
    destruct (Z.ltb_spec key a).
    + rewrite insert_mid_S.
      edestruct (IH (a :: l2) a suf i key) as (l1' & l2' & g' & st' & -> & Heq & H2 & H1);
        [by constructor|].
      exists l1', l2', g', st'. repeat split; [|done..].
      by rewrite Heq, <- app_assoc.
    + exists (l1 ++ [a]), l2, g, steps. repeat split.
      * by rewrite length_app, Nat.add_1_r, <- app_assoc.
      * done.
      * intros b. rewrite last_snoc. by intros [= <-].
Qed.

(** Putting the key into the hole of such a split gives a sorted list. *)
Lemma insert_into_split (l1 l2 : list Z) key :
  StronglySorted Z.le (l1 ++ l2) →
  Forall (λ a, (key < a)%Z) l2 →
  (∀ a, last l1 = Some a → (a ≤ key)%Z) →
  StronglySorted Z.le (l1 ++ key :: l2).
Proof.
  intros Hs H2 H1. apply StronglySorted_app in Hs as (H12 & Hs1 & Hs2).
  apply StronglySorted_app_2; [|done|].
  - intros x1 x2 Hx1 Hx2.
    assert (x1 ≤ key)%Z as Hk.
    { destruct l1 as [|b l1] using rev_ind; [by apply elem_of_nil in Hx1|].
      clear IHl1. rewrite last_snoc in H1. specialize (H1 b eq_refl).
      apply elem_of_app in Hx1 as [Hx1|Hx1%list_elem_of_singleton];
        [|by subst].
      pose proof (StronglySorted_app_1_elem_of _ _ _ x1 b Hs1 Hx1) as Hb.
      etrans; [apply Hb; left | done]. }
    apply elem_of_cons in Hx2 as [->|Hx2]; [done|].
    rewrite Forall_forall in H2. apply H2 in Hx2. lia.
  - constructor; [done|]. eapply Forall_impl; [exact H2|]. simpl. lia.
Qed.

Lemma insertion_outer_sorted arr todo : ∀ pre suf steps,
  StronglySorted Z.le pre →
  pre ++ suf ≡ₚ arr →
  length suf = todo →
  sorted_version arr
    (insertion_outer todo (length pre) (pre ++ suf) steps).1.
Proof.
  induction todo as [|todo IH]; intros pre suf steps Hs Hperm Hlen.
  - destruct suf; [|done]. simpl. rewrite app_nil_r in *. by split.
  - destruct suf as [|key suf]; [done|]. cbn [insertion_outer].
    rewrite lookup_mid.
    edestruct (insertion_inner_split pre [] key suf (length pre) key)
      as (l1' & l2' & g' & st' & Hin & Heq & H2 & H1); [constructor|].
    simpl in Hin. rewrite Hin. clear Hin. simpl.
    rewrite insert_mid. rewrite app_nil_r in Heq.
    specialize (IH (l1' ++ key :: l2') suf).
    rewrite <- app_assoc in IH. simpl in IH.
    replace (length pre + 1) with (length (l1' ++ key :: l2'))
      by (rewrite <- Heq, !length_app; simpl; lia).
    apply IH.
    + apply insert_into_split; [by rewrite Heq|done..].
    + rewrite <- Hperm, <- Heq, <- !app_assoc.
      apply Permutation_app_head. simpl.
      by rewrite !Permutation_middle.
    + simpl in Hlen. lia.
Qed.

Lemma insertionSort_last arr :
  ∃ steps result,
    insertionSort arr = steps ++
      [Step "complete" result None (Some (seq 0 (length arr))) None None None]
    ∧ sorted_version arr result.
Proof.
  unfold insertionSort. destruct arr as [|a arr].
  { exists [Step "init" [] None None None None None], [].
    split; [done|]. split; [constructor|done]. }
  pose proof (insertion_outer_sorted (a :: arr) (length arr) [a] arr
    (push [] (Step "init" (a :: arr) None None None None None))) as H.
  simpl in H. simpl. rewrite Nat.sub_0_r.
  destruct (insertion_outer _ _ _ _) as [result steps].
  exists steps, result. split.
  - unfold push, array_from. by rewrite list_fmap_id.
  - apply H; [repeat constructor|done..].
Qed.

(** *** mergeSort *)

(** A copy loop overwrites the next [todo] places with the rest of its
    source. *)
Lemma merge_rest_copy todo : ∀ src i P junk suf steps,
  todo = length src - i → i ≤ length src → todo ≤ length junk →
  ∃ steps',
    merge_rest todo src i (length P) (P ++ junk ++ suf) steps
    = (length P + todo, P ++ drop i src ++ drop todo junk ++ suf, steps').
Proof.
  induction todo as [|todo IH]; intros src i P junk suf steps Ht Hi Hj.
  - simpl. rewrite drop_ge by lia. rewrite Nat.add_0_r. by eexists.
  - destruct junk as [|g junk]; [simpl in Hj; lia|].
    destruct (lookup_lt_is_Some_2 src i) as [s Hs]; [lia|].
    cbn [merge_rest]. rewrite Hs. simpl. rewrite insert_mid.
    edestruct (IH src (i + 1) (P ++ [s]) junk suf) as [steps' Hr];
      [lia|lia|simpl in Hj; lia|].
    rewrite length_app in Hr. simpl in Hr.
    rewrite <- !app_assoc in Hr. simpl in Hr.
    rewrite Hr, (drop_S _ _ _ Hs). exists steps'. simpl.
    replace (length P + 1 + todo) with (length P + S todo) by lia.
    by replace (i + 1) with (S i) by lia.
Qed.

(** The comparing loop writes a first part [done] of the merge and stops
    when one side is used up. *)
Lemma merge_both_exit L R left mid fuel : ∀ i j P junk suf steps,
  i ≤ length L → j ≤ length R →
  length junk = (length L - i) + (length R - j) →
  length junk ≤ fuel →
  ∃ i' j' done junk' steps',
    merge_both fuel L R left mid i j (length P) (P ++ junk ++ suf) steps
    = Some (i', j', length P + length done,
            P ++ done ++ junk' ++ suf, steps')
    ∧ i' ≤ length L ∧ j' ≤ length R
    ∧ (i' = length L ∨ j' = length R)
    ∧ length junk' = (length L - i') + (length R - j')
    ∧ done ++ list_merge Z.le (drop i' L) (drop j' R)
      = list_merge Z.le (drop i L) (drop j R).
Proof.
  induction fuel as [|fuel IH]; intros i j P junk suf steps Hi Hj Hlen Hf.
  - destruct junk; [|simpl in Hf; lia]. simpl in Hlen.
    assert (i = length L) as -> by lia.
    assert (j = length R) as -> by lia.
    simpl. rewrite Nat.ltb_irrefl. simpl.
    exists (length L), (length R), [], [], steps.
    rewrite Nat.add_0_r, !Nat.sub_diag. by split_and!; try left.
  - cbn [merge_both].
    destruct (Nat.ltb_spec i (length L)) as [Hil|Hil]; simpl.
    2:{ exists i, j, [], junk, steps. rewrite Nat.add_0_r.
        split_and!; try done. left; lia. }
    destruct (Nat.ltb_spec j (length R)) as [Hjl|Hjl]; simpl.
    2:{ exists i, j, [], junk, steps. rewrite Nat.add_0_r.
        split_and!; try done. right; lia. }
    destruct (lookup_lt_is_Some_2 L i) as [a Ha]; [done|].
    destruct (lookup_lt_is_Some_2 R j) as [b Hb]; [done|].
    destruct junk as [|g junk]; [simpl in Hlen; lia|].
    rewrite Ha, Hb. simpl.
    rewrite (drop_S _ _ _ Ha), (drop_S _ _ _ Hb), list_merge_cons.
    destruct (Z.leb_spec a b) as [Hab|Hab]; simpl; rewrite insert_mid.
    + edestruct (IH (i + 1) j (P ++ [a]) junk suf)
        as (i' & j' & done & junk' & steps' & Hr & Hi' & Hj' & Hex & Hl & Hm);
        [lia|lia|simpl in Hlen; lia|simpl in Hf; lia|].
      rewrite length_app in Hr. simpl in Hr.
      rewrite <- !app_assoc in Hr. simpl in Hr. rewrite Hr.
      exists i', j', (a :: done), junk', steps'.
      replace (length P + 1 + length done)
        with (length P + length (a :: done)) by (simpl; lia).
      split_and!; [done..|].
      rewrite decide_True by done. simpl. f_equal.
      rewrite Hm, Nat.add_1_r. by rewrite (drop_S _ _ _ Hb).
    + edestruct (IH i (j + 1) (P ++ [b]) junk suf)
        as (i' & j' & done & junk' & steps' & Hr & Hi' & Hj' & Hex & Hl & Hm);
        [lia|lia|simpl in Hlen; lia|simpl in Hf; lia|].
      rewrite length_app in Hr. simpl in Hr.
      rewrite <- !app_assoc in Hr. simpl in Hr. rewrite Hr.
      exists i', j', (b :: done), junk', steps'.
      replace (length P + 1 + length done)
        with (length P + length (b :: done)) by (simpl; lia).
      split_and!; [done..|].
      rewrite decide_False by lia. simpl. f_equal.
      rewrite Hm, Nat.add_1_r. by rewrite (drop_S _ _ _ Ha).
Qed.

(** [merge] replaces two adjacent runs of the array by their merge. *)
Lemma merge_runs pre L R suf left mid right depth steps :
  left = length pre → mid + 1 = left + length L →
  right = mid + length R →
  ∃ steps',
    merge left mid right depth (pre ++ L ++ R ++ suf) steps
    = Some (pre ++ list_merge Z.le L R ++ suf, steps').
Proof.
  intros -> Hmid ->. unfold merge, slice.
  replace (mid + 1 - length pre) with (length L) by lia.
  rewrite drop_app_length, take_app_length.
  replace (mid + length R + 1 - (mid + 1)) with (length R) by lia.
  replace (pre ++ L ++ R ++ suf) with ((pre ++ L) ++ R ++ suf)
    by by rewrite <- app_assoc.
  rewrite drop_app_length' by (rewrite length_app; lia).
  rewrite take_app_length.
  replace ((pre ++ L) ++ R ++ suf) with (pre ++ (L ++ R) ++ suf)
    by by rewrite <- !app_assoc.
  edestruct (merge_both_exit L R (length pre) mid (length L + length R)
               0 0 pre (L ++ R) suf)
    as (i' & j' & done & junk' & steps' & Hr & Hi' & Hj' & Hex & Hl & Hm);
    [lia|lia|rewrite length_app; lia|rewrite length_app; lia|].
  rewrite Hr. clear Hr.
  edestruct (merge_rest_copy (length L - i') L i' (pre ++ done) junk' suf)
    as [steps1 H1]; [done|done|lia|].
  rewrite length_app, <- !app_assoc in H1. rewrite H1. clear H1.
  edestruct (merge_rest_copy (length R - j') R j'
               (pre ++ done ++ drop i' L) (drop (length L - i') junk') suf)
    as [steps2 H2]; [done|done|rewrite length_drop; lia|].
  rewrite !length_app, <- !app_assoc in H2.
  rewrite length_drop in H2 at 1.
  replace (length pre + length done + (length L - i'))
    with (length pre + (length done + (length L - i'))) by lia.
  rewrite H2. clear H2.
  rewrite (drop_ge (drop _ _)) by (rewrite length_drop; lia).
  assert (done ++ drop i' L ++ drop j' R = list_merge Z.le L R) as Hdone.
  { rewrite !drop_0 in Hm. rewrite <- Hm. f_equal.
    destruct Hex as [-> | ->].
    - by rewrite !drop_all, list_merge_nil_l.
    - by rewrite !drop_all, list_merge_nil_r, app_nil_r. }
  rewrite <- Hdone, <- !app_assoc. by eexists.
Qed.

Lemma list_merge_sorted_version (L R L' R' : list Z) :
  sorted_version L L' → sorted_version R R' →
  sorted_version (L ++ R) (list_merge Z.le L' R').
Proof.
  intros [HsL HpL] [HsR HpR]. split.
  - apply Sorted_StronglySorted; [apply _|].
    apply Sorted_list_merge; [apply _|by apply StronglySorted_Sorted..].
  - by rewrite merge_Permutation, HpL, HpR.
Qed.

(** [mergeSortHelper] on the range that holds [seg] sorts it in place
    and touches nothing else; fuel [length seg] is enough. *)
Lemma mergeSortHelper_sorts fuel : ∀ seg pre suf left right depth steps,
  left = length pre → left + length seg = right + 1 →
  length seg ≤ fuel →
  ∃ seg' steps',
    mergeSortHelper fuel left right depth (pre ++ seg ++ suf) steps
    = Some (pre ++ seg' ++ suf, steps')
    ∧ sorted_version seg seg'.
Proof.
  induction fuel as [|fuel IH];
    intros seg pre suf left right depth steps Hl Hr Hf.
  { simpl. destruct (Nat.leb_spec right left) as [Hle|Hlt];
      [|destruct seg; simpl in *; lia].
    exists seg, steps. split; [done|].
    destruct seg as [|a [|b seg]]; simpl in Hr; try lia;
      (split; [repeat constructor|done]). }
  cbn [mergeSortHelper].
  destruct (Nat.leb_spec right left) as [Hle|Hlt].
  { exists seg, steps. split; [done|].
    destruct seg as [|a [|b seg]]; simpl in Hr; try lia;
      (split; [repeat constructor|done]). }
  set (mid := (left + right) / 2).
  assert (left ≤ mid < right) as Hmid.
  { pose proof (Nat.div_mod_eq (left + right) 2) as Hdm.
    pose proof (Nat.mod_upper_bound (left + right) 2) as Hub.
    fold mid in Hdm. lia. }
  assert (seg = take (mid + 1 - left) seg ++ drop (mid + 1 - left) seg)
    as Hseg by by rewrite take_drop.
  set (L := take (mid + 1 - left) seg) in *.
  set (R := drop (mid + 1 - left) seg) in *.
  assert (length L = mid + 1 - left) as HL
    by (unfold L; rewrite length_take; lia).
  assert (length R = right - mid) as HR
    by (unfold R; rewrite length_drop; lia).
  rewrite Hseg, <- app_assoc.
  edestruct (IH L pre (R ++ suf) left mid (depth + 1))
    as (L' & steps1 & H1 & HsL); [done|lia|lia|].
  rewrite H1. clear H1.
  assert (length L' = length L) as HL' by (destruct HsL as [_ Hp]; by rewrite Hp).
  replace (pre ++ L' ++ R ++ suf) with ((pre ++ L') ++ R ++ suf)
    by by rewrite <- app_assoc.
  edestruct (IH R (pre ++ L') suf (mid + 1) right (depth + 1))
    as (R' & steps2 & H2 & HsR);
    [rewrite length_app; lia|lia|lia|].
  rewrite H2. clear H2.
  assert (length R' = length R) as HR' by (destruct HsR as [_ Hp]; by rewrite Hp).
  rewrite <- app_assoc.
  edestruct (merge_runs pre L' R' suf left mid right depth)
    as [steps3 H3]; [done|lia|lia|].
  rewrite H3. exists (list_merge Z.le L' R'), steps3. split; [done|].
  by apply list_merge_sorted_version.
Qed.

(** More fuel does not change a result. *)
Lemma mergeSortHelper_mono fuel : ∀ fuel' left right depth array steps r,
  fuel ≤ fuel' →
  mergeSortHelper fuel left right depth array steps = Some r →
  mergeSortHelper fuel' left right depth array steps = Some r.
Proof.
  induction fuel as [|fuel IH];
    intros fuel' left right depth array steps r Hf.
  - simpl. destruct fuel'; simpl; by destruct (right <=? left).
  - destruct fuel' as [|fuel']; [lia|]. cbn [mergeSortHelper].
    destruct (right <=? left); [done|].
    destruct (mergeSortHelper fuel left _ _ _ _) as [[a1 s1]|] eqn:E1;
      [|done].
    rewrite (IH fuel' _ _ _ _ _ _ ltac:(lia) E1).
    destruct (mergeSortHelper fuel _ right _ _ _) as [[a2 s2]|] eqn:E2;
      [|done].
    by rewrite (IH fuel' _ _ _ _ _ _ ltac:(lia) E2).
Qed.

(** The last step of [steps] is a [complete] step whose array is [arr]
    sorted and whose [sorted] indices are [0 .. n-1]. *)
Definition ends_sorted (arr : list Z) (steps : list step) : Prop :=
  ∃ s, last steps = Some s
       ∧ type s = "complete"
       ∧ sorted_version arr (array s)
       ∧ sorted s = Some (seq 0 (length arr)).

Lemma ends_sorted_intro arr steps result :
  sorted_version arr result →
  ends_sorted arr (steps ++
    [Step "complete" result None (Some (seq 0 (length arr))) None None None]).
Proof. intros H. eexists. rewrite last_snoc. by split_and!. Qed.

Lemma mergeSort_last arr :
  ∃ steps,
    (∀ fuel, length arr ≤ fuel → mergeSort fuel arr = Some steps)
    ∧ ends_sorted arr steps.
Proof.
  unfold mergeSort. destruct arr as [|a arr].
  { exists ([Step "init" [] None None None None None] ++
             [Step "complete" [] None (Some (seq 0 (length (@nil Z))))
                   None None None]).
    split; [intros fuel _; by destruct fuel|].
    apply ends_sorted_intro. split; [constructor|done]. }
  destruct (mergeSortHelper_sorts (length (a :: arr)) (a :: arr) [] []
              0 (length (a :: arr) - 1) 0
              (push [] (Step "init" (a :: arr) None None None None None)))
    as (seg' & steps' & Hr & Hs); [done|simpl; lia|done|].
  rewrite !app_nil_r in Hr. simpl app in Hr.
  exists (steps' ++
    [Step "complete" seg' None (Some (seq 0 (length (a :: arr))))
          None None None]).
  split.
  - intros fuel Hf.
    rewrite (mergeSortHelper_mono _ fuel _ _ _ _ _ _ Hf Hr).
    unfold push, array_from. rewrite list_fmap_id.
    destruct Hs as [_ Hp]. apply Permutation_length in Hp.
    by rewrite Hp.
  - by apply ends_sorted_intro.
Qed.

(** C1. For every input array, the steps of [bubbleSort], of
    [insertionSort] and of [mergeSort] end with a [complete] step whose
    array is the input in ascending order (ordered, and a rearrangement
    of the input) and whose [sorted] indices are [0 .. n-1].  The
    recursion of [mergeSort] ends: fuel [n] or more gives that result. *)
Theorem C1_sorts_end_sorted (arr : list Z) :
  ends_sorted arr (bubbleSort arr)
  ∧ ends_sorted arr (insertionSort arr)
  ∧ ∃ steps,
      (∀ fuel, length arr ≤ fuel → mergeSort fuel arr = Some steps)
      ∧ ends_sorted arr steps.
Proof.
  split; [|split].
  - destruct (bubbleSort_last arr) as (steps & result & -> & H).
    by apply ends_sorted_intro.
  - destruct (insertionSort_last arr) as (steps & result & -> & H).
    by apply ends_sorted_intro.
  - apply mergeSort_last.
Qed.

(** The ascending arrangement is unique: it is what any sort returns. *)
Lemma sorted_version_unique arr r1 r2 :
  sorted_version arr r1 → sorted_version arr r2 → r1 = r2.
Proof.
  intros [H1 P1] [H2 P2].
  apply (StronglySorted_unique Z.le); [done..|]. by rewrite P1, P2.
Qed.

Lemma sorted_version_merge_sort arr :
  sorted_version arr (merge_sort Z.le arr).
Proof.
  split; [apply StronglySorted_merge_sort; apply _|].
  apply merge_sort_Permutation.
Qed.

(** The sorted array of the last step is the one a reference sort
    returns. *)
Lemma ends_sorted_merge_sort arr steps :
  ends_sorted arr steps →
  array <$> last steps = Some (merge_sort Z.le arr).
Proof.
  intros (s & -> & _ & Hs & _). simpl. f_equal.
  eapply sorted_version_unique; [exact Hs|apply sorted_version_merge_sort].
Qed.

(** The example of the specification. *)
Example bubbleSort_5381 :
  array <$> last (bubbleSort [5; 3; 8; 1]%Z) = Some [1; 3; 5; 8]%Z.
Proof. reflexivity. Qed.

Lemma C1_witness :
  ∃ steps, mergeSort 4 [5; 3; 8; 1]%Z = Some steps
           ∧ ends_sorted [5; 3; 8; 1]%Z steps.
Proof.
  destruct (C1_sorts_end_sorted [5; 3; 8; 1]%Z) as (_ & _ & steps & Hm & He).
  exists steps. split; [|exact He]. apply Hm. simpl. lia.
Defined.

End SortingFacts.

(** ** The frame of a step sequence *)

Module Shape.

(** The terminal step types the claim names, and the ones the generators
    have. *)
Definition claimed_terminals : list string := ["complete"; "no-path"].

Definition terminals : list string := ["complete"; "no-path"; "path-found"].

(** The types of a step sequence that starts with an [init] step, ends
    with a step whose type is in [ends], and has between them no [init]
    step and no step whose type is in [excluded]. *)
Definition framed (ends excluded : list string) (types : list string)
    : Prop :=
  ∃ middle last,
    types = "init" :: middle ++ [last]
    ∧ last ∈ ends
    ∧ Forall (λ t, t ≠ "init" ∧ t ∉ excluded) middle.

(** Step types that are neither [init] nor terminal. *)
Definition inner (t : string) : Prop := t ≠ "init" ∧ t ∉ terminals.

Lemma framed_last ends excluded types :
  framed ends excluded types → ∃ t, last types = Some t ∧ t ∈ ends.
Proof.
  intros (middle & t & -> & Ht & _). exists t. split; [|done].
  by rewrite app_comm_cons, last_snoc.
Qed.

(** Sequences of steps of any of the generators; [ty] gives the type of
    a step. *)
Section Steps.
Context {S : Type} (ty : S → string).

(** [steps'] is [steps] with steps of inner types added. *)
Definition extends (steps steps' : list S) : Prop :=
  ∃ ext, steps' = steps ++ ext ∧ Forall (λ s, inner (ty s)) ext.

Lemma extends_refl steps : extends steps steps.
Proof. exists []. by rewrite app_nil_r. Qed.

Lemma extends_trans s1 s2 s3 : extends s1 s2 → extends s2 s3 → extends s1 s3.
Proof.
  intros (e1 & -> & H1) (e2 & -> & H2). exists (e1 ++ e2).
  split; [by rewrite app_assoc|]. by apply Forall_app.
Qed.

Lemma extends_push steps s : inner (ty s) → extends steps (steps ++ [s]).
Proof. intros H. exists [s]. split; [done|]. by constructor. Qed.

(** An [init] step, inner steps and a last step make a framed
    sequence. *)
Lemma framed_intro ends i ext l :
  ty i = "init" → Forall (λ s, inner (ty s)) ext → ty l ∈ ends →
  framed ends terminals (ty <$> i :: ext ++ [l]).
Proof.
  intros Hi Hext Hl. exists (ty <$> ext), (ty l).
  rewrite fmap_cons, fmap_app, Hi. split; [done|]. split; [done|].
  by apply Forall_fmap.
Qed.

Lemma framed_extends ends i steps l :
  ty i = "init" → extends [i] steps → ty l ∈ ends →
  framed ends terminals (ty <$> steps ++ [l]).
Proof.
  intros Hi (ext & -> & Hext) Hl. by apply framed_intro.
Qed.

End Steps.

End Shape.

(** ** The cells of a grid *)

Module GridFacts.
Import Grid.

(** The positions of the grid, and the cells a run can visit: those and
    the start, wherever it lies. *)
Definition grid (rows cols : Z) : list pos :=
  list_prod (seqZ 0 rows) (seqZ 0 cols).

Definition cells (rows cols : Z) (start : pos) : gset pos :=
  {[start]} ∪ list_to_set (grid rows cols).

(** Fuel that suffices for every generator on a grid. *)
Definition grid_fuel (rows cols : Z) : nat :=
  5 * (Z.to_nat rows * Z.to_nat cols) + 6.

Lemma in_bounds_grid rows cols p :
  in_bounds rows cols p = true → p ∈ grid rows cols.
Proof.
  unfold in_bounds, row, col, grid. destruct p as [r c]. simpl.
  rewrite !andb_true_iff, !Z.leb_le, !Z.ltb_lt. intros [[[? ?] ?] ?].
  apply list_elem_of_In, in_prod_iff.
  split; apply list_elem_of_In, elem_of_seqZ; lia.
Qed.

Lemma getNeighbors_in_bounds r c rows cols p :
  p ∈ getNeighbors r c rows cols → in_bounds rows cols p = true.
Proof.
  unfold getNeighbors. rewrite list_elem_of_In, filter_In. tauto.
Qed.

Lemma getNeighbors_cells r c rows cols start p :
  p ∈ getNeighbors r c rows cols → p ∈ cells rows cols start.
Proof.
  intros H%getNeighbors_in_bounds%in_bounds_grid.
  unfold cells. apply elem_of_union_r. by apply elem_of_list_to_set.
Qed.

Lemma getNeighbors_length r c rows cols :
  (length (getNeighbors r c rows cols) ≤ 4)%nat.
Proof.
  unfold getNeighbors.
  etrans; [apply List.filter_length_le|]. by rewrite length_fmap.
Qed.

Lemma size_list_to_set_le (l : list pos) :
  (size (list_to_set l : gset pos) ≤ length l)%nat.
Proof.
  induction l as [|x l IH]; [by rewrite list_to_set_nil, size_empty|].
  rewrite list_to_set_cons, size_union_alt, size_singleton. simpl.
  assert (list_to_set l ∖ {[x]} ⊆ (list_to_set l : gset pos)) as Hsub
    by apply subseteq_difference_l, reflexivity.
  apply subseteq_size in Hsub. lia.
Qed.

Lemma size_cells rows cols start :
  (size (cells rows cols start) ≤ Z.to_nat rows * Z.to_nat cols + 1)%nat.
Proof.
  unfold cells. rewrite size_union_alt, size_singleton.
  assert (list_to_set (grid rows cols) ∖ {[start]}
          ⊆ (list_to_set (grid rows cols) : gset pos)) as Hsub
    by apply subseteq_difference_l, reflexivity.
  apply subseteq_size in Hsub.
  pose proof (size_list_to_set_le (grid rows cols)) as Hg.
  assert (length (grid rows cols) = (Z.to_nat rows * Z.to_nat cols)%nat)
    as Hlen by (unfold grid; by rewrite length_prod, !length_seqZ).
  lia.
Qed.

(** Visiting a new cell leaves fewer cells to visit. *)
Lemma size_unvisited_add (C V : gset pos) p :
  p ∈ C → p ∉ V →
  (S (size (C ∖ add V p)) ≤ size (C ∖ V))%nat.
Proof.
  intros HC HV. unfold add.
  apply (subset_size (C ∖ ({[p]} ∪ V)) (C ∖ V)). set_solver.
Qed.

Lemma size_unvisited_mono (C V V' : gset pos) :
  V ⊆ V' → (size (C ∖ V') ≤ size (C ∖ V))%nat.
Proof. intros H. apply subseteq_size. set_solver. Qed.

Lemma add_subseteq (s : gset pos) p : s ⊆ add s p.
Proof. unfold add. apply union_subseteq_r. Qed.

Lemma elem_of_add (s : gset pos) p q : q ∈ add s p ↔ q = p ∨ q ∈ s.
Proof. unfold add. by rewrite elem_of_union, elem_of_singleton. Qed.

Lemma has_true s p : has s p = true ↔ p ∈ s.
Proof. unfold has. apply bool_decide_eq_true. Qed.

Lemma has_false s p : has s p = false ↔ p ∉ s.
Proof. unfold has. apply bool_decide_eq_false. Qed.

Lemma same_pos_true p q : same_pos p q = true ↔ p = q.
Proof.
  unfold same_pos, row, col. destruct p, q. simpl.
  rewrite andb_true_iff, !Z.eqb_eq. naive_solver.
Qed.

Lemma same_pos_false p q : same_pos p q = false ↔ p ≠ q.
Proof.
  rewrite <- same_pos_true. by destruct (same_pos p q).
Qed.

Fixpoint no_comma (s : string) : Prop :=
  match s with
  | EmptyString => True
  | String a s' => a ≠ ","%char ∧ no_comma s'
  end.

Lemma pretty_N_go_no_comma x : ∀ s,
  no_comma s → no_comma (pretty_N_go x s).
Proof.
  induction (N.lt_wf_0 x) as [x _ IH]; intros s Hs.
  assert (x = 0 ∨ 0 < x)%N as [->|Hx] by lia.
  - by rewrite pretty_N_go_0.
  - rewrite pretty_N_go_step by done. apply IH; [by apply N.div_lt|].
    split; [|done]. unfold pretty_N_char. by repeat case_match.
Qed.

Lemma pretty_N_no_comma (x : N) : no_comma (pretty x).
Proof.
  unfold pretty, pretty_N. case_decide; [by compute|].
  by apply pretty_N_go_no_comma.
Qed.

Lemma pretty_Z_no_comma (z : Z) : no_comma (pretty z).
Proof.
  destruct z as [|x|x]; unfold pretty, pretty_Z.
  - by compute.
  - apply pretty_N_no_comma.
  - split; [done|]. apply pretty_N_no_comma.
Qed.

Lemma split_at_comma s1 : ∀ s2 t1 t2,
  no_comma s1 → no_comma s2 →
  s1 +:+ "," +:+ t1 = s2 +:+ "," +:+ t2 → s1 = s2 ∧ t1 = t2.
Proof.
  induction s1 as [|a s1 IH]; intros [|b s2] t1 t2 H1 H2;
    unfold String.append; fold String.append.
  - by intros [= ->].
  - intros [= <- _]. by destruct H2.
  - intros [= -> _]. by destruct H1.
  - intros [= -> Heq]. destruct H1 as [_ H1], H2 as [_ H2].
    destruct (IH s2 t1 t2 H1 H2 Heq) as [-> ->]. done.
Qed.

(** Positions with the same key are the same position: keying the sets
    and maps by the position itself loses nothing. *)
Lemma key_inj p q : key p = key q → p = q.
Proof.
  unfold key. destruct p as [r c], q as [r' c']. simpl. intros H.
  apply split_at_comma in H as [Hr Hc]; [|apply pretty_Z_no_comma..].
  by apply (inj pretty) in Hr, Hc; subst.
Qed.

End GridFacts.

(** ** bfs and dfs *)

Module TraversalFacts.
Import Grid Traversal GridFacts.

Section Run.
Variables (rows cols : Z) (start : pos) (walls : gset pos).

Local Abbreviation C := (cells rows cols start).

(** What the loop of [bfs] emits once [seen] has been visited. *)
Definition bfs_emitted (seen : gset pos) (s : step) : Prop :=
  (type s = "visit" ∨ type s = "discover") ∧ seen ⊆ visited s.

Definition dfs_emitted (s : step) : Prop :=
  type s = "visit" ∨ type s = "discover" ∨ type s = "backtrack".

Lemma bfs_emitted_mono seen seen' s :
  seen ⊆ seen' → bfs_emitted seen' s → bfs_emitted seen s.
Proof. intros Hs [Ht Hv]. split; [done|]. by etrans. Qed.

Lemma bfs_neighbors_spec current neighbors : ∀ seen queue steps,
  Forall (λ p, p ∈ C) neighbors →
  ∃ seen' queue' ext,
    bfs_neighbors walls current neighbors seen queue steps
    = (seen', queue', steps ++ ext)
    ∧ seen ⊆ seen'
    ∧ Forall (bfs_emitted seen) ext
    ∧ (size (C ∖ seen') + length queue'
       ≤ size (C ∖ seen) + length queue)%nat.
Proof.
  induction neighbors as [|nb rest IH]; intros seen queue steps Hin; simpl.
  - exists seen, queue, []. by rewrite app_nil_r.
  - apply Forall_cons in Hin as [Hnb Hrest].
    destruct (has seen nb) eqn:Hseen; simpl; [by apply IH|].
    destruct (has walls nb) eqn:Hwall; simpl; [by apply IH|].
    apply has_false in Hseen.
    edestruct (IH (add seen nb) (Queue.enqueue nb queue)) as
      (seen' & queue' & ext & -> & Hsub & Hext & Hsize); [done|].
    eexists seen', queue', (_ :: ext).
    unfold push. rewrite <- app_assoc. split; [done|].
    pose proof (add_subseteq seen nb) as Hadd.
    split; [by etrans|]. split.
    + constructor; [by split; [right|]|].
      eapply Forall_impl; [exact Hext|]. intros s.
      by apply bfs_emitted_mono.
    + pose proof (size_unvisited_add C seen nb Hnb Hseen).
      unfold Queue.enqueue in Hsize. rewrite length_app in Hsize.
      simpl in Hsize. lia.
Qed.

Lemma bfs_loop_spec n : ∀ seen queue steps,
  (size (C ∖ seen) + length queue ≤ n)%nat →
  ∃ seen' ext,
    (∀ fuel, (n ≤ fuel)%nat →
       bfs_loop fuel rows cols walls seen queue steps
       = Some (seen', steps ++ ext))
    ∧ seen ⊆ seen'
    ∧ Forall (bfs_emitted seen) ext.
Proof.
  induction n as [|n IH]; intros seen queue steps Hn.
  - destruct queue; [|simpl in Hn; lia].
    exists seen, []. rewrite app_nil_r.
    split; [by intros [|fuel] _|]. by split.
  - destruct queue as [|current queue].
    { exists seen, []. rewrite app_nil_r.
      split; [by intros [|fuel] _|]. by split. }
    edestruct (bfs_neighbors_spec current
                 (getNeighbors (row current) (col current) rows cols)
                 seen queue
                 (push steps (Step "visit" (Some current) None None seen
                                   None None)))
      as (seen1 & queue1 & ext1 & Hnb & Hsub1 & Hext1 & Hsize).
    { apply Forall_forall. intros p. apply getNeighbors_cells. }
    edestruct (IH seen1 queue1) as (seen' & ext2 & Hrun & Hsub2 & Hext2).
    { simpl in Hn. lia. }
    eexists seen', (_ :: ext1 ++ ext2). split; [|split].
    + intros [|fuel] Hf; [lia|]. simpl. rewrite Hnb.
      rewrite Hrun by lia. unfold push.
      by rewrite <- !app_assoc.
    + by etrans.
    + constructor; [by split; [left|]|]. apply Forall_app. split; [done|].
      eapply Forall_impl; [exact Hext2|]. intros s.
      by apply bfs_emitted_mono.
Qed.

Lemma bfs_spec :
  ∃ ext seen',
    (∀ fuel, (grid_fuel rows cols ≤ fuel)%nat →
       bfs fuel rows cols start walls
       = Some (Step "init" (Some start) None None {[start]} None None
               :: ext ++ [Step "complete" None None None seen' None None]))
    ∧ start ∈ seen'
    ∧ Forall (bfs_emitted {[start]}) ext.
Proof.
  unfold bfs.
  edestruct (bfs_loop_spec (grid_fuel rows cols) (add ∅ start)
               (Queue.enqueue start Queue.constructor)
               (push [] (Step "init" (Some start) None None (add ∅ start)
                              None None)))
    as (seen' & ext & Hrun & Hsub & Hext).
  { pose proof (size_cells rows cols start).
    pose proof (size_unvisited_mono C ∅ (add ∅ start)
                  (empty_subseteq _)) as Hle.
    pose proof (subseteq_size (C ∖ ∅) C) as Hle'.
    assert (S (size (C ∖ add ∅ start)) ≤ size (C ∖ ∅))%nat.
    { apply size_unvisited_add; [|apply not_elem_of_empty].
      unfold cells. apply elem_of_union_l, elem_of_singleton. done. }
    assert (C ∖ ∅ ⊆ C) as Hsub' by apply subseteq_difference_l, reflexivity.
    apply subseteq_size in Hsub'.
    unfold grid_fuel. simpl. lia. }
  assert (add ∅ start = {[start]}) as Hadd
    by (unfold add; apply (right_id_L ∅ (∪))).
  rewrite Hadd in *.
  exists ext, seen'. split; [|split].
  - intros fuel Hf. by rewrite Hrun.
  - apply Hsub. by apply elem_of_singleton.
  - done.
Qed.

(** *** dfs *)

(** A call on a node that was visited or is a wall returns at once:
    nothing is visited and no step is added. *)
Lemma dfsHelper_guard fuel node depth seen steps :
  node ∈ seen ∨ node ∈ walls →
  dfsHelper fuel rows cols walls node depth seen steps = Some (seen, steps).
Proof.
  intros H.
  assert (has seen node || has walls node = true) as Hg.
  { apply orb_true_iff. by rewrite !has_true. }
  destruct fuel; simpl; by rewrite Hg.
Qed.

Definition dfs_post (seen : gset pos) (steps : list step)
    (r : gset pos * list step) : Prop :=
  ∃ ext, r.2 = steps ++ ext ∧ seen ⊆ r.1 ∧ Forall dfs_emitted ext.

Lemma dfs_neighbors_spec n node depth :
  (∀ nb d seen steps,
     nb ∈ C → (size (C ∖ seen) ≤ n)%nat →
     ∃ r, (∀ fuel, (n ≤ fuel)%nat →
             dfsHelper fuel rows cols walls nb d seen steps = Some r)
          ∧ dfs_post seen steps r) →
  ∀ neighbors seen steps,
    Forall (λ p, p ∈ C) neighbors → (size (C ∖ seen) ≤ n)%nat →
    ∃ r, (∀ fuel, (n ≤ fuel)%nat →
            dfs_neighbors (dfsHelper fuel rows cols walls) walls node depth
                          neighbors seen steps = Some r)
         ∧ dfs_post seen steps r.
Proof.
  intros Hrec. induction neighbors as [|nb rest IH];
    intros seen steps Hin Hn; simpl.
  - exists (seen, steps). split; [done|]. exists []. by rewrite app_nil_r.
  - apply Forall_cons in Hin as [Hnb Hrest].
    destruct (negb (has seen nb) && negb (has walls nb)); [|by apply IH].
    edestruct (Hrec nb (depth + 1) seen) as ([seen1 steps1] & Hrun1 & Hpost1);
      [done..|].
    destruct Hpost1 as (ext1 & Hs1 & Hsub1 & Hext1). simpl in Hs1, Hsub1.
    edestruct (IH seen1) as ([seen2 steps2] & Hrun2 & Hpost2); [done| |].
    { pose proof (size_unvisited_mono C seen seen1 Hsub1). lia. }
    destruct Hpost2 as (ext2 & Hs2 & Hsub2 & Hext2). simpl in Hs2, Hsub2.
    exists (seen2, steps2). split.
    + intros fuel Hf. rewrite Hrun1 by done. by apply Hrun2.
    + eexists (_ :: ext1 ++ _ :: ext2). simpl. split; [|split].
      * rewrite Hs2, Hs1. unfold push. by rewrite <- !app_assoc.
      * by etrans.
      * constructor; [by right; left|]. apply Forall_app. split; [done|].
        constructor; [by right; right|done].
Qed.

Lemma dfsHelper_spec n : ∀ node depth seen steps,
  node ∈ C → (size (C ∖ seen) ≤ n)%nat →
  ∃ r, (∀ fuel, (n ≤ fuel)%nat →
          dfsHelper fuel rows cols walls node depth seen steps = Some r)
       ∧ dfs_post seen steps r.
Proof.
  induction n as [|n IH]; intros node depth seen steps HC Hn.
  - destruct (decide (node ∈ seen ∨ node ∈ walls)) as [Hg|Hg].
    + exists (seen, steps). split.
      * intros fuel _. by apply dfsHelper_guard.
      * exists []. by rewrite app_nil_r.
    + assert (node ∉ seen) as Hns by tauto.
      pose proof (size_unvisited_add C seen node HC Hns). lia.
  - destruct (decide (node ∈ seen ∨ node ∈ walls)) as [Hg|Hg].
    { exists (seen, steps). split.
      * intros fuel _. by apply dfsHelper_guard.
      * exists []. by rewrite app_nil_r. }
    assert (node ∉ seen) as Hns by tauto.
    assert (node ∉ walls) as Hnw by tauto.
    apply has_false in Hns as Hns', Hnw as Hnw'.
    edestruct (dfs_neighbors_spec n node depth IH
                 (getNeighbors (row node) (col node) rows cols)
                 (add seen node)
                 (push steps (Step "visit" (Some node) None None
                                   (add seen node) (Some depth) None)))
      as ([seen1 steps1] & Hrun & ext & Hs & Hsub & Hext).
    { apply Forall_forall. intros p. apply getNeighbors_cells. }
    { pose proof (size_unvisited_add C seen node HC Hns). lia. }
    simpl in Hs, Hsub. exists (seen1, steps1). split.
    + intros [|fuel] Hf; [lia|]. simpl. rewrite Hns', Hnw'. simpl.
      apply Hrun. lia.
    + eexists (_ :: ext). simpl. split; [|split].
      * rewrite Hs. unfold push. by rewrite <- app_assoc.
      * etrans; [|exact Hsub]. apply add_subseteq.
      * constructor; [by left|done].
Qed.

Lemma dfs_spec :
  ∃ ext seen',
    (∀ fuel, (grid_fuel rows cols ≤ fuel)%nat →
       dfs fuel rows cols start walls
       = Some (Step "init" (Some start) None None ∅ None None
               :: ext ++ [Step "complete" None None None seen' None None]))
    ∧ Forall dfs_emitted ext.
Proof.
  unfold dfs.
  edestruct (dfsHelper_spec (grid_fuel rows cols) start 0 ∅
               (push [] (Step "init" (Some start) None None ∅ None None)))
    as ([seen' steps'] & Hrun & ext & Hs & _ & Hext).
  { unfold cells. apply elem_of_union_l. by apply elem_of_singleton. }
  { pose proof (size_cells rows cols start).
    assert (C ∖ ∅ ⊆ C) as Hsub' by apply subseteq_difference_l, reflexivity.
    apply subseteq_size in Hsub'. unfold grid_fuel. lia. }
  simpl in Hs. subst steps'. exists ext, seen'. split; [|done].
  intros fuel Hf. by rewrite Hrun.
Qed.

End Run.

(** C10. For every grid configuration, in particular when the start is
    in the wall set, [bfs] puts the start into the visited set before
    its loop: the start is in the [visited] snapshot of every step, and
    the [complete] step reports at least one visited node. *)
Theorem C10_bfs_start_visited rows cols start walls :
  ∃ steps,
    (∀ fuel, (grid_fuel rows cols ≤ fuel)%nat →
       bfs fuel rows cols start walls = Some steps)
    ∧ Forall (λ s, start ∈ visited s) steps
    ∧ ∃ s, last steps = Some s ∧ type s = "complete"
           ∧ (1 ≤ size (visited s))%nat.
Proof.
  destruct (bfs_spec rows cols start walls)
    as (ext & seen' & Hrun & Hstart & Hext).
  eexists. split; [exact Hrun|]. split.
  - constructor; [simpl; by apply elem_of_singleton_2|].
    apply Forall_app. split.
    + eapply Forall_impl; [exact Hext|]. intros s [_ Hs].
      apply Hs. by apply elem_of_singleton_2.
    + by constructor.
  - eexists. rewrite app_comm_cons, last_snoc. split; [done|].
    split; [done|]. simpl.
    assert ({[start]} ⊆ seen') as Hsub by by apply singleton_subseteq_l.
    apply subseteq_size in Hsub. by rewrite size_singleton in Hsub.
Qed.

Lemma C10_witness :
  ∃ steps,
    bfs 11 1 1 (0, 0) {[(0, 0)]} = Some steps
    ∧ Forall (λ s, (0, 0) ∈ visited s) steps.
Proof.
  destruct (C10_bfs_start_visited 1 1 (0, 0) {[(0, 0)]})
    as (steps & Hrun & Hall & _).
  exists steps. split; [|exact Hall]. apply Hrun. vm_compute. lia.
Defined.

(** C6 as stated: a call of [dfsHelper] on a node that was visited, is a
    wall or lies outside the grid adds a [null-node] step. *)
Definition null_node_claim : Prop :=
  ∀ fuel rows cols walls node depth seen steps r,
    node ∈ seen ∨ node ∈ walls ∨ in_bounds rows cols node = false →
    dfsHelper fuel rows cols walls node depth seen steps = Some r →
    ∃ s, s ∈ r.2 ∧ type s = "null-node".

(** On a 1 x 1 grid whose only cell is a wall, the call on the start
    returns without a step and [dfs] gives [init], [complete]. *)
Lemma C6_counterexample :
  dfs 1 1 1 (0, 0) {[(0, 0)]}
  = Some [Step "init" (Some (0, 0)) None None ∅ None None;
          Step "complete" None None None ∅ None None]
  ∧ ¬ null_node_claim.
Proof.
  split; [by vm_compute|]. intros H.
  destruct (H 1%nat 1 1 {[(0, 0)]} (0, 0) 0 ∅ [] (∅, []))
    as (s & Hs & _); [right; left; by apply elem_of_singleton_2|done|].
  by apply elem_of_nil in Hs.
Qed.

(** C6, amended. A call of [dfsHelper] on a node that was visited or is
    a wall returns at once: the visited set and the steps are unchanged,
    no step records the call.  No step of a [dfs] run has the type
    [null-node].  The helper has no test of the bounds; the neighbours it
    is called on come from [getNeighbors] and lie inside the grid. *)
Theorem C6_dfs_silent_return :
  (∀ fuel rows cols walls node depth seen steps,
     node ∈ seen ∨ node ∈ walls →
     dfsHelper fuel rows cols walls node depth seen steps
     = Some (seen, steps))
  ∧ (∀ rows cols start walls,
       ∃ steps,
         (∀ fuel, (grid_fuel rows cols ≤ fuel)%nat →
            dfs fuel rows cols start walls = Some steps)
         ∧ Forall (λ s, type s ≠ "null-node") steps)
  ∧ (∀ r c rows cols p,
       p ∈ getNeighbors r c rows cols → in_bounds rows cols p = true).
Proof.
  split; [|split].
  - intros. by apply dfsHelper_guard.
  - intros rows cols start walls.
    destruct (dfs_spec rows cols start walls) as (ext & seen' & Hrun & Hext).
    eexists. split; [exact Hrun|].
    constructor; [done|]. apply Forall_app. split; [|by constructor].
    eapply Forall_impl; [exact Hext|].
    intros s [H|[H|H]]; by rewrite H.
  - apply getNeighbors_in_bounds.
Qed.

Lemma C6_witness :
  dfsHelper 0 1 1 {[(0, 0)]} (0, 0) 0 ∅ [] = Some (∅, []).
Proof.
  apply (proj1 C6_dfs_silent_return).
  right. apply elem_of_singleton_2. reflexivity.
Defined.

End TraversalFacts.

(** ** dijkstra and aStar *)

Module PathfindingFacts.
Import Grid Pathfinding GridFacts.

(** The working state both generators share: the best known cost of
    each node ([distances], [gScore]), the parent pointers, the visited
    set and the queue. *)
Record core : Type := Core {
  g : gmap pos Z;
  prev : gmap pos pos;
  vis : gset pos;
  pq : list entry
}.

(** How a run ends. *)
Inductive outcome : Type :=
| NoPath (V : gset pos)
| Found (path : list pos) (d : option Z) (V : gset pos).

Section Search.
Variables (rows cols : Z) (start end_ : pos) (walls : gset pos).

(** The priority of a node is its cost plus [h]: [0] for [dijkstra], the
    Manhattan distance to the end for [aStar]. *)
Variable h : pos → Z.

(** A move goes to a neighbour inside the grid that is not a wall. *)
Definition edge (p q : pos) : Prop :=
  q ∈ getNeighbors (row p) (col p) rows cols ∧ q ∉ walls.

(** [walk k p]: [p] is reached from the start in [k] moves. *)
Inductive walk : nat → pos → Prop :=
| walk_start : walk 0 start
| walk_step k p q : walk k p → edge p q → walk (S k) q.

(** One turn of the loop over the neighbours, and the loop. *)
Definition relax_one (u : pos) (d : Z) (c : core) (nb : pos) : core :=
  if has walls nb || has (vis c) nb then c
  else if improves (d + 1) (g c !! nb) then
    Core (<[nb := d + 1]> (g c)) (<[nb := u]> (prev c)) (vis c)
         (PriorityQueue.enqueue nb (d + 1 + h nb) (pq c))
  else c.

Definition relax_all (u : pos) (d : Z) (neighbors : list pos) (c : core)
    : core :=
  foldl (relax_one u d) c neighbors.

(** The loop of both generators on the shared state. *)
Fixpoint search_loop (fuel pfuel : nat) (c : core) : option outcome :=
  match pq c with
  | [] => Some (NoPath (vis c))
  | e :: rest =>
      match fuel with
      | O => None
      | S fuel' =>
          let u := PriorityQueue.element e in
          if has (vis c) u then
            search_loop fuel' pfuel (Core (g c) (prev c) (vis c) rest)
          else
            let V := add (vis c) u in
            if same_pos u end_ then
              match reconstructPath pfuel (prev c) start end_ with
              | None => None
              | Some path => Some (Found path (g c !! u) V)
              end
            else
              match g c !! u with
              | Some d =>
                  search_loop fuel' pfuel
                    (relax_all u d
                       (getNeighbors (row u) (col u) rows cols)
                       (Core (g c) (prev c) V rest))
              | None =>
                  search_loop fuel' pfuel (Core (g c) (prev c) V rest)
              end
      end
  end.

(** Neighbours of [u] that the loop over the neighbours has yet to see. *)
Definition pending (u : pos) (todo : list pos) : pos → pos → Prop :=
  λ n m, n = u ∧ m ∈ todo.

Definition settled : pos → pos → Prop := λ _ _, False.

(** The invariant of the loop; [P n m] excuses the edge from [n] to [m]
    from having been relaxed. *)
Record Inv (P : pos → pos → Prop) (c : core) : Prop := {
  I_sorted : StronglySorted PriorityQueueFacts.by_priority (pq c);
  I_start : g c !! start = Some 0;
  I_walk : ∀ n d, g c !! n = Some d → 0 ≤ d ∧ walk (Z.to_nat d) n;
  I_vis_g : ∀ n, n ∈ vis c → is_Some (g c !! n);
  I_exact : ∀ n d k,
    n ∈ vis c → g c !! n = Some d → walk k n → d ≤ Z.of_nat k;
  I_relaxed : ∀ n m d,
    n ∈ vis c → edge n m → ¬ P n m → g c !! n = Some d →
    ∃ d', g c !! m = Some d' ∧ d' ≤ d + 1;
  I_open : ∀ n d,
    g c !! n = Some d → n ∉ vis c →
    ∃ e, e ∈ pq c ∧ PriorityQueue.element e = n
         ∧ PriorityQueue.priority e = d + h n;
  I_pq : ∀ e,
    e ∈ pq c →
    ∃ d, g c !! PriorityQueue.element e = Some d
         ∧ d + h (PriorityQueue.element e) ≤ PriorityQueue.priority e;
  I_prev : ∀ n p,
    prev c !! n = Some p →
    p ∈ vis c ∧ ∃ d, g c !! p = Some d ∧ g c !! n = Some (d + 1);
  I_prev_def : ∀ n d,
    g c !! n = Some d → n ≠ start → is_Some (prev c !! n);
  I_bound : ∀ n d k,
    n ∈ vis c → g c !! n = Some d → walk k end_ → d + h n ≤ Z.of_nat k;
  I_size : ∀ n d,
    g c !! n = Some d →
    d ≤ Z.of_nat (size (vis c))
    ∧ (n ∈ vis c → d < Z.of_nat (size (vis c)));
  I_cells : vis c ⊆ cells rows cols start;
  I_end : end_ ∉ vis c
}.

(** What is assumed of [h]: it drops by at most one along a move, and
    is zero at the end. *)
Hypothesis h_step : ∀ p q, edge p q → h p ≤ 1 + h q.
Hypothesis h_end : h end_ = 0.

Lemma walk_cells k n : walk k n → n ∈ cells rows cols start.
Proof.
  destruct 1 as [|k p q _ [Hq _]].
  - unfold cells. by apply elem_of_union_l, elem_of_singleton_2.
  - by eapply getNeighbors_cells.
Qed.

Lemma Inv_weaken (P P' : pos → pos → Prop) c :
  (∀ n m, P n m → P' n m) → Inv P c → Inv P' c.
Proof.
  intros HP [].
  split; try done. intros n m d Hn Hm HP'. eauto.
Qed.

(** While a node that can be reached is not visited, the queue holds an
    entry on a shortest way to it. *)
Lemma frontier c k t :
  Inv settled c → walk k t → t ∉ vis c →
  ∃ e, e ∈ pq c ∧ PriorityQueue.priority e ≤ Z.of_nat k + h t.
Proof.
  intros HI Hw. induction Hw as [|k p q Hw IH Hpq]; intros Hv.
  - destruct (I_open _ _ HI start 0 (I_start _ _ HI) Hv) as (e & He & _ & Hp).
    exists e. split; [done|]. lia.
  - destruct (decide (p ∈ vis c)) as [Hp|Hp].
    + destruct (I_vis_g _ _ HI p Hp) as [d Hd].
      pose proof (I_exact _ _ HI p d k Hp Hd Hw) as Hdk.
      destruct (I_relaxed _ _ HI p q d Hp Hpq ltac:(by intros []) Hd)
        as (d' & Hd' & Hle).
      destruct (I_open _ _ HI q d' Hd' Hv) as (e & He & _ & Hpe).
      exists e. split; [done|]. lia.
    + destruct (IH Hp) as (e & He & Hpe).
      exists e. split; [done|]. pose proof (h_step p q Hpq). lia.
Qed.

Lemma head_least (e : entry) rest e' :
  StronglySorted PriorityQueueFacts.by_priority (e :: rest) →
  e' ∈ e :: rest →
  PriorityQueue.priority e ≤ PriorityQueue.priority e'.
Proof.
  intros Hs Hin. apply StronglySorted_cons in Hs as [Hall _].
  apply elem_of_cons in Hin as [->|Hin]; [done|].
  rewrite Forall_forall in Hall. by apply Hall.
Qed.

(** The entry taken from the queue for a node not yet visited carries
    the cost of a shortest way to the node. *)
Lemma pop_exact c e rest :
  Inv settled c → pq c = e :: rest → PriorityQueue.element e ∉ vis c →
  ∃ d, g c !! PriorityQueue.element e = Some d
       ∧ PriorityQueue.priority e = d + h (PriorityQueue.element e)
       ∧ (∀ k, walk k (PriorityQueue.element e) → d ≤ Z.of_nat k)
       ∧ (∀ k, walk k end_ →
               d + h (PriorityQueue.element e) ≤ Z.of_nat k)
       ∧ (∀ k n, walk k n → n ∉ vis c →
                 d + h (PriorityQueue.element e) ≤ Z.of_nat k + h n).
Proof.
  intros HI Hpq Hv.
  pose proof (I_sorted _ _ HI) as Hs. rewrite Hpq in Hs.
  destruct (I_pq _ _ HI e) as (d & Hd & Hle); [rewrite Hpq; left|].
  destruct (I_open _ _ HI _ d Hd Hv) as (e' & He' & Hel & Hpe).
  rewrite Hpq in He'. pose proof (head_least _ _ _ Hs He') as Hmin.
  assert (∀ k n, walk k n → n ∉ vis c →
            PriorityQueue.priority e ≤ Z.of_nat k + h n) as Hfront.
  { intros k n Hw Hn.
    destruct (frontier c k n HI Hw Hn) as (e'' & He'' & Hpe'').
    rewrite Hpq in He''. pose proof (head_least _ _ _ Hs He''). lia. }
  exists d. split; [done|]. split; [lia|]. split; [|split].
  - intros k Hw. specialize (Hfront k _ Hw Hv). lia.
  - intros k Hw. specialize (Hfront k _ Hw (I_end _ _ HI)).
    rewrite h_end in Hfront. lia.
  - intros k n Hw Hn. specialize (Hfront k n Hw Hn). lia.
Qed.

Lemma elem_of_enqueue (e : entry) a p (l : list entry) :
  e ∈ PriorityQueue.enqueue a p l ↔ e ∈ l ∨ e = PriorityQueue.Entry a p.
Proof.
  unfold PriorityQueue.enqueue.
  rewrite PriorityQueueFacts.sort_Permutation, elem_of_app,
    list_elem_of_singleton.
  done.
Qed.

Lemma size_add (V : gset pos) u : u ∉ V → size (add V u) = S (size V).
Proof.
  intros Hu. unfold add. rewrite size_union, size_singleton; [done|].
  by apply disjoint_singleton_l.
Qed.

(** An entry of a visited node is dropped. *)
Lemma Inv_skip c e rest :
  Inv settled c → pq c = e :: rest → PriorityQueue.element e ∈ vis c →
  Inv settled (Core (g c) (prev c) (vis c) rest).
Proof.
  intros HI Hpq Hv. destruct HI.
  rewrite Hpq in *. split; simpl; try done.
  - by apply StronglySorted_cons in I_sorted0 as [_ ?].
  - intros n d Hd Hn.
    destruct (I_open0 n d Hd Hn) as (e' & He' & Hel & Hp).
    exists e'. split; [|done].
    apply elem_of_cons in He' as [->|He']; [|done].
    by rewrite Hel in Hv.
  - intros e' He'. apply I_pq0. by right.
Qed.

(** A node is taken from the queue and marked visited; its neighbours
    are still to be looked at. *)
Lemma Inv_visit c e rest :
  let u := PriorityQueue.element e in
  Inv settled c → pq c = e :: rest → u ∉ vis c → u ≠ end_ →
  Inv (pending u (getNeighbors (row u) (col u) rows cols))
      (Core (g c) (prev c) (add (vis c) u) rest).
Proof.
  intros u HI Hpq Hv Hend.
  destruct (pop_exact c e rest HI Hpq Hv)
    as (d & Hd & Hpe & Hex & Hbd & _). fold u in Hd, Hpe, Hex, Hbd.
  destruct HI. rewrite Hpq in *. split; simpl.
  - by apply StronglySorted_cons in I_sorted0 as [_ ?].
  - done.
  - done.
  - intros n [->|Hn]%elem_of_add; [by eexists|by apply I_vis_g0].
  - intros n dn k [->|Hn]%elem_of_add Hdn Hw.
    + rewrite Hd in Hdn. injection Hdn as <-. by apply Hex.
    + by eapply I_exact0.
  - intros n m dn [->|Hn]%elem_of_add [Hm Hw] HP Hdn.
    + destruct HP. by split.
    + eapply I_relaxed0; [done|by split|by intros []|done].
  - intros n dn Hdn Hn. rewrite elem_of_add in Hn.
    destruct (I_open0 n dn Hdn) as (e' & He' & Hel & Hp); [tauto|].
    exists e'. split; [|done].
    apply elem_of_cons in He' as [->|He']; [|done].
    destruct Hn. by left.
  - intros e' He'. apply I_pq0. by right.
  - intros n p Hp. destruct (I_prev0 n p Hp) as [Hpv Hg].
    split; [|done]. apply elem_of_add. by right.
  - done.
  - intros n dn k [->|Hn]%elem_of_add Hdn Hw.
    + rewrite Hd in Hdn. injection Hdn as <-. by apply Hbd.
    + by eapply I_bound0.
  - intros n dn Hdn. rewrite size_add by done.
    destruct (I_size0 n dn Hdn) as [Hle Hlt].
    split; [lia|]. intros [->|Hn]%elem_of_add; [lia|].
    specialize (Hlt Hn). lia.
  - intros n [->|Hn]%elem_of_add; [|by apply I_cells0].
    destruct (I_walk0 u d Hd) as [_ Hw]. by eapply walk_cells.
  - intros [?|?]%elem_of_add; [by subst|done].
Qed.

Lemma improves_true (x : Z) (old : option Z) :
  improves x old = true ↔ ∀ y, old = Some y → x < y.
Proof.
  destruct old as [y|]; simpl.
  - rewrite Z.ltb_lt. split; [by intros ? ? [= <-]|eauto].
  - split; [done|by intros].
Qed.

Lemma improves_false (x : Z) (old : option Z) :
  improves x old = false ↔ ∃ y, old = Some y ∧ y ≤ x.
Proof.
  destruct old as [y|]; simpl.
  - rewrite Z.ltb_ge. split; [eauto|by intros (? & [= <-] & ?)].
  - split; [done|by intros (? & ? & ?)].
Qed.

(** One neighbour of the visited node [u] is looked at. *)
Lemma Inv_relax_one c u d nb todo :
  Inv (pending u (nb :: todo)) c →
  u ∈ vis c → g c !! u = Some d →
  nb ∈ getNeighbors (row u) (col u) rows cols →
  Inv (pending u todo) (relax_one u d c nb).
Proof.
  intros HI Hu Hd Hnb.
  destruct (I_walk _ _ HI u d Hd) as [Hd0 Hwu].
  assert (nb ∉ walls → walk (S (Z.to_nat d)) nb) as Hwnb
    by (intros ?; by eapply walk_step).
  assert (∀ n m, ¬ pending u todo n m → ¬ (n = u ∧ m = nb) →
                 ¬ pending u (nb :: todo) n m) as Hpend.
  { intros n m H1 H2 [-> [->|Hin]%elem_of_cons]; [by apply H2|].
    by apply H1. }
  (* the cases in which nothing changes *)
  assert ((∃ d', g c !! nb = Some d' ∧ d' ≤ d + 1) →
          Inv (pending u todo) c) as Hsame.
  { intros Hle. destruct HI. split; try done.
    intros n m dn Hn Hm HP Hdn.
    destruct (decide (n = u ∧ m = nb)) as [[-> ->]|Hne].
    - rewrite Hd in Hdn. by injection Hdn as <-.
    - eapply I_relaxed0; eauto. }
  unfold relax_one.
  destruct (has walls nb) eqn:Hwall; simpl.
  { apply has_true in Hwall. destruct HI. split; try done.
    intros n m dn Hn Hm HP Hdn.
    eapply I_relaxed0; eauto. apply Hpend; [done|].
    intros [-> ->]. by destruct Hm. }
  apply has_false in Hwall. specialize (Hwnb Hwall).
  destruct (has (vis c) nb) eqn:Hvis; simpl.
  { apply has_true in Hvis. apply Hsame.
    destruct (I_vis_g _ _ HI nb Hvis) as [d' Hd'].
    exists d'. split; [done|].
    pose proof (I_exact _ _ HI nb d' _ Hvis Hd' Hwnb). lia. }
  apply has_false in Hvis.
  destruct (improves (d + 1) (g c !! nb)) eqn:Himp.
  2:{ apply improves_false in Himp. by apply Hsame. }
  rewrite improves_true in Himp.
  assert (u ≠ nb) as Hune by (by intros ->).
  assert (nb ≠ start) as Hns.
  { intros ->. specialize (Himp 0 (I_start _ _ HI)). lia. }
  destruct HI. split; simpl.
  - apply PriorityQueueFacts.sort_sorted.
  - by rewrite lookup_insert_ne.
  - intros n dn. rewrite lookup_insert. case_decide as Hn.
    + subst n. intros [= <-]. split; [lia|].
      by replace (Z.to_nat (d + 1)) with (S (Z.to_nat d)) by lia.
    + apply I_walk0.
  - intros n Hn. rewrite lookup_insert_ne by (by intros ->).
    by apply I_vis_g0.
  - intros n dn k Hn. rewrite lookup_insert_ne by (by intros ->).
    by apply I_exact0.
  - intros n m dn Hn Hm HP. rewrite lookup_insert_ne by (by intros ->).
    intros Hdn. rewrite lookup_insert. case_decide as Hmnb.
    + subst m. exists (d + 1). split; [done|].
      destruct (decide (n = u)) as [->|Hnu].
      * rewrite Hd in Hdn. injection Hdn as <-. lia.
      * destruct (I_relaxed0 n nb dn Hn Hm) as (d' & Hd' & Hle);
          [by intros [? _]|done|].
        specialize (Himp d' Hd'). lia.
    + eapply I_relaxed0; eauto. apply Hpend; [done|].
      by intros [_ ->].
  - intros n dn. rewrite lookup_insert. case_decide as Hn.
    + subst n. intros [= <-] _.
      exists (PriorityQueue.Entry nb (d + 1 + h nb)). split; [|done].
      apply elem_of_enqueue. by right.
    + intros Hdn Hnv.
      destruct (I_open0 n dn Hdn Hnv) as (e & He & Hel & Hp).
      exists e. split; [|done]. apply elem_of_enqueue. by left.
  - intros e [He| ->]%elem_of_enqueue.
    + destruct (I_pq0 e He) as (de & Hde & Hle).
      rewrite lookup_insert. case_decide as Hn; [|eauto].
      exists (d + 1). split; [done|]. rewrite <- Hn in Hde.
      specialize (Himp de Hde). lia.
    + simpl. rewrite lookup_insert_eq. eauto with lia.
  - intros n p. rewrite lookup_insert. case_decide as Hn.
    + subst n. intros [= <-]. split; [done|]. exists d.
      by rewrite lookup_insert_ne, lookup_insert_eq.
    + intros Hp. destruct (I_prev0 n p Hp) as [Hpv (dp & Hdp & Hdn)].
      split; [done|]. exists dp.
      rewrite !lookup_insert_ne; [done|done|by intros ->].
  - intros n dn. rewrite !lookup_insert. case_decide as Hn; [done|].
    apply I_prev_def0.
  - intros n dn k Hn. rewrite lookup_insert_ne by (by intros ->).
    by apply I_bound0.
  - intros n dn. rewrite lookup_insert. case_decide as Hn.
    + subst n. intros [= <-].
      destruct (I_size0 u d Hd) as [_ Hlt]. specialize (Hlt Hu).
      split; [lia|done].
    + apply I_size0.
  - done.
  - done.
Qed.

Lemma relax_one_vis u d c nb : vis (relax_one u d c nb) = vis c.
Proof. unfold relax_one. by repeat case_match. Qed.

Lemma relax_one_g_vis u d c nb n :
  n ∈ vis c → g (relax_one u d c nb) !! n = g c !! n.
Proof.
  intros Hn. unfold relax_one.
  destruct (has walls nb); simpl; [done|].
  destruct (has (vis c) nb) eqn:Hv; simpl; [done|].
  apply has_false in Hv. case_match; [|done]. simpl.
  apply lookup_insert_ne. by intros ->.
Qed.

Lemma relax_one_length u d c nb :
  (length (pq (relax_one u d c nb)) ≤ S (length (pq c)))%nat.
Proof.
  unfold relax_one. repeat case_match; simpl; try lia.
  unfold PriorityQueue.enqueue.
  rewrite PriorityQueueFacts.sort_Permutation, length_app. simpl. lia.
Qed.

Lemma relax_all_vis u d todo : ∀ c, vis (relax_all u d todo c) = vis c.
Proof.
  unfold relax_all. induction todo as [|nb todo IH]; intros c; simpl; [done|].
  by rewrite IH, relax_one_vis.
Qed.

Lemma relax_all_length u d todo : ∀ c,
  (length (pq (relax_all u d todo c)) ≤ length (pq c) + length todo)%nat.
Proof.
  unfold relax_all. induction todo as [|nb todo IH]; intros c; simpl; [lia|].
  specialize (IH (relax_one u d c nb)).
  pose proof (relax_one_length u d c nb). lia.
Qed.

(** The loop over the neighbours of the visited node [u]. *)
Lemma Inv_relax_all u d todo : ∀ c,
  Inv (pending u todo) c →
  u ∈ vis c → g c !! u = Some d →
  (∀ nb, nb ∈ todo → nb ∈ getNeighbors (row u) (col u) rows cols) →
  Inv settled (relax_all u d todo c).
Proof.
  unfold relax_all. induction todo as [|nb todo IH]; intros c HI Hu Hd Hin.
  - simpl. eapply Inv_weaken; [|exact HI].
    intros n m [_ H]. by apply elem_of_nil in H.
  - simpl. apply IH.
    + apply Inv_relax_one; [done..|]. apply Hin. by left.
    + by rewrite relax_one_vis.
    + by rewrite relax_one_g_vis.
    + intros nb' H. apply Hin. by right.
Qed.

(** Following the parent pointers from a node of cost [d] gives a path
    of [d + 1] nodes; fuel [d + 1] is enough. *)
Lemma reconstruct_spec P c : Inv P c → ∀ k t d acc,
  g c !! t = Some d → Z.to_nat d = k →
  ∃ path,
    (∀ pfuel, (k + 1 ≤ pfuel)%nat →
       reconstruct_loop pfuel (prev c) start t acc = Some path)
    ∧ length path = (k + 1 + length acc)%nat.
Proof.
  intros HI. induction k as [|k IH]; intros t d acc Hd Hk.
  - destruct (I_walk _ _ HI t d Hd) as [Hd0 _].
    assert (d = 0) as -> by lia.
    destruct (prev c !! t) as [p|] eqn:Hp.
    { destruct (I_prev _ _ HI t p Hp) as [_ (dp & Hdp & Hdt)].
      destruct (I_walk _ _ HI p dp Hdp) as [Hdp0 _].
      rewrite Hd in Hdt. injection Hdt as Hdt. lia. }
    exists (t :: acc). split; [|done].
    intros [|pfuel] Hf; [lia|]. simpl. by rewrite Hp.
  - destruct (I_walk _ _ HI t d Hd) as [Hd0 _].
    assert (t ≠ start) as Hts.
    { intros ->. rewrite (I_start _ _ HI) in Hd. injection Hd as <-. lia. }
    destruct (I_prev_def _ _ HI t d Hd Hts) as [p Hp].
    destruct (I_prev _ _ HI t p Hp) as [_ (dp & Hdp & Hdt)].
    rewrite Hd in Hdt. injection Hdt as ->.
    destruct (same_pos p start) eqn:Hps.
    + apply same_pos_true in Hps as ->.
      rewrite (I_start _ _ HI) in Hdp. injection Hdp as <-.
      exists (start :: t :: acc). split; [|simpl; lia].
      intros [|pfuel] Hf; [lia|]. simpl. rewrite Hp.
      assert (same_pos start start = true) as -> by by apply same_pos_true.
      done.
    + destruct (IH p dp (t :: acc) Hdp ltac:(lia)) as (path & Hrun & Hlen).
      exists path. split; [|simpl in Hlen; lia].
      intros [|pfuel] Hf; [lia|]. simpl. rewrite Hp, Hps.
      apply Hrun. lia.
Qed.

(** What decreases in every turn of the loop. *)
Definition measure (c : core) : nat :=
  (length (pq c) + 5 * size (cells rows cols start ∖ vis c))%nat.

(** What holds of the outcome. *)
Definition Post (o : outcome) : Prop :=
  match o with
  | NoPath V => ∀ k, ¬ walk k end_
  | Found path d V =>
      ∃ dz, d = Some dz ∧ 0 ≤ dz
        ∧ walk (Z.to_nat dz) end_
        ∧ (∀ k, walk k end_ → dz ≤ Z.of_nat k)
        ∧ length path = S (Z.to_nat dz)
        ∧ end_ ∈ V
        ∧ (∀ n, n ∈ V → ∃ k, walk k n ∧ Z.of_nat k + h n ≤ dz)
        ∧ (∀ k n, walk k n → Z.of_nat k + h n < dz → n ∈ V)
  end.

Lemma search_loop_spec n : ∀ c,
  Inv settled c → (measure c ≤ n)%nat →
  ∃ o,
    (∀ fuel pfuel,
       (n ≤ fuel)%nat → (size (cells rows cols start) ≤ pfuel)%nat →
       search_loop fuel pfuel c = Some o)
    ∧ Post o.
Proof.
  induction n as [|n IH]; intros c HI Hn; unfold measure in Hn.
  - destruct (pq c) as [|e rest] eqn:Hpq; [|simpl in Hn; lia].
    exists (NoPath (vis c)). split.
    + intros [|fuel] pfuel _ _; simpl; by rewrite Hpq.
    + intros k Hw.
      destruct (frontier c k end_ HI Hw (I_end _ _ HI)) as (e & He & _).
      rewrite Hpq in He. by apply elem_of_nil in He.
  - destruct (pq c) as [|e rest] eqn:Hpq.
    { exists (NoPath (vis c)). split.
      + intros [|fuel] pfuel _ _; simpl; by rewrite Hpq.
      + intros k Hw.
        destruct (frontier c k end_ HI Hw (I_end _ _ HI)) as (e & He & _).
        rewrite Hpq in He. by apply elem_of_nil in He. }
    set (u := PriorityQueue.element e).
    destruct (has (vis c) u) eqn:Hvis.
    { apply has_true in Hvis.
      destruct (IH (Core (g c) (prev c) (vis c) rest)) as (o & Hrun & Hpost).
      - by eapply Inv_skip.
      - unfold measure. simpl in *. lia.
      - exists o. split; [|done].
        intros [|fuel] pfuel Hf Hpf; [lia|]. simpl. rewrite Hpq.
        fold u. apply has_true in Hvis. rewrite Hvis. apply Hrun; [lia|done]. }
    pose proof Hvis as Hvis'. apply has_false in Hvis.
    destruct (pop_exact c e rest HI Hpq Hvis)
      as (d & Hd & Hpe & Hex & Hbd & Hfr).
    fold u in Hd, Hpe, Hex, Hbd, Hfr.
    destruct (I_walk _ _ HI u d Hd) as [Hd0 Hwu].
    pose proof (walk_cells _ _ Hwu) as HuC.
    destruct (same_pos u end_) eqn:Hue.
    + apply same_pos_true in Hue as Hue'.
      destruct (reconstruct_spec _ c HI (Z.to_nat d) end_ d [])
        as (path & Hpath & Hlen); [by rewrite <- Hue'|done|].
      exists (Found path (g c !! u) (add (vis c) u)). split.
      * intros [|fuel] pfuel Hf Hpf; [lia|]. simpl. rewrite Hpq.
        fold u. rewrite Hvis', Hue. unfold reconstructPath.
        rewrite Hpath; [done|].
        destruct (I_size _ _ HI u d Hd) as [Hle _].
        pose proof (size_add (vis c) u Hvis) as Hsz.
        assert (add (vis c) u ⊆ cells rows cols start) as Hsub.
        { intros x [->|Hx]%elem_of_add; [done|by apply (I_cells _ _ HI)]. }
        apply subseteq_size in Hsub. lia.
      * simpl. exists d. rewrite Hd. subst u. rewrite Hue' in *.
        split_and!; try done.
        -- simpl in Hlen. lia.
        -- apply elem_of_add. by left.
        -- intros x [->|Hx]%elem_of_add.
           ++ exists (Z.to_nat d). split; [done|]. rewrite h_end. lia.
           ++ destruct (I_vis_g _ _ HI x Hx) as [dx Hdx].
              destruct (I_walk _ _ HI x dx Hdx) as [Hdx0 Hwx].
              exists (Z.to_nat dx). split; [done|].
              pose proof (I_bound _ _ HI x dx _ Hx Hdx Hwu). lia.
        -- intros k x Hw Hlt. apply elem_of_add.
           destruct (decide (x ∈ vis c)) as [?|Hx]; [by right|].
           specialize (Hfr k x Hw Hx). rewrite h_end in Hfr. lia.
    + apply same_pos_false in Hue as Hue'.
      set (c1 := Core (g c) (prev c) (add (vis c) u) rest).
      set (c2 := relax_all u d (getNeighbors (row u) (col u) rows cols) c1).
      destruct (IH c2) as (o & Hrun & Hpost).
      * apply Inv_relax_all; [by apply Inv_visit| |done|done].
        apply elem_of_add. by left.
      * unfold measure, c2. rewrite relax_all_vis.
        pose proof (relax_all_length u d
                      (getNeighbors (row u) (col u) rows cols) c1) as Hl.
        pose proof (getNeighbors_length (row u) (col u) rows cols).
        pose proof (size_unvisited_add (cells rows cols start) (vis c) u
                      HuC Hvis).
        simpl in *. lia.
      * exists o. split; [|done].
        intros [|fuel] pfuel Hf Hpf; [lia|]. simpl. rewrite Hpq.
        fold u. rewrite Hvis', Hue, Hd. apply Hrun; [lia|done].
Qed.

(** The state before the loop. *)
Definition initial : core :=
  Core (<[start := 0]> ∅) ∅ ∅ [PriorityQueue.Entry start (h start)].

Lemma Inv_initial : Inv settled initial.
Proof.
  split; simpl; try done.
  - repeat constructor.
  - by rewrite lookup_insert_eq.
  - intros n d [<- <-]%lookup_singleton_Some. split; [done|]. apply walk_start.
  - intros n d [<- <-]%lookup_singleton_Some _.
    eexists. split; [by left|done].
  - intros e ->%list_elem_of_singleton. simpl.
    exists 0. rewrite lookup_insert_eq. split; [done|lia].
  - by intros n d [<- <-]%lookup_singleton_Some.
  - intros n d [<- <-]%lookup_singleton_Some. split; [lia|done].
Qed.

Lemma measure_initial : (measure initial ≤ grid_fuel rows cols)%nat.
Proof.
  unfold measure, grid_fuel. simpl.
  pose proof (size_cells rows cols start).
  assert (cells rows cols start ∖ ∅ ⊆ cells rows cols start) as Hsub
    by apply subseteq_difference_l, reflexivity.
  apply subseteq_size in Hsub. lia.
Qed.

Lemma search_spec :
  ∃ o,
    (∀ fuel, (grid_fuel rows cols ≤ fuel)%nat →
       search_loop fuel fuel initial = Some o)
    ∧ Post o.
Proof.
  destruct (search_loop_spec (grid_fuel rows cols) initial Inv_initial
              measure_initial) as (o & Hrun & Hpost).
  exists o. split; [|done]. intros fuel Hf. apply Hrun; [done|].
  pose proof (size_cells rows cols start). unfold grid_fuel in Hf. lia.
Qed.

End Search.

(** *** The two generators run the shared loop *)

Definition zero_h : pos → Z := λ _, 0.

Definition manhattan_h (end_ : pos) : pos → Z :=
  λ p, manhattanDistance p end_.

Definition final_step (o : outcome) : step :=
  match o with
  | NoPath V =>
      Step "no-path" None None None None None None None None None None
           (Some V)
  | Found path d V =>
      Step "path-found" None None None None (Some path) d None None None
           None (Some V)
  end.

(** The steps of the loop before the last one. *)
Definition emitted (s : step) : Prop :=
  type s = "visit" ∨ type s = "update".

(** The steps a run ends with: steps of the loop, then the one of the
    outcome. *)
Definition run_of (o : outcome) (steps : list step)
    (r : option (list step)) : Prop :=
  ∃ ext, r = Some (steps ++ ext ++ [final_step o]) ∧ Forall emitted ext.

Lemma manhattan_step rows cols walls end_ p q :
  edge rows cols walls p q →
  manhattan_h end_ p ≤ 1 + manhattan_h end_ q.
Proof.
  intros [Hq _]. unfold getNeighbors, directions in Hq.
  apply list_elem_of_In, filter_In in Hq as [Hq _]. simpl in Hq.
  unfold manhattan_h, manhattanDistance, row, col in *.
  destruct Hq as [<-|[<-|[<-|[<-|[]]]]]; simpl; lia.
Qed.

Lemma manhattan_zero end_ p : manhattan_h end_ p = 0 → p = end_.
Proof.
  unfold manhattan_h, manhattanDistance, row, col.
  destruct p as [r c], end_ as [r' c']. simpl. intros H.
  f_equal; lia.
Qed.

Section Simulation.
Variables (rows cols : Z) (start end_ : pos) (walls : gset pos).

Lemma relax_all_cons h u d nb ns c :
  relax_all walls h u d (nb :: ns) c
  = relax_all walls h u d ns (relax_one walls h u d c nb).
Proof. done. Qed.

Lemma aStar_neighbors_relax u d ns : ∀ c fS steps,
  ∃ fS' ext,
    aStar_neighbors walls (vis c) end_ u d ns (g c) fS (prev c) (pq c) steps
    = (g (relax_all walls (manhattan_h end_) u d ns c), fS',
       prev (relax_all walls (manhattan_h end_) u d ns c),
       pq (relax_all walls (manhattan_h end_) u d ns c), steps ++ ext)
    ∧ Forall emitted ext.
Proof.
  induction ns as [|nb ns IH]; intros c fS steps.
  - exists fS, []. by rewrite app_nil_r.
  - rewrite relax_all_cons. cbn [aStar_neighbors]. unfold relax_one.
    destruct (has walls nb || has (vis c) nb); [apply IH|].
    destruct (improves (d + 1) (g c !! nb)); [|apply IH].
    edestruct (IH (Core (<[nb:=d + 1]> (g c)) (<[nb:=u]> (prev c)) (vis c)
                        (PriorityQueue.enqueue nb
                           (d + 1 + manhattan_h end_ nb) (pq c))))
      as (fS' & ext & Heq & Hext).
    simpl in Heq. unfold manhattan_h in Heq at 1. rewrite Heq.
    eexists fS', (_ :: ext). unfold push. rewrite <- app_assoc.
    split; [done|]. constructor; [by right|done].
Qed.

Lemma dijkstra_neighbors_relax u d ns : ∀ c steps,
  ∃ ext,
    dijkstra_neighbors walls (vis c) u d ns (g c) (prev c) (pq c) steps
    = (g (relax_all walls zero_h u d ns c),
       prev (relax_all walls zero_h u d ns c),
       pq (relax_all walls zero_h u d ns c), steps ++ ext)
    ∧ Forall emitted ext.
Proof.
  induction ns as [|nb ns IH]; intros c steps.
  - exists []. by rewrite app_nil_r.
  - rewrite relax_all_cons. cbn [dijkstra_neighbors]. unfold relax_one.
    destruct (has walls nb || has (vis c) nb); [apply IH|].
    destruct (improves (d + 1) (g c !! nb)); [|apply IH].
    edestruct (IH (Core (<[nb:=d + 1]> (g c)) (<[nb:=u]> (prev c)) (vis c)
                        (PriorityQueue.enqueue nb (d + 1 + zero_h nb) (pq c))))
      as (ext & Heq & Hext).
    simpl in Heq. unfold zero_h in Heq at 1. rewrite Z.add_0_r in Heq.
    rewrite Heq.
    eexists (_ :: ext). unfold push. rewrite <- app_assoc.
    split; [done|]. constructor; [by right|done].
Qed.

Lemma run_of_cons o steps s ext r :
  emitted s → run_of o (push steps s ++ ext) r → Forall emitted ext →
  run_of o steps r.
Proof.
  intros Hs (ext' & -> & Hext') Hext.
  exists (s :: ext ++ ext'). split.
  - f_equal. unfold push. rewrite <- !app_assoc. simpl.
    by rewrite <- app_assoc.
  - constructor; [done|]. by apply Forall_app.
Qed.

(** [aStar_loop] is the shared loop with the Manhattan distance. *)
Lemma aStar_loop_search fuel pfuel : ∀ c fS steps,
  match search_loop rows cols start end_ walls (manhattan_h end_)
                    fuel pfuel c with
  | None =>
      aStar_loop fuel pfuel rows cols start end_ walls
                 (g c) fS (prev c) (vis c) (pq c) steps = None
  | Some o =>
      run_of o steps
        (aStar_loop fuel pfuel rows cols start end_ walls
                    (g c) fS (prev c) (vis c) (pq c) steps)
  end.
Proof.
  induction fuel as [|fuel IH]; intros c fS steps.
  - simpl. destruct (pq c); simpl; [|done].
    exists []. by split.
  - simpl. destruct (pq c) as [|e rest]; simpl.
    { exists []. by split. }
    destruct (has (vis c) (PriorityQueue.element e)).
    { apply (IH (Core (g c) (prev c) (vis c) rest)). }
    destruct (same_pos (PriorityQueue.element e) end_).
    { destruct (reconstructPath pfuel (prev c) start end_); [|done].
      eexists [_]. unfold push. rewrite <- app_assoc. split; [done|].
      constructor; [by left|done]. }
    destruct (g c !! PriorityQueue.element e) as [d|] eqn:Hd; simpl.
    + edestruct (aStar_neighbors_relax (PriorityQueue.element e) d
                   (getNeighbors (row (PriorityQueue.element e))
                                 (col (PriorityQueue.element e)) rows cols)
                   (Core (g c) (prev c)
                         (add (vis c) (PriorityQueue.element e)) rest) fS)
        as (fS' & ext & Heq & Hext).
      simpl in Heq. rewrite Heq. clear Heq.
      match goal with
      | |- context [search_loop _ _ _ _ _ _ _ _ ?c2] =>
          specialize (IH c2 fS') end.
      rewrite relax_all_vis in IH. simpl in IH.
      match goal with
      | |- context [aStar_loop _ _ _ _ _ _ _ _ _ _ _ _ ?st] =>
          specialize (IH st) end.
      destruct (search_loop _ _ _ _ _ _ _ _ _) as [o|]; [|done].
      eapply run_of_cons; [|exact IH|done]. by left.
    + match goal with
      | |- context [search_loop _ _ _ _ _ _ _ _ ?c2] =>
          specialize (IH c2 fS) end.
      simpl in IH.
      match goal with
      | |- context [aStar_loop _ _ _ _ _ _ _ _ _ _ _ _ ?st] =>
          specialize (IH st) end.
      destruct (search_loop _ _ _ _ _ _ _ _ _) as [o|]; [|done].
      eapply (run_of_cons _ _ _ []); [|rewrite app_nil_r; exact IH|done].
      by left.
Qed.

Lemma zero_step p q : edge rows cols walls p q → zero_h p ≤ 1 + zero_h q.
Proof. intros _. unfold zero_h. lia. Qed.

Lemma zero_end : zero_h end_ = 0.
Proof. done. Qed.

Lemma manhattan_end : manhattan_h end_ end_ = 0.
Proof. unfold manhattan_h, manhattanDistance. lia. Qed.

(** [dijkstra_loop] is the shared loop with no heuristic: the priority
    it takes from the queue is the cost of the node. *)
Lemma dijkstra_loop_search fuel pfuel : ∀ c steps,
  Inv rows cols start end_ walls zero_h settled c →
  match search_loop rows cols start end_ walls zero_h fuel pfuel c with
  | None =>
      dijkstra_loop fuel pfuel rows cols start end_ walls
                    (g c) (prev c) (vis c) (pq c) steps = None
  | Some o =>
      run_of o steps
        (dijkstra_loop fuel pfuel rows cols start end_ walls
                       (g c) (prev c) (vis c) (pq c) steps)
  end.
Proof.
  induction fuel as [|fuel IH]; intros c steps HI.
  - simpl. destruct (pq c); simpl; [|done].
    exists []. by split.
  - simpl. destruct (pq c) as [|e rest] eqn:Hpq; simpl.
    { exists []. by split. }
    destruct (has (vis c) (PriorityQueue.element e)) eqn:Hvis.
    { apply has_true in Hvis.
      apply (IH (Core (g c) (prev c) (vis c) rest)).
      by eapply Inv_skip. }
    apply has_false in Hvis.
    destruct (pop_exact rows cols start end_ walls zero_h zero_step zero_end
                c e rest HI Hpq Hvis) as (d & Hd & Hpe & _).
    unfold zero_h in Hpe at 1. rewrite Z.add_0_r in Hpe.
    rewrite Hd, Hpe.
    destruct (same_pos (PriorityQueue.element e) end_) eqn:Hend.
    { destruct (reconstructPath pfuel (prev c) start end_); [|done].
      eexists [_]. unfold push. rewrite <- app_assoc. split; [done|].
      constructor; [by left|done]. }
    apply same_pos_false in Hend.
    edestruct (dijkstra_neighbors_relax (PriorityQueue.element e) d
                 (getNeighbors (row (PriorityQueue.element e))
                               (col (PriorityQueue.element e)) rows cols)
                 (Core (g c) (prev c)
                       (add (vis c) (PriorityQueue.element e)) rest))
      as (ext & Heq & Hext).
    simpl in Heq. rewrite Heq. clear Heq.
    match goal with
    | |- context [search_loop _ _ _ _ _ _ _ _ ?c2] =>
        specialize (IH c2) end.
    rewrite relax_all_vis in IH. simpl in IH.
    match goal with
    | |- context [dijkstra_loop _ _ _ _ _ _ _ _ _ _ _ ?st] =>
        specialize (IH st) end.
    assert (Inv rows cols start end_ walls zero_h settled
              (relax_all walls zero_h (PriorityQueue.element e) d
                 (getNeighbors (row (PriorityQueue.element e))
                               (col (PriorityQueue.element e)) rows cols)
                 (Core (g c) (prev c)
                       (add (vis c) (PriorityQueue.element e)) rest)))
      as HI'.
    { apply Inv_relax_all; [|by apply elem_of_add; left|done|done].
      by apply Inv_visit; [apply zero_step|apply zero_end|..]. }
    specialize (IH HI').
    destruct (search_loop _ _ _ _ _ _ _ _ _) as [o|]; [|done].
    eapply run_of_cons; [|exact IH|done]. by left.
Qed.

End Simulation.

(** *** More fuel does not change a result *)

Lemma reconstruct_loop_mono pfuel : ∀ pfuel' parentMap start current path r,
  (pfuel ≤ pfuel')%nat →
  reconstruct_loop pfuel parentMap start current path = Some r →
  reconstruct_loop pfuel' parentMap start current path = Some r.
Proof.
  induction pfuel as [|pfuel IH];
    intros pfuel' parentMap start current path r Hle; [done|].
  destruct pfuel' as [|pfuel']; [lia|]. simpl.
  destruct (parentMap !! current); [|done].
  destruct (same_pos _ _); [done|]. apply IH. lia.
Qed.

Lemma dijkstra_loop_mono fuel :
  ∀ fuel' pfuel pfuel' rows cols start end_ walls gS prv V open steps r,
  (fuel ≤ fuel')%nat → (pfuel ≤ pfuel')%nat →
  dijkstra_loop fuel pfuel rows cols start end_ walls gS prv V open steps
  = Some r →
  dijkstra_loop fuel' pfuel' rows cols start end_ walls gS prv V open steps
  = Some r.
Proof.
  induction fuel as [|fuel IH];
    intros fuel' pfuel pfuel' rows cols start end_ walls gS prv V open
           steps r Hf Hp.
  - destruct fuel'; simpl; by destruct open.
  - destruct fuel' as [|fuel']; [lia|]. simpl.
    destruct open as [|e rest]; simpl; [done|].
    destruct (has V (PriorityQueue.element e)); [apply IH; lia|].
    destruct (same_pos (PriorityQueue.element e) end_).
    + unfold reconstructPath.
      destruct (reconstruct_loop pfuel _ _ _ _) as [path|] eqn:E; [|done].
      by rewrite (reconstruct_loop_mono _ pfuel' _ _ _ _ _ Hp E).
    + destruct (dijkstra_neighbors _ _ _ _ _ _ _ _ _) as [[[? ?] ?] ?].
      apply IH; lia.
Qed.

Lemma aStar_loop_mono fuel :
  ∀ fuel' pfuel pfuel' rows cols start end_ walls gS fS prv V open steps r,
  (fuel ≤ fuel')%nat → (pfuel ≤ pfuel')%nat →
  aStar_loop fuel pfuel rows cols start end_ walls gS fS prv V open steps
  = Some r →
  aStar_loop fuel' pfuel' rows cols start end_ walls gS fS prv V open steps
  = Some r.
Proof.
  induction fuel as [|fuel IH];
    intros fuel' pfuel pfuel' rows cols start end_ walls gS fS prv V open
           steps r Hf Hp.
  - destruct fuel'; simpl; by destruct open.
  - destruct fuel' as [|fuel']; [lia|]. simpl.
    destruct open as [|e rest]; simpl; [done|].
    destruct (has V (PriorityQueue.element e)); [apply IH; lia|].
    destruct (same_pos (PriorityQueue.element e) end_).
    + unfold reconstructPath.
      destruct (reconstruct_loop pfuel _ _ _ _) as [path|] eqn:E; [|done].
      by rewrite (reconstruct_loop_mono _ pfuel' _ _ _ _ _ Hp E).
    + destruct (gS !! PriorityQueue.element e).
      * destruct (aStar_neighbors _ _ _ _ _ _ _ _ _ _ _)
          as [[[[? ?] ?] ?] ?].
        apply IH; lia.
      * apply IH; lia.
Qed.

(** *** The runs of the two generators *)

Definition dijkstra_init (start end_ : pos) : step :=
  Step "init" (Some start) (Some end_) None None None None None None
       None None None.

Definition aStar_init (start end_ : pos) : step :=
  Step "init" (Some start) (Some end_) None None None None
       (Some (manhattanDistance start end_)) None None None None.

Lemma dijkstra_spec rows cols start end_ walls :
  ∃ o ext,
    (∀ fuel, (grid_fuel rows cols ≤ fuel)%nat →
       dijkstra fuel rows cols start end_ walls
       = Some (dijkstra_init start end_ :: ext ++ [final_step o]))
    ∧ Forall emitted ext
    ∧ Post rows cols start end_ walls zero_h o.
Proof.
  destruct (search_spec rows cols start end_ walls zero_h
              (zero_step rows cols walls) (zero_end end_))
    as (o & Hrun & Hpost).
  pose proof (dijkstra_loop_search rows cols start end_ walls
                (grid_fuel rows cols) (grid_fuel rows cols)
                (initial start zero_h) [dijkstra_init start end_]
                (Inv_initial rows cols start end_ walls zero_h)) as Hsim.
  rewrite Hrun in Hsim by done. destruct Hsim as (ext & Heq & Hext).
  exists o, ext. split; [|done].
  intros fuel Hf. unfold dijkstra.
  by apply (dijkstra_loop_mono (grid_fuel rows cols) fuel
              (grid_fuel rows cols) fuel).
Qed.

Lemma aStar_spec rows cols start end_ walls :
  ∃ o ext,
    (∀ fuel, (grid_fuel rows cols ≤ fuel)%nat →
       aStar fuel rows cols start end_ walls
       = Some (aStar_init start end_ :: ext ++ [final_step o]))
    ∧ Forall emitted ext
    ∧ Post rows cols start end_ walls (manhattan_h end_) o.
Proof.
  destruct (search_spec rows cols start end_ walls (manhattan_h end_)
              (manhattan_step rows cols walls end_) (manhattan_end end_))
    as (o & Hrun & Hpost).
  pose proof (aStar_loop_search rows cols start end_ walls
                (grid_fuel rows cols) (grid_fuel rows cols)
                (initial start (manhattan_h end_))
                (<[start := manhattanDistance start end_]> ∅)
                [aStar_init start end_]) as Hsim.
  rewrite Hrun in Hsim by done. destruct Hsim as (ext & Heq & Hext).
  exists o, ext. split; [|done].
  intros fuel Hf. unfold aStar.
  by apply (aStar_loop_mono (grid_fuel rows cols) fuel
              (grid_fuel rows cols) fuel).
Qed.

Lemma manhattan_pos end_ p : p ≠ end_ → 1 ≤ manhattan_h end_ p.
Proof.
  intros Hne.
  destruct (decide (manhattan_h end_ p = 0)) as [H0|H0];
    [by apply manhattan_zero in H0|].
  unfold manhattan_h, manhattanDistance in *. lia.
Qed.

(** C2. For every grid configuration in which the end can be reached
    from the start (by moves to neighbours inside the grid that are not
    walls), both [dijkstra] and [aStar] end with a [path-found] step; the
    two steps report the same distance and paths of the same length, and
    the visited set of [aStar]'s step is not larger than that of
    [dijkstra]'s (it is a subset of it). *)
Theorem C2_dijkstra_aStar_agree rows cols start end_ walls :
  (∃ k, walk rows cols start walls k end_) →
  ∃ stepsD stepsA sD sA pD pA VD VA,
    (∀ fuel, (grid_fuel rows cols ≤ fuel)%nat →
       dijkstra fuel rows cols start end_ walls = Some stepsD)
    ∧ (∀ fuel, (grid_fuel rows cols ≤ fuel)%nat →
         aStar fuel rows cols start end_ walls = Some stepsA)
    ∧ last stepsD = Some sD ∧ type sD = "path-found"
    ∧ last stepsA = Some sA ∧ type sA = "path-found"
    ∧ is_Some (distance sD) ∧ distance sD = distance sA
    ∧ path sD = Some pD ∧ path sA = Some pA ∧ length pD = length pA
    ∧ visited sD = Some VD ∧ visited sA = Some VA
    ∧ VA ⊆ VD ∧ (size VA ≤ size VD)%nat.
Proof.
  intros [k Hk].
  destruct (dijkstra_spec rows cols start end_ walls)
    as (oD & extD & HrunD & _ & HpostD).
  destruct (aStar_spec rows cols start end_ walls)
    as (oA & extA & HrunA & _ & HpostA).
  destruct oD as [VD|pD dD VD]; [by destruct (HpostD k)|].
  destruct oA as [VA|pA dA VA]; [by destruct (HpostA k)|].
  destruct HpostD as (dzD & -> & HD0 & HwD & HminD & HlenD & HendD & _ & HsupD).
  destruct HpostA as (dzA & -> & HA0 & HwA & HminA & HlenA & _ & HsubA & _).
  assert (dzD = dzA) as ->.
  { specialize (HminD _ HwA). specialize (HminA _ HwD). lia. }
  assert (VA ⊆ VD) as Hsub.
  { intros n Hn. destruct (decide (n = end_)) as [->|Hne]; [done|].
    destruct (HsubA n Hn) as (kn & Hwn & Hle).
    pose proof (manhattan_pos end_ n Hne).
    apply (HsupD kn n Hwn). unfold zero_h. lia. }
  eexists _, _, _, _, pD, pA, VD, VA.
  split; [exact HrunD|]. split; [exact HrunA|].
  rewrite !app_comm_cons, !last_snoc. simpl.
  split_and!; try done.
  - lia.
  - by apply subseteq_size.
Qed.

Lemma C2_witness :
  ∃ stepsD stepsA,
    dijkstra 36 2 3 (0, 0) (1, 2) {[(0, 1)]} = Some stepsD
    ∧ aStar 36 2 3 (0, 0) (1, 2) {[(0, 1)]} = Some stepsA
    ∧ (distance <$> last stepsD) = (distance <$> last stepsA).
Proof.
  destruct (C2_dijkstra_aStar_agree 2 3 (0, 0) (1, 2) {[(0, 1)]})
    as (stepsD & stepsA & sD & sA & pD & pA & VD & VA
        & HD & HA & HlD & _ & HlA & _ & _ & Hd & _).
  { assert (∀ p q, In q (getNeighbors (row p) (col p) 2 3) →
                     q ≠ (0, 1) → edge 2 3 {[(0, 1)]} p q) as Hedge.
    { intros p q Hq Hw. split; [by apply list_elem_of_In|].
      by intros ?%elem_of_singleton. }
    exists 3%nat.
    apply (walk_step _ _ _ _ 2 (1, 1));
      [|apply Hedge; [vm_compute; tauto|done]].
    apply (walk_step _ _ _ _ 1 (1, 0));
      [|apply Hedge; [vm_compute; tauto|done]].
    apply (walk_step _ _ _ _ 0 (0, 0));
      [|apply Hedge; [vm_compute; tauto|done]].
    apply walk_start. }
  exists stepsD, stepsA.
  split; [apply HD; vm_compute; lia|].
  split; [apply HA; vm_compute; lia|].
  rewrite HlD, HlA. simpl. by rewrite Hd.
Defined.



End PathfindingFacts.

(** ** The frame of the steps of the sorts *)

Module SortingShape.
Import Sorting Shape.

Local Open Scope nat_scope.

Local Abbreviation extends := (Shape.extends type).

(** [extends steps (((steps ++ [a]) ++ [b]) ...)] for inner steps. *)
Local Ltac pushed :=
  repeat first
    [ apply extends_refl
    | eapply extends_trans; [|apply extends_push; by compute_done] ].

(** The same, followed by steps for which [H] gives [extends]. *)
Local Ltac pushed_then H :=
  eapply extends_trans; [|exact H]; pushed.

Lemma bubble_inner_extends todo : ∀ n i j array swapped steps,
  extends steps (bubble_inner todo n i j array swapped steps).2.
Proof.
  induction todo as [|todo IH]; intros n i j array swapped steps; simpl.
  - apply extends_refl.
  - destruct (gt _ _); unfold push;
      (eapply extends_trans; [|apply IH]); pushed.
Qed.

Lemma bubble_outer_extends todo : ∀ n i array steps,
  extends steps (bubble_outer todo n i array steps).2.
Proof.
  induction todo as [|todo IH]; intros n i array steps; simpl.
  - apply extends_refl.
  - pose proof (bubble_inner_extends (n - i - 1) n i 0 array false
        (push steps (Step "pass" array None
           (Some (array_from (n - i) (λ idx, n - 1 - idx))) None None None)))
      as Hin.
    destruct (bubble_inner _ _ _ _ _ _ _) as [[array' swapped] steps'].
    simpl in Hin. unfold push in *.
    assert (extends steps steps') as Hin' by (pushed_then Hin).
    destruct swapped; simpl.
    + eapply extends_trans; [exact Hin'|apply IH].
    + eapply extends_trans; [exact Hin'|]. pushed.
Qed.

Lemma insertion_inner_extends j1 : ∀ i key array steps,
  extends steps (insertion_inner j1 i key array steps).2.
Proof.
  induction j1 as [|j IH]; intros i key array steps; simpl.
  - apply extends_refl.
  - destruct (gt _ _); simpl; [|apply extends_refl].
    unfold push. eapply extends_trans; [|apply IH]. pushed.
Qed.

Lemma insertion_outer_extends todo : ∀ i array steps,
  extends steps (insertion_outer todo i array steps).2.
Proof.
  induction todo as [|todo IH]; intros i array steps; simpl.
  - apply extends_refl.
  - pose proof (insertion_inner_extends i i (array !! i) array
        (push steps (Step "select" array (Some [i])
           (Some (array_from i (λ idx, idx))) None None None))) as Hin.
    destruct (insertion_inner _ _ _ _ _) as [[j1 array'] steps'].
    simpl in Hin. unfold push in *.
    assert (extends steps steps') as Hin' by (pushed_then Hin).
    eapply extends_trans; [exact Hin'|].
    eapply extends_trans; [|apply IH]. pushed.
Qed.

Lemma merge_both_extends fuel : ∀ L R left mid i j k array steps r,
  merge_both fuel L R left mid i j k array steps = Some r →
  extends steps r.2.
Proof.
  induction fuel as [|fuel IH]; intros L R left mid i j k array steps r;
    simpl.
  - destruct (_ && _); [done|]. intros [= <-]. apply extends_refl.
  - destruct (_ && _); [|intros [= <-]; apply extends_refl].
    destruct (le _ _); unfold push; intros H; apply IH in H;
      pushed_then H.
Qed.

Lemma merge_rest_extends todo : ∀ src i k array steps,
  extends steps (merge_rest todo src i k array steps).2.
Proof.
  induction todo as [|todo IH]; intros src i k array steps; simpl.
  - apply extends_refl.
  - unfold push. eapply extends_trans; [|apply IH]. pushed.
Qed.

Lemma merge_extends left mid right depth array steps r :
  merge left mid right depth array steps = Some r → extends steps r.2.
Proof.
  unfold merge.
  destruct (merge_both _ _ _ _ _ _ _ _ _ _) as [[[[[i j] k] a1] s1]|] eqn:E;
    [|done].
  apply merge_both_extends in E. simpl in E.
  pose proof (merge_rest_extends
    (length (slice array left (mid + 1)) - i)
    (slice array left (mid + 1)) i k a1 s1) as H2.
  destruct (merge_rest _ _ _ _ _ _) as [[k2 a2] s2]. simpl in H2.
  pose proof (merge_rest_extends
    (length (slice array (mid + 1) (right + 1)) - j)
    (slice array (mid + 1) (right + 1)) j k2 a2 s2) as H3.
  destruct (merge_rest _ _ _ _ _ _) as [[k3 a3] s3]. simpl in H3.
  intros [= <-]. simpl. unfold push in *.
  assert (extends steps s1) as E' by (pushed_then E).
  eapply extends_trans; [exact E'|]. eapply extends_trans; [exact H2|].
  eapply extends_trans; [exact H3|]. pushed.
Qed.

Lemma mergeSortHelper_extends fuel : ∀ left right depth array steps r,
  mergeSortHelper fuel left right depth array steps = Some r →
  extends steps r.2.
Proof.
  induction fuel as [|fuel IH]; intros left right depth array steps r; simpl.
  - destruct (right <=? left); [|done]. intros [= <-]. apply extends_refl.
  - destruct (right <=? left); [intros [= <-]; apply extends_refl|].
    destruct (mergeSortHelper fuel left _ _ _ _) as [[a1 s1]|] eqn:E1;
      [|done].
    destruct (mergeSortHelper fuel _ right _ _ _) as [[a2 s2]|] eqn:E2;
      [|done].
    apply IH in E1, E2. simpl in E1, E2. intros Hm.
    apply merge_extends in Hm. unfold push in *.
    assert (extends steps s1) as E1' by (pushed_then E1).
    eapply extends_trans; [exact E1'|]. by eapply extends_trans.
Qed.

Lemma bubbleSort_framed arr :
  framed ["complete"] terminals (type <$> bubbleSort arr).
Proof.
  unfold bubbleSort.
  pose proof (bubble_outer_extends (length arr - 1) (length arr) 0 arr
    (push [] (Step "init" arr None None None None None))) as H.
  destruct (bubble_outer _ _ _ _ _) as [array steps]. simpl in H.
  unfold push. eapply framed_extends; [|exact H|]; [done|by left].
Qed.

Lemma insertionSort_framed arr :
  framed ["complete"] terminals (type <$> insertionSort arr).
Proof.
  unfold insertionSort.
  pose proof (insertion_outer_extends (length arr - 1) 1 arr
    (push [] (Step "init" arr None None None None None))) as H.
  destruct (insertion_outer _ _ _ _) as [array steps]. simpl in H.
  unfold push. eapply framed_extends; [|exact H|]; [done|by left].
Qed.

Lemma mergeSort_framed fuel arr steps :
  mergeSort fuel arr = Some steps →
  framed ["complete"] terminals (type <$> steps).
Proof.
  unfold mergeSort.
  destruct (mergeSortHelper _ _ _ _ _ _) as [[array steps']|] eqn:E; [|done].
  apply mergeSortHelper_extends in E. simpl in E. intros [= <-].
  unfold push. eapply framed_extends; [|exact E|]; [done|by left].
Qed.

End SortingShape.

(** ** The frame of the steps of the tree traversals *)

Module RecursionShape.
Import Recursion Shape.

Local Abbreviation extends := (Shape.extends type).

(** [extends steps (((steps ++ [a]) ++ [b]) ...)] for inner steps. *)
Local Ltac pushed :=
  repeat first
    [ apply extends_refl
    | eapply extends_trans; [|apply extends_push; by compute_done] ].

(** The same, followed by steps for which [H] gives [extends]. *)
Local Ltac pushed_then H :=
  eapply extends_trans; [|exact H]; pushed.

Lemma preorder_extends n : ∀ depth callStack steps,
  extends steps (preorder_traverse n depth callStack steps).2.
Proof.
  induction n as [|id value l IHl r IHr]; intros depth callStack steps;
    simpl; unfold push.
  - pushed.
  - match goal with |- context [preorder_traverse l ?d ?c ?s] =>
      pose proof (IHl d c s) as Hl;
      destruct (preorder_traverse l d c s) as [c1 s1] end.
    simpl in Hl. assert (extends steps s1) as Hl' by (pushed_then Hl).
    match goal with |- context [preorder_traverse r ?d ?c ?s] =>
      pose proof (IHr d c s) as Hr;
      destruct (preorder_traverse r d c s) as [c2 s2] end.
    simpl in *. assert (extends s1 s2) as Hr' by (pushed_then Hr).
    eapply extends_trans; [exact Hl'|].
    eapply extends_trans; [exact Hr'|]. pushed.
Qed.

Lemma inorder_extends n : ∀ depth callStack steps,
  extends steps (inorder_traverse n depth callStack steps).2.
Proof.
  induction n as [|id value l IHl r IHr]; intros depth callStack steps;
    simpl; unfold push.
  - pushed.
  - match goal with |- context [inorder_traverse l ?d ?c ?s] =>
      pose proof (IHl d c s) as Hl;
      destruct (inorder_traverse l d c s) as [c1 s1] end.
    simpl in Hl. assert (extends steps s1) as Hl' by (pushed_then Hl).
    match goal with |- context [inorder_traverse r ?d ?c ?s] =>
      pose proof (IHr d c s) as Hr;
      destruct (inorder_traverse r d c s) as [c2 s2] end.
    simpl in *. assert (extends s1 s2) as Hr' by (pushed_then Hr).
    eapply extends_trans; [exact Hl'|].
    eapply extends_trans; [exact Hr'|]. pushed.
Qed.

Lemma postorder_extends n : ∀ depth callStack steps,
  extends steps (postorder_traverse n depth callStack steps).2.
Proof.
  induction n as [|id value l IHl r IHr]; intros depth callStack steps;
    simpl; unfold push.
  - pushed.
  - match goal with |- context [postorder_traverse l ?d ?c ?s] =>
      pose proof (IHl d c s) as Hl;
      destruct (postorder_traverse l d c s) as [c1 s1] end.
    simpl in Hl. assert (extends steps s1) as Hl' by (pushed_then Hl).
    match goal with |- context [postorder_traverse r ?d ?c ?s] =>
      pose proof (IHr d c s) as Hr;
      destruct (postorder_traverse r d c s) as [c2 s2] end.
    simpl in *. assert (extends s1 s2) as Hr' by (pushed_then Hr).
    eapply extends_trans; [exact Hl'|].
    eapply extends_trans; [exact Hr'|]. pushed.
Qed.

Lemma preorderTraversal_framed root :
  framed ["complete"] terminals (type <$> preorderTraversal root).
Proof.
  unfold preorderTraversal.
  pose proof (preorder_extends root 0 [] (push [] init_step)) as H.
  destruct (preorder_traverse _ _ _ _) as [c steps]. simpl in H.
  unfold push. eapply framed_extends; [|exact H|]; [done|by left].
Qed.

Lemma inorderTraversal_framed root :
  framed ["complete"] terminals (type <$> inorderTraversal root).
Proof.
  unfold inorderTraversal.
  pose proof (inorder_extends root 0 [] (push [] init_step)) as H.
  destruct (inorder_traverse _ _ _ _) as [c steps]. simpl in H.
  unfold push. eapply framed_extends; [|exact H|]; [done|by left].
Qed.

Lemma postorderTraversal_framed root :
  framed ["complete"] terminals (type <$> postorderTraversal root).
Proof.
  unfold postorderTraversal.
  pose proof (postorder_extends root 0 [] (push [] init_step)) as H.
  destruct (postorder_traverse _ _ _ _) as [c steps]. simpl in H.
  unfold push. eapply framed_extends; [|exact H|]; [done|by left].
Qed.

End RecursionShape.

(** ** All generators *)

Module GeneratorFacts.
Import Grid GridFacts Shape.

Lemma bfs_framed rows cols start walls :
  ∃ steps,
    (∀ fuel, (grid_fuel rows cols ≤ fuel)%nat →
       Traversal.bfs fuel rows cols start walls = Some steps)
    ∧ framed ["complete"] terminals (Traversal.type <$> steps).
Proof.
  destruct (TraversalFacts.bfs_spec rows cols start walls)
    as (ext & seen' & Hrun & _ & Hext).
  eexists. split; [exact Hrun|].
  apply framed_intro; [done| |by left].
  eapply Forall_impl; [exact Hext|].
  intros s [[H|H] _]; rewrite H; by compute_done.
Qed.

Lemma dfs_framed rows cols start walls :
  ∃ steps,
    (∀ fuel, (grid_fuel rows cols ≤ fuel)%nat →
       Traversal.dfs fuel rows cols start walls = Some steps)
    ∧ framed ["complete"] terminals (Traversal.type <$> steps).
Proof.
  destruct (TraversalFacts.dfs_spec rows cols start walls)
    as (ext & seen' & Hrun & Hext).
  eexists. split; [exact Hrun|].
  apply framed_intro; [done| |by left].
  eapply Forall_impl; [exact Hext|].
  intros s [H|[H|H]]; rewrite H; by compute_done.
Qed.

Lemma final_step_type o :
  Pathfinding.type (PathfindingFacts.final_step o)
  ∈ ["no-path"; "path-found"].
Proof. destruct o; simpl; [by left|by right; left]. Qed.

Lemma emitted_inner ext :
  Forall PathfindingFacts.emitted ext →
  Forall (λ s, inner (Pathfinding.type s)) ext.
Proof.
  intros He. eapply Forall_impl; [exact He|].
  intros s [H|H]; rewrite H; by compute_done.
Qed.

Lemma dijkstra_framed rows cols start end_ walls :
  ∃ steps,
    (∀ fuel, (grid_fuel rows cols ≤ fuel)%nat →
       Pathfinding.dijkstra fuel rows cols start end_ walls = Some steps)
    ∧ framed ["no-path"; "path-found"] terminals
             (Pathfinding.type <$> steps).
Proof.
  destruct (PathfindingFacts.dijkstra_spec rows cols start end_ walls)
    as (o & ext & Hrun & Hext & _).
  eexists. split; [exact Hrun|].
  apply framed_intro; [done|by apply emitted_inner|apply final_step_type].
Qed.

Lemma aStar_framed rows cols start end_ walls :
  ∃ steps,
    (∀ fuel, (grid_fuel rows cols ≤ fuel)%nat →
       Pathfinding.aStar fuel rows cols start end_ walls = Some steps)
    ∧ framed ["no-path"; "path-found"] terminals
             (Pathfinding.type <$> steps).
Proof.
  destruct (PathfindingFacts.aStar_spec rows cols start end_ walls)
    as (o & ext & Hrun & Hext & _).
  eexists. split; [exact Hrun|].
  apply framed_intro; [done|by apply emitted_inner|apply final_step_type].
Qed.

Lemma mergeSort_framed_total arr :
  ∃ steps,
    (∀ fuel, (length arr ≤ fuel)%nat →
       Sorting.mergeSort fuel arr = Some steps)
    ∧ framed ["complete"] terminals (Sorting.type <$> steps).
Proof.
  destruct (SortingFacts.mergeSort_last arr) as (steps & Hrun & _).
  exists steps. split; [done|].
  by apply (SortingShape.mergeSort_framed (length arr) arr), Hrun.
Qed.

(** C3 as stated fails on a grid of one cell that is start and end:
    [dijkstra] returns [init], [visit], [path-found], and [path-found]
    is neither [complete] nor [no-path]. *)
Lemma C3_counterexample :
  ∃ steps,
    Pathfinding.dijkstra 11 1 1 (0, 0) (0, 0) ∅ = Some steps
    ∧ Pathfinding.type <$> steps = ["init"; "visit"; "path-found"]
    ∧ ¬ framed claimed_terminals claimed_terminals
               (Pathfinding.type <$> steps).
Proof.
  eexists. split; [by vm_compute|]. split; [done|].
  intros (t & Ht & Hin)%framed_last. simpl in Ht.
  injection Ht as <-. revert Hin. by compute_done.
Qed.

(** C3, amended. Every step sequence returned by a generator starts with
    its only [init] step and ends with its only terminal step, whose
    type is [complete], [no-path] or [path-found]: [complete] for the
    three sorts, the three traversals, [bfs] and [dfs]; [no-path] or
    [path-found] for [dijkstra] and [aStar].  Every generator returns:
    [mergeSort] with fuel [n], the grid generators with fuel
    [grid_fuel rows cols]. *)
Theorem C3_framed_sequences :
  (∀ arr,
     framed ["complete"] terminals (Sorting.type <$> Sorting.bubbleSort arr)
     ∧ framed ["complete"] terminals
              (Sorting.type <$> Sorting.insertionSort arr)
     ∧ ∃ steps,
         (∀ fuel, (length arr ≤ fuel)%nat →
            Sorting.mergeSort fuel arr = Some steps)
         ∧ framed ["complete"] terminals (Sorting.type <$> steps))
  ∧ (∀ root,
       framed ["complete"] terminals
              (Recursion.type <$> Recursion.preorderTraversal root)
       ∧ framed ["complete"] terminals
                (Recursion.type <$> Recursion.inorderTraversal root)
       ∧ framed ["complete"] terminals
                (Recursion.type <$> Recursion.postorderTraversal root))
  ∧ (∀ rows cols start walls,
       (∃ steps,
          (∀ fuel, (grid_fuel rows cols ≤ fuel)%nat →
             Traversal.bfs fuel rows cols start walls = Some steps)
          ∧ framed ["complete"] terminals (Traversal.type <$> steps))
       ∧ (∃ steps,
            (∀ fuel, (grid_fuel rows cols ≤ fuel)%nat →
               Traversal.dfs fuel rows cols start walls = Some steps)
            ∧ framed ["complete"] terminals (Traversal.type <$> steps)))
  ∧ (∀ rows cols start end_ walls,
       (∃ steps,
          (∀ fuel, (grid_fuel rows cols ≤ fuel)%nat →
             Pathfinding.dijkstra fuel rows cols start end_ walls
             = Some steps)
          ∧ framed ["no-path"; "path-found"] terminals
                   (Pathfinding.type <$> steps))
       ∧ (∃ steps,
            (∀ fuel, (grid_fuel rows cols ≤ fuel)%nat →
               Pathfinding.aStar fuel rows cols start end_ walls
               = Some steps)
            ∧ framed ["no-path"; "path-found"] terminals
                     (Pathfinding.type <$> steps))).
Proof.
  split_and!.
  - intros arr. split_and!.
    + apply SortingShape.bubbleSort_framed.
    + apply SortingShape.insertionSort_framed.
    + apply mergeSort_framed_total.
  - intros root. split_and!.
    + apply RecursionShape.preorderTraversal_framed.
    + apply RecursionShape.inorderTraversal_framed.
    + apply RecursionShape.postorderTraversal_framed.
  - intros rows cols start walls. split.
    + apply bfs_framed.
    + apply dfs_framed.
  - intros rows cols start end_ walls. split.
    + apply dijkstra_framed.
    + apply aStar_framed.
Qed.

Lemma C3_witness :
  ∃ steps,
    Sorting.mergeSort 3 [3; 1; 2] = Some steps
    ∧ framed ["complete"] terminals (Sorting.type <$> steps).
Proof.
  destruct (proj1 C3_framed_sequences [3; 1; 2])
    as (_ & _ & steps & Hrun & Hf).
  exists steps. split; [|exact Hf]. apply Hrun. simpl. lia.
Defined.









End GeneratorFacts.

(* ===================================================================== *)
(** * Part III: further properties of the code *)
(* ===================================================================== *)

(** ** js/algorithms/recursion.js and generateBinaryTree *)

Module RecursionFacts.
Import Recursion.

(** The nodes of a tree in the three orders. *)
Fixpoint preorder (t : tree) : list tree :=
  match t with
  | Null => []
  | Node _ _ l r => t :: preorder l ++ preorder r
  end.

Fixpoint inorder (t : tree) : list tree :=
  match t with
  | Null => []
  | Node _ _ l r => inorder l ++ t :: inorder r
  end.

Fixpoint postorder (t : tree) : list tree :=
  match t with
  | Null => []
  | Node _ _ l r => postorder l ++ postorder r ++ [t]
  end.

Fixpoint size (t : tree) : nat :=
  match t with
  | Null => 0
  | Node _ _ l r => S (size l + size r)
  end.

Fixpoint height (t : tree) : nat :=
  match t with
  | Null => 0
  | Node _ _ l r => S (height l `max` height r)
  end.

Definition id_of (t : tree) : option Z :=
  match t with
  | Null => None
  | Node id _ _ _ => Some id
  end.

Definition value_of (t : tree) : option Z :=
  match t with
  | Null => None
  | Node _ value _ _ => Some value
  end.

(** The nodes of the [visit] steps of a run, in the order of the steps. *)
Definition visited (steps : list step) : list tree :=
  omap (λ s, if String.eqb (type s) "visit" then node s else None) steps.

(** The number of steps of one type. *)
Definition count (ty : string) (steps : list step) : nat :=
  length (List.filter (λ s, String.eqb (type s) ty) steps).

Lemma count_steps_app ty s1 s2 : count ty (s1 ++ s2) = (count ty s1 + count ty s2)%nat.
Proof. unfold count. by rewrite List.filter_app, length_app. Qed.

Lemma count_steps_cons ty s l :
  count ty (s :: l)
  = ((if String.eqb (type s) ty then 1 else 0) + count ty l)%nat.
Proof. unfold count. simpl. by destruct (String.eqb (type s) ty). Qed.

Lemma pop_push (callStack : list string) f : pop (callStack ++ [f]) = callStack.
Proof. unfold pop. apply removelast_last. Qed.

(** The stack of a step of a call at depth [d] that was entered with [n]
    frames on the stack: it holds between [n] and [n + h] frames, one
    more than the depth of the step at a [visit], as many at a
    [null-node]. *)
Definition stack_ok (n h : nat) (d : Z) (s : step) : Prop :=
  ∃ c, callStack s = Some c
    ∧ (n ≤ length c ≤ n + h)%nat
    ∧ (type s = "visit" →
         ∃ k, depth s = Some k ∧ d ≤ k
              ∧ Z.of_nat (length c) = Z.of_nat n + (k - d) + 1)
    ∧ (type s = "null-node" →
         ∃ k, depth s = Some k ∧ d ≤ k
              ∧ Z.of_nat (length c) = Z.of_nat n + (k - d)).

(** What a call of [traverse] on [t] at depth [d] with the stack [cs]
    adds to the steps. *)
Record run_ok (order : tree → list tree) (t : tree) (d : Z)
    (cs : list string) (ext : list step) : Prop := {
  run_visited : visited ext = order t;
  run_length : length ext = (5 * size t + 1)%nat;
  run_nulls : count "null-node" ext = S (size t);
  run_visits : count "visit" ext = size t;
  run_stack : Forall (stack_ok (length cs) (height t) d) ext;
  run_last :
    match t with
    | Null => ext = [null_step cs d]
    | Node _ _ _ _ => last ext = Some (return_step t cs)
    end
}.

Lemma stack_ok_child n h h' d s :
  (S h ≤ h')%nat → stack_ok (S n) h (d + 1) s → stack_ok n h' d s.
Proof.
  intros Hh (c & Hc & Hl & Hv & Hn). exists c.
  split; [done|]. split; [lia|]. split.
  - intros Ht. destruct (Hv Ht) as (k & Hk & Hd & Hlen).
    exists k. split_and!; [done|lia|lia].
  - intros Ht. destruct (Hn Ht) as (k & Hk & Hd & Hlen).
    exists k. split_and!; [done|lia|lia].
Qed.

(** A step the call pushes itself. *)
Local Ltac own_step :=
  eexists; split; [reflexivity|];
  split; [rewrite ?length_app; simpl; lia|];
  split; intros;
    first [ discriminate
          | eexists; split; [reflexivity|];
            split; [lia|rewrite ?length_app; simpl; lia] ].

(** The steps of a call on a node, from those of the calls on its
    children. *)
Local Ltac node_run Hvl Hvr Hll Hlr Hnl Hnr Hil Hir Hsl Hsr :=
  split;
  [ unfold visited in *; simpl; rewrite ?omap_app; simpl;
    rewrite ?omap_app; simpl; rewrite ?app_nil_r, ?Hvl, ?Hvr;
    by rewrite <- ?app_assoc
  | simpl; rewrite ?length_app; simpl; rewrite ?length_app; simpl; lia
  | repeat first [rewrite count_steps_cons | rewrite count_steps_app];
    rewrite ?Hnl, ?Hnr; unfold count; simpl; lia
  | repeat first [rewrite count_steps_cons | rewrite count_steps_app];
    rewrite ?Hil, ?Hir; unfold count; simpl; lia
  | rewrite length_app in Hsl, Hsr; simpl in Hsl, Hsr;
    match type of Hsl with
    | Forall (stack_ok ?n _ _) _ =>
        match n with
        | (?m + 1)%nat =>
            replace (m + 1)%nat with (S m) in Hsl, Hsr by lia
        end
    end;
    repeat first
      [ apply Forall_cons; split
      | apply Forall_app; split
      | apply Forall_nil ];
    try (eapply Forall_impl; [eassumption|];
         intros s; apply stack_ok_child; simpl; lia);
    first [done | own_step]
  | repeat first [rewrite last_cons | rewrite last_app]; by simpl ].

Lemma preorder_run t : ∀ d cs steps,
  ∃ ext, preorder_traverse t d cs steps = (cs, steps ++ ext)
         ∧ run_ok preorder t d cs ext.
Proof.
  induction t as [|id value l IHl r IHr]; intros d cs steps; simpl.
  - eexists. split; [reflexivity|]. split; [done..| |done].
    repeat constructor. own_step.
  - unfold push.
    edestruct (IHl (d + 1)) as (extl & -> & [Hvl Hll Hnl Hil Hsl _]).
    edestruct (IHr (d + 1)) as (extr & -> & [Hvr Hlr Hnr Hir Hsr _]).
    rewrite pop_push, <- !app_assoc. simpl.
    eexists. split; [reflexivity|].
    node_run Hvl Hvr Hll Hlr Hnl Hnr Hil Hir Hsl Hsr.
Qed.

Lemma inorder_run t : ∀ d cs steps,
  ∃ ext, inorder_traverse t d cs steps = (cs, steps ++ ext)
         ∧ run_ok inorder t d cs ext.
Proof.
  induction t as [|id value l IHl r IHr]; intros d cs steps; simpl.
  - eexists. split; [reflexivity|]. split; [done..| |done].
    repeat constructor. own_step.
  - unfold push.
    edestruct (IHl (d + 1)) as (extl & -> & [Hvl Hll Hnl Hil Hsl _]).
    edestruct (IHr (d + 1)) as (extr & -> & [Hvr Hlr Hnr Hir Hsr _]).
    rewrite pop_push, <- !app_assoc. simpl.
    eexists. split; [reflexivity|].
    node_run Hvl Hvr Hll Hlr Hnl Hnr Hil Hir Hsl Hsr.
Qed.

Lemma postorder_run t : ∀ d cs steps,
  ∃ ext, postorder_traverse t d cs steps = (cs, steps ++ ext)
         ∧ run_ok postorder t d cs ext.
Proof.
  induction t as [|id value l IHl r IHr]; intros d cs steps; simpl.
  - eexists. split; [reflexivity|]. split; [done..| |done].
    repeat constructor. own_step.
  - unfold push.
    edestruct (IHl (d + 1)) as (extl & -> & [Hvl Hll Hnl Hil Hsl _]).
    edestruct (IHr (d + 1)) as (extr & -> & [Hvr Hlr Hnr Hir Hsr _]).
    rewrite pop_push, <- !app_assoc. simpl.
    eexists. split; [reflexivity|].
    node_run Hvl Hvr Hll Hlr Hnl Hnr Hil Hir Hsl Hsr.
Qed.

(** The steps of a whole run: [init], those of the call on the root,
    [complete]. *)
Lemma preorderTraversal_run root :
  ∃ ext, preorderTraversal root = init_step :: ext ++ [complete_step]
         ∧ run_ok preorder root 0 [] ext.
Proof.
  unfold preorderTraversal.
  destruct (preorder_run root 0 [] (push [] init_step)) as (ext & -> & H).
  by exists ext.
Qed.

Lemma inorderTraversal_run root :
  ∃ ext, inorderTraversal root = init_step :: ext ++ [complete_step]
         ∧ run_ok inorder root 0 [] ext.
Proof.
  unfold inorderTraversal.
  destruct (inorder_run root 0 [] (push [] init_step)) as (ext & -> & H).
  by exists ext.
Qed.

Lemma postorderTraversal_run root :
  ∃ ext, postorderTraversal root = init_step :: ext ++ [complete_step]
         ∧ run_ok postorder root 0 [] ext.
Proof.
  unfold postorderTraversal.
  destruct (postorder_run root 0 [] (push [] init_step)) as (ext & -> & H).
  by exists ext.
Qed.

Lemma visited_framed ext :
  visited (init_step :: ext ++ [complete_step]) = visited ext.
Proof. unfold visited. simpl. rewrite omap_app. simpl. apply app_nil_r. Qed.

(** X1. The [visit] steps of [preorderTraversal] name the nodes of the
    tree in preorder (root, left subtree, right subtree), each node
    once. *)
Theorem preorder_visits_in_preorder root :
  visited (preorderTraversal root) = preorder root.
Proof.
  destruct (preorderTraversal_run root) as (ext & -> & H).
  rewrite visited_framed. apply H.
Qed.

(** X2. The [visit] steps of [inorderTraversal] name the nodes of the
    tree in inorder (left subtree, root, right subtree), each node
    once. *)
Theorem inorder_visits_in_inorder root :
  visited (inorderTraversal root) = inorder root.
Proof.
  destruct (inorderTraversal_run root) as (ext & -> & H).
  rewrite visited_framed. apply H.
Qed.

(** X3. The [visit] steps of [postorderTraversal] name the nodes of the
    tree in postorder (left subtree, right subtree, root), each node
    once. *)
Theorem postorder_visits_in_postorder root :
  visited (postorderTraversal root) = postorder root.
Proof.
  destruct (postorderTraversal_run root) as (ext & -> & H).
  rewrite visited_framed. apply H.
Qed.




(** The call stacks of a framed run. *)
Definition stacks_ok (root : tree) (steps : list step) : Prop :=
  Forall (λ s, ∀ c, callStack s = Some c →
            (length c ≤ height root)%nat
            ∧ (type s = "visit" →
               depth s = Some (Z.of_nat (length c) - 1))
            ∧ (type s = "null-node" →
               depth s = Some (Z.of_nat (length c)))) steps
  ∧ (root ≠ Null →
     ∃ pre, steps = pre ++ [return_step root []; complete_step]).

Lemma stacks_ok_intro order root ext :
  run_ok order root 0 [] ext →
  stacks_ok root (init_step :: ext ++ [complete_step]).
Proof.
  intros [_ _ _ _ Hs Hlast]. split.
  - constructor; [done|]. apply Forall_app. split; [|by repeat constructor].
    eapply Forall_impl; [exact Hs|].
    intros s (c & Hc & Hl & Hv & Hn) c' Hc'.
    rewrite Hc in Hc'. injection Hc' as <-. simpl in Hl. split; [lia|]. split.
    + intros Ht. destruct (Hv Ht) as (k & -> & _ & Hk). f_equal. simpl in Hk. lia.
    + intros Ht. destruct (Hn Ht) as (k & -> & _ & Hk). f_equal. simpl in Hk. lia.
  - intros Hroot. destruct root; [done|].
    apply last_Some in Hlast as [pre ->].
    exists (init_step :: pre). by rewrite <- app_assoc.
Qed.

(** X5. In a run of each of the three traversals the call stack of a
    step never holds more frames than the tree is high; it holds
    [depth + 1] frames at a [visit] step and [depth] frames at a
    [null-node] step.  On a non-empty tree the step before [complete] is
    the [return] of the root, with an empty stack: every frame pushed
    has been popped. *)
Theorem traversal_call_stack root :
  stacks_ok root (preorderTraversal root)
  ∧ stacks_ok root (inorderTraversal root)
  ∧ stacks_ok root (postorderTraversal root).
Proof.
  destruct (preorderTraversal_run root) as (e1 & -> & H1).
  destruct (inorderTraversal_run root) as (e2 & -> & H2).
  destruct (postorderTraversal_run root) as (e3 & -> & H3).
  split_and!; by eapply stacks_ok_intro.
Qed.

(** The values of the nodes of a tree, in inorder. *)
Fixpoint values (t : tree) : list Z :=
  match t with
  | Null => []
  | Node _ value l r => values l ++ value :: values r
  end.

(** A binary search tree: the values of the left subtree are below the
    value of the node, those of the right subtree above. *)
Fixpoint bst (t : tree) : Prop :=
  match t with
  | Null => True
  | Node _ value l r =>
      bst l ∧ bst r
      ∧ Forall (λ x, x < value) (values l)
      ∧ Forall (λ x, value < x) (values r)
  end.

Lemma values_inorder t : omap value_of (inorder t) = values t.
Proof.
  induction t as [|id value l IHl r IHr]; [done|].
  cbn [inorder values]. rewrite omap_app, IHl. f_equal.
  change (omap value_of (Node id value l r :: inorder r))
    with (value :: omap value_of (inorder r)). by rewrite IHr.
Qed.

Lemma bst_sorted t : bst t → StronglySorted Z.lt (values t).
Proof.
  induction t as [|id value l IHl r IHr]; simpl; [constructor|].
  intros (Hl & Hr & Hlt & Hgt).
  apply StronglySorted_app_2; [|by apply IHl|].
  - intros x y Hx [->|Hy]%elem_of_cons.
    + by eapply Forall_forall in Hlt.
    + eapply Forall_forall in Hlt; [|done].
      eapply Forall_forall in Hgt; [|done]. lia.
  - constructor; [by apply IHr|done].
Qed.

(** X6. On a binary search tree the values of the [visit] steps of
    [inorderTraversal] are in strictly increasing order. *)
Theorem inorder_bst_sorted root :
  bst root →
  StronglySorted Z.lt (omap value_of (visited (inorderTraversal root))).
Proof.
  intros H. destruct (inorderTraversal_run root) as (ext & -> & Hrun).
  rewrite visited_framed, (run_visited _ _ _ _ _ Hrun), values_inorder.
  by apply bst_sorted.
Qed.

Lemma inorder_bst_sorted_witness :
  let t := Node 1 20 (Node 2 10 Null Null) (Node 3 30 Null Null) in
  StronglySorted Z.lt (omap value_of (visited (inorderTraversal t))).
Proof.
  intros t. apply (inorder_bst_sorted t).
  simpl. repeat split; repeat constructor.
Defined.

(** *** generateBinaryTree *)

Import Helpers.

(** A tree all of whose leaves are [h] levels below the root. *)
Fixpoint perfect (h : nat) (t : tree) : Prop :=
  match h, t with
  | O, Null => True
  | S h', Node _ _ l r => perfect h' l ∧ perfect h' r
  | _, _ => False
  end.

Lemma perfect_size h t : perfect h t → Z.of_nat (size t) = 2 ^ Z.of_nat h - 1.
Proof.
  revert t. induction h as [|h IH]; intros [|id value l r];
    cbn [perfect size]; try done.
  intros [Hl Hr]. apply IH in Hl, Hr.
  rewrite !Nat2Z.inj_succ, Z.pow_succ_r by lia. lia.
Qed.

Lemma perfect_height h t : perfect h t → height t = h.
Proof.
  revert t. induction h as [|h IH]; intros [|id value l r]; simpl; try done.
  intros [Hl Hr]. apply IH in Hl, Hr. lia.
Qed.

(** What [createNode] returns [todo] levels above the deepest one, with
    the counter at [nodeId]. *)
Record created (todo : nat) (nodeId : Z) (t : tree) : Prop := {
  created_perfect : perfect todo t;
  created_ids :
    omap id_of (preorder t) = seqZ nodeId (2 ^ Z.of_nat todo - 1);
  created_values : Forall (λ n, value_of n = id_of n) (preorder t)
}.

Lemma createNode_spec maxDepth todo : ∀ depth nodeId fuel,
  Z.to_nat (maxDepth + 1 - depth) = todo → (todo ≤ fuel)%nat →
  ∃ t, createNode fuel maxDepth depth nodeId
       = Some (t, nodeId + (2 ^ Z.of_nat todo - 1))
       ∧ created todo nodeId t.
Proof.
  induction todo as [|todo IH]; intros depth nodeId fuel Htodo Hfuel.
  - exists Null. split; [|by split].
    assert ((maxDepth <? depth) = true) as Hlt by (apply Z.ltb_lt; lia).
    destruct fuel; simpl; rewrite Hlt; do 2 f_equal; lia.
  - destruct fuel as [|fuel]; [lia|]. simpl createNode.
    assert ((maxDepth <? depth) = false) as -> by (apply Z.ltb_ge; lia).
    destruct (IH (depth + 1) (nodeId + 1) fuel) as (l & -> & [Hpl Hil Hvl]);
      [lia..|].
    destruct (IH (depth + 1) (nodeId + 1 + (2 ^ Z.of_nat todo - 1)) fuel)
      as (r & -> & [Hpr Hir Hvr]); [lia..|].
    assert (0 < 2 ^ Z.of_nat todo) as Hpos by (apply Z.pow_pos_nonneg; lia).
    assert (2 ^ Z.of_nat (S todo) = 2 * 2 ^ Z.of_nat todo) as Hpow
      by (rewrite Nat2Z.inj_succ, Z.pow_succ_r; lia).
    eexists. split; [do 2 f_equal; lia|]. split.
    + done.
    + cbn [preorder]. rewrite Hpow.
      change (omap id_of (?n :: ?l)) with (omap id_of ([n] ++ l)).
      rewrite !omap_app, Hil, Hir. simpl.
      replace (nodeId + 1 - 1) with nodeId by lia.
      rewrite (seqZ_cons nodeId) by lia. f_equal.
      replace (Z.pred (2 * 2 ^ Z.of_nat todo - 1))
        with ((2 ^ Z.of_nat todo - 1) + (2 ^ Z.of_nat todo - 1)) by lia.
      rewrite seqZ_app by lia. do 2 f_equal; lia.
    + cbn [preorder]. constructor; [simpl; f_equal; lia|].
      by apply Forall_app.
Qed.

(** X7. [generateBinaryTree(maxDepth)] returns a perfect binary tree of
    [maxDepth] levels ([null] for [maxDepth <= 0]), so of
    [2 ^ maxDepth - 1] nodes; the ids of its nodes, read in preorder, are
    [1, 2, ..., 2 ^ maxDepth - 1], and the value of every node is its
    id. *)
Theorem generateBinaryTree_perfect maxDepth fuel :
  (Z.to_nat maxDepth ≤ fuel)%nat →
  ∃ t, generateBinaryTree fuel maxDepth = Some t
       ∧ perfect (Z.to_nat maxDepth) t
       ∧ Z.of_nat (size t) = 2 ^ Z.of_nat (Z.to_nat maxDepth) - 1
       ∧ omap id_of (preorder t)
         = seqZ 1 (2 ^ Z.of_nat (Z.to_nat maxDepth) - 1)
       ∧ Forall (λ n, value_of n = id_of n) (preorder t)
       ∧ (maxDepth ≤ 0 → t = Null).
Proof.
  intros Hfuel.
  destruct (createNode_spec maxDepth (Z.to_nat maxDepth) 1 1 fuel)
    as (t & Hrun & [Hp Hi Hv]); [lia|done|].
  exists t. unfold generateBinaryTree. rewrite Hrun.
  split_and!; try done.
  - by apply perfect_size.
  - intros Hle. replace (Z.to_nat maxDepth) with 0%nat in Hp by lia.
    by destruct t.
Qed.

Lemma generateBinaryTree_perfect_witness :
  ∃ t, generateBinaryTree 4 4 = Some t ∧ Z.of_nat (size t) = 15.
Proof.
  destruct (generateBinaryTree_perfect 4 4) as (t & Hrun & _ & Hsize & _).
  - vm_compute. lia.
  - exists t. split; [exact Hrun|exact Hsize].
Defined.

Lemma values_preorder t :
  Forall (λ n, value_of n = id_of n) (preorder t) →
  omap value_of (preorder t) = omap id_of (preorder t).
Proof.
  induction (preorder t) as [|n l IH]; [done|].
  intros [Hn Hl]%Forall_cons. simpl. rewrite Hn.
  destruct (id_of n); [f_equal|]; by apply IH.
Qed.

(** X8. The tree of [generateBinaryTree(maxDepth)] under
    [preorderTraversal]: the values of the [visit] steps count up from 1
    to [2 ^ maxDepth - 1], and the run has [5 * 2 ^ maxDepth - 2]
    steps. *)
Theorem preorder_of_generated_tree maxDepth fuel :
  (Z.to_nat maxDepth ≤ fuel)%nat →
  ∃ t, generateBinaryTree fuel maxDepth = Some t
       ∧ omap value_of (visited (preorderTraversal t))
         = seqZ 1 (2 ^ Z.of_nat (Z.to_nat maxDepth) - 1)
       ∧ Z.of_nat (length (preorderTraversal t))
         = 5 * 2 ^ Z.of_nat (Z.to_nat maxDepth) - 2.
Proof.
  intros Hfuel.
  destruct (createNode_spec maxDepth (Z.to_nat maxDepth) 1 1 fuel)
    as (t & Hrun & [Hp Hi Hv]); [lia|done|].
  exists t. unfold generateBinaryTree. rewrite Hrun. split; [done|].
  destruct (preorderTraversal_run t) as (ext & -> & [Hvis Hlen _ _ _ _]).
  rewrite visited_framed, Hvis, values_preorder, Hi by done.
  split; [done|]. apply perfect_size in Hp.
  simpl. rewrite length_app, Hlen. simpl. lia.
Qed.

Lemma preorder_of_generated_tree_witness :
  ∃ t, generateBinaryTree 4 4 = Some t
       ∧ omap value_of (visited (preorderTraversal t)) = seqZ 1 15
       ∧ Z.of_nat (length (preorderTraversal t)) = 78.
Proof.
  apply (preorder_of_generated_tree 4 4). vm_compute. lia.
Defined.

End RecursionFacts.

(** ** The AnimationController through a session *)

Module ControllerFacts.
Import Playback Helpers.

Section Facts.
Context {Step : Type}.
Implicit Types c : controller Step.

(** A call of a synchronous method. *)
Inductive call : Type :=
| LoadSteps (ss : list Step)
| StepForward
| StepBackward
| Reset
| Pause
| Resume
| Stop
| SetSpeed (s : Z)
| Install.

(** [Install] stands for the assignment [animation.onStepChange = ...]
    of a callback that leaves the controller alone. *)
Definition perform c (m : call) : controller Step :=
  match m with
  | LoadSteps ss => loadSteps c ss
  | StepForward => stepForward c
  | StepBackward => stepBackward c
  | Reset => reset c
  | Pause => pause c
  | Resume => resume c
  | Stop => stop c
  | SetSpeed s => setSpeed c s
  | Install =>
      Controller (steps c) (currentStepIndex c) (isPlaying c) (isPaused c)
                 (speed c) true (notified c)
  end.

Definition session (calls : list call) : controller Step :=
  foldl perform constructor calls.

(** What every state of a session satisfies. *)
Definition well_formed c : Prop :=
  1 ≤ speed c ≤ 100
  ∧ 0 ≤ currentStepIndex c
  ∧ currentStepIndex c ≤ Z.max 0 (Z.of_nat (length (steps c)) - 1).

Lemma notify_fields c :
  steps (notify c) = steps c
  ∧ currentStepIndex (notify c) = currentStepIndex c
  ∧ speed (notify c) = speed c
  ∧ isPlaying (notify c) = isPlaying c
  ∧ isPaused (notify c) = isPaused c
  ∧ onStepChange (notify c) = onStepChange c.
Proof.
  unfold notify. destruct (onStepChange c) eqn:E; simpl; by rewrite ?E.
Qed.

Lemma well_formed_notify c : well_formed c → well_formed (notify c).
Proof.
  unfold well_formed.
  destruct (notify_fields c) as (-> & -> & -> & _). done.
Qed.

Lemma well_formed_perform c m : well_formed c → well_formed (perform c m).
Proof.
  intros (Hs & H0 & Hi). destruct m; simpl.
  - unfold well_formed. simpl. lia.
  - unfold stepForward. case_match; [|done].
    apply well_formed_notify. unfold well_formed. simpl.
    apply Z.ltb_lt in H. lia.
  - unfold stepBackward. case_match; [|done].
    apply well_formed_notify. unfold well_formed. simpl.
    apply Z.ltb_lt in H. lia.
  - apply well_formed_notify. unfold well_formed. simpl. lia.
  - done.
  - done.
  - done.
  - unfold well_formed. simpl. lia.
  - done.
Qed.

Lemma well_formed_session calls : well_formed (session calls).
Proof.
  unfold session. induction calls as [|m calls IH] using rev_ind.
  - unfold well_formed. simpl. lia.
  - rewrite foldl_app. simpl. by apply well_formed_perform.
Qed.

Lemma getCurrentStep_well_formed c :
  well_formed c →
  match steps c with
  | [] => getCurrentStep c = None
  | _ :: _ => ∃ s, getCurrentStep c = Some s ∧ s ∈ steps c
  end.
Proof.
  intros (_ & H0 & Hi). unfold getCurrentStep.
  assert ((currentStepIndex c <? 0) = false) as -> by (apply Z.ltb_ge; lia).
  destruct (steps c) as [|s0 l] eqn:E; [done|].
  destruct ((s0 :: l) !! Z.to_nat (currentStepIndex c)) as [s|] eqn:Hs.
  - exists s. split; [done|]. by eapply list_elem_of_lookup_2.
  - apply lookup_ge_None in Hs. simpl in *. lia.
Qed.

(** X9. Through every sequence of calls of the synchronous methods on a
    new controller ([loadSteps], [stepForward], [stepBackward], [reset],
    [pause], [resume], [stop], [setSpeed], installing a callback) the
    speed stays between 1 and 100 and the index between 0 and the last
    index of the loaded steps; [getCurrentStep()] is then one of the
    loaded steps, and [null] only when no step is loaded. *)
Theorem session_invariant (calls : list call) :
  let c := session calls in
  1 ≤ speed c ≤ 100
  ∧ 0 ≤ currentStepIndex c ≤ Z.max 0 (Z.of_nat (length (steps c)) - 1)
  ∧ match steps c with
    | [] => getCurrentStep c = None
    | _ :: _ => ∃ s, getCurrentStep c = Some s ∧ s ∈ steps c
    end.
Proof.
  intros c. pose proof (well_formed_session calls) as H. fold c in H.
  pose proof (getCurrentStep_well_formed c H) as Hg.
  destruct H as (? & ? & ?). done.
Qed.

Lemma stepForward_fields c :
  steps (stepForward c) = steps c
  ∧ currentStepIndex (stepForward c)
    = (if currentStepIndex c <? Z.of_nat (length (steps c)) - 1
       then currentStepIndex c + 1 else currentStepIndex c).
Proof.
  unfold stepForward. case_match; [|done].
  by destruct (notify_fields (set_index c (currentStepIndex c + 1)))
    as (-> & -> & _).
Qed.

Lemma stepBackward_fields c :
  steps (stepBackward c) = steps c
  ∧ currentStepIndex (stepBackward c)
    = (if 0 <? currentStepIndex c
       then currentStepIndex c - 1 else currentStepIndex c).
Proof.
  unfold stepBackward. case_match; [|done].
  by destruct (notify_fields (set_index c (currentStepIndex c - 1)))
    as (-> & -> & _).
Qed.

(** X10. From an index inside the loaded steps, [n] calls of
    [stepForward] move the index [n] steps up and stop at the last
    step; [n] calls of [stepBackward] move it [n] steps down and stop at
    the first; neither changes the steps.  So a [stepBackward] after a
    [stepForward] that moved is back at the same step. *)
Theorem stepping_saturates c (n : nat) :
  0 ≤ currentStepIndex c ≤ Z.of_nat (length (steps c)) - 1 →
  (steps (Nat.iter n stepForward c) = steps c
   ∧ currentStepIndex (Nat.iter n stepForward c)
     = Z.min (currentStepIndex c + Z.of_nat n)
             (Z.of_nat (length (steps c)) - 1))
  ∧ (steps (Nat.iter n stepBackward c) = steps c
     ∧ currentStepIndex (Nat.iter n stepBackward c)
       = Z.max (currentStepIndex c - Z.of_nat n) 0)
  ∧ (currentStepIndex c < Z.of_nat (length (steps c)) - 1 →
     currentStepIndex (stepBackward (stepForward c)) = currentStepIndex c
     ∧ getCurrentStep (stepBackward (stepForward c)) = getCurrentStep c).
Proof.
  intros Hi. split; [|split].
  - induction n as [|n IH]; [split; [done|simpl; lia]|].
    destruct IH as [IHs IHi].
    rewrite Nat.iter_succ.
    destruct (stepForward_fields (Nat.iter n stepForward c)) as [-> ->].
    rewrite IHs, IHi. split; [done|]. case_match.
    + apply Z.ltb_lt in H. lia.
    + apply Z.ltb_ge in H. lia.
  - induction n as [|n IH]; [split; [done|simpl; lia]|].
    destruct IH as [IHs IHi].
    rewrite Nat.iter_succ.
    destruct (stepBackward_fields (Nat.iter n stepBackward c)) as [-> ->].
    rewrite IHs, IHi. split; [done|]. case_match.
    + apply Z.ltb_lt in H. lia.
    + apply Z.ltb_ge in H. lia.
  - intros Hlt.
    destruct (stepBackward_fields (stepForward c)) as [Hs ->].
    destruct (stepForward_fields c) as [Hs' ->].
    assert ((currentStepIndex c <? Z.of_nat (length (steps c)) - 1) = true)
      as -> by (apply Z.ltb_lt; lia).
    assert ((0 <? currentStepIndex c + 1) = true) as ->
      by (apply Z.ltb_lt; lia).
    assert (currentStepIndex (stepBackward (stepForward c))
            = currentStepIndex c) as Hidx.
    { destruct (stepBackward_fields (stepForward c)) as [_ ->].
      destruct (stepForward_fields c) as [_ ->].
      assert ((currentStepIndex c <? Z.of_nat (length (steps c)) - 1) = true)
        as -> by (apply Z.ltb_lt; lia).
      assert ((0 <? currentStepIndex c + 1) = true) as ->
        by (apply Z.ltb_lt; lia).
      lia. }
    split; [lia|]. unfold getCurrentStep. by rewrite Hidx, Hs, Hs'.
Qed.


(** X12. Whatever number [setSpeed] is given, the delay [play] then
    waits between two steps, [speedToDelay(this.speed)], is between 10
    and 1000 milliseconds, and a higher speed never gives a longer
    delay. *)
Theorem setSpeed_delay c (s s' : Z) :
  s ≤ s' →
  ∃ d d',
    speedToDelay (speed (setSpeed c s)) = Finite d
    ∧ speedToDelay (speed (setSpeed c s')) = Finite d'
    ∧ 10 ≤ d' ≤ d ∧ d ≤ 1000.
Proof.
  intros Hle. unfold speedToDelay. simpl.
  destruct (Z.eqb_spec (Z.max 1 (Z.min 100 s)) 0); [lia|].
  destruct (Z.eqb_spec (Z.max 1 (Z.min 100 s')) 0); [lia|].
  eexists _, _. split; [done|]. split; [done|]. split_and!.
  - apply Z.div_le_lower_bound; lia.
  - apply Z.div_le_compat_l; lia.
  - apply Z.div_le_upper_bound; lia.
Qed.

(** The calls of the callback [play] makes from the step [from] on. *)
Definition frames (ss : list Step) (from : nat) : list (option Step * Z) :=
  imap (λ i s, (Some s, Z.of_nat (from + i))) (drop from ss).

Lemma frames_lookup ss from s :
  ss !! from = Some s →
  frames ss from = (Some s, Z.of_nat from) :: frames ss (S from).
Proof.
  intros H. unfold frames. rewrite (drop_S _ _ _ H). simpl.
  rewrite Nat.add_0_r. f_equal. apply imap_ext. intros i x _. simpl.
  do 2 f_equal. lia.
Qed.

Lemma frames_end ss from : (length ss ≤ from)%nat → frames ss from = [].
Proof. intros H. unfold frames. by rewrite drop_ge. Qed.

Definition playing (ss : list Step) (i : Z) (sp : Z) (cb : bool)
    (log : list (option Step * Z)) : controller Step :=
  Controller ss i true false sp cb log.

Lemma play_loop_run (ss : list Step) sp cb n : ∀ (i : nat) log fuel,
  (length ss - i ≤ n)%nat → (n ≤ fuel)%nat →
  play_loop fuel (playing ss (Z.of_nat i) sp cb log)
  = Some (playing ss (Z.of_nat (i `max` length ss)) sp cb
            ((if cb then reverse (frames ss i) else []) ++ log)).
Proof.
  induction n as [|n IH]; intros i log fuel Hn Hf.
  - assert ((Z.of_nat i <? Z.of_nat (length ss)) = false) as Hlt
      by (apply Z.ltb_ge; lia).
    rewrite frames_end by lia.
    replace (i `max` length ss)%nat with i by lia.
    destruct fuel; simpl; rewrite Hlt; by destruct cb.
  - destruct (decide (length ss ≤ i)%nat) as [Hge|Hlt].
    { assert ((Z.of_nat i <? Z.of_nat (length ss)) = false) as Hlt
        by (apply Z.ltb_ge; lia).
      rewrite frames_end by lia.
      replace (i `max` length ss)%nat with i by lia.
      destruct fuel; simpl; rewrite Hlt; by destruct cb. }
    destruct fuel as [|fuel]; [lia|]. simpl.
    assert ((Z.of_nat i <? Z.of_nat (length ss)) = true) as ->
      by (apply Z.ltb_lt; lia).
    destruct (lookup_lt_is_Some_2 ss i ltac:(lia)) as [s Hs].
    rewrite (frames_lookup _ _ _ Hs), reverse_cons.
    replace (i `max` length ss)%nat with (S i `max` length ss)%nat by lia.
    unfold notify, set_index, getCurrentStep. simpl.
    assert ((Z.of_nat i <? 0) = false) as -> by (apply Z.ltb_ge; lia).
    rewrite Nat2Z.id, Hs.
    unfold playing in IH.
    destruct cb; simpl;
      replace (Z.of_nat i + 1) with (Z.of_nat (S i)) by lia;
      rewrite IH by lia; [by rewrite <- app_assoc|done].
Qed.

(** X13. A call of [play()] on a controller that is not playing, with
    the index inside the loaded steps, in which no other method is
    called while it waits: it shows every step from the current one to
    the last, in order and once each (one call of the callback per
    step), and ends with [isPlaying] and [isPaused] false and the index
    at [steps.length - 1].  With no step loaded that index is [-1] and
    [getCurrentStep()] is [null].  A call on a controller that is
    playing returns at once and changes nothing. *)
Theorem play_shows_every_step c (fuel : nat) :
  0 ≤ currentStepIndex c →
  (length (steps c) - Z.to_nat (currentStepIndex c) ≤ fuel)%nat →
  (isPlaying c = true → play fuel c = Some c)
  ∧ (isPlaying c = false →
     ∃ c', play fuel c = Some c'
       ∧ steps c' = steps c
       ∧ isPlaying c' = false ∧ isPaused c' = false
       ∧ currentStepIndex c' = Z.of_nat (length (steps c)) - 1
       ∧ notified c'
         = (if onStepChange c
            then reverse (frames (steps c) (Z.to_nat (currentStepIndex c)))
            else []) ++ notified c
       ∧ (steps c = [] →
          currentStepIndex c' = -1 ∧ getCurrentStep c' = None)).
Proof.
  intros H0 Hfuel. split; intros Hp; unfold play; rewrite Hp; [done|].
  destruct c as [ss i pl pa sp cb log]. simpl in *.
  pose proof (play_loop_run ss sp cb fuel (Z.to_nat i) log fuel
                ltac:(lia) ltac:(lia)) as Hrun.
  unfold playing in Hrun. rewrite Z2Nat.id in Hrun by lia.
  rewrite Hrun. simpl.
  assert ((Z.of_nat (length ss) <=? Z.of_nat (Z.to_nat i `max` length ss))
          = true) as -> by (apply Z.leb_le; lia).
  eexists. split; [done|]. simpl. split_and!; try done.
  by intros ->.
Qed.

End Facts.

Lemma stepping_saturates_witness :
  let c := loadSteps constructor [10; 20; 30] in
  currentStepIndex (Nat.iter 5 stepForward c) = 2
  ∧ currentStepIndex (stepBackward (stepForward c)) = 0.
Proof.
  intros c.
  destruct (stepping_saturates c 5) as ((_ & H1) & _ & H2).
  - vm_compute. split; discriminate.
  - split; [exact H1|]. apply H2. reflexivity.
Defined.


Lemma setSpeed_delay_witness :
  ∃ d d', speedToDelay (speed (setSpeed (@constructor Z) 0)) = Finite d
          ∧ speedToDelay (speed (setSpeed (@constructor Z) 1000)) = Finite d'
          ∧ d' ≤ d.
Proof.
  destruct (setSpeed_delay (@constructor Z) 0 1000)
    as (d & d' & Hd & Hd' & [_ Hle] & _).
  - lia.
  - exists d, d'. split; [exact Hd|]. split; [exact Hd'|exact Hle].
Defined.

Lemma play_shows_every_step_witness :
  ∃ c', play 3 (perform (loadSteps constructor [10; 20; 30]) Install)
        = Some c'
        ∧ currentStepIndex c' = 2
        ∧ notified c' = [(Some 30, 2); (Some 20, 1); (Some 10, 0)].
Proof.
  destruct (play_shows_every_step
              (perform (loadSteps constructor [10; 20; 30]) Install) 3)
    as [_ H].
  - simpl. lia.
  - simpl. lia.
  - destruct (H eq_refl) as (c' & Hrun & _ & _ & _ & Hi & Hn & _).
    exists c'. split; [exact Hrun|]. split; [exact Hi|exact Hn].
Defined.

End ControllerFacts.

(** ** The PriorityQueue as a sorter *)

Module QueueFacts.
Import PriorityQueue PriorityQueueFacts.

Section Drain.
Context {A : Type}.
Implicit Types (l : list (entry A)) (values : list (entry A)).

(** [enqueue] of every entry of [l], first to last. *)
Definition enqueue_all l values : list (entry A) :=
  foldl (λ values e, enqueue (element e) (priority e) values) values l.

(** [while (!pq.isEmpty()) out.push(pq.dequeue())], for at most [n]
    turns. *)
Fixpoint dequeue_all (n : nat) values : list (entry A) :=
  match n with
  | O => []
  | S n' =>
      if isEmpty values then []
      else
        match dequeue values with
        | (Some x, rest) => x :: dequeue_all n' rest
        | (None, _) => []
        end
  end.

Lemma entry_eta (e : entry A) : Entry (element e) (priority e) = e.
Proof. by destruct e. Qed.

Lemma enqueue_all_sort l : ∀ st,
  enqueue_all l (sort st) = sort (st ++ l).
Proof.
  induction l as [|e l IH]; intros st; simpl.
  - by rewrite app_nil_r.
  - rewrite enqueue_sort. unfold spec_enqueue. rewrite entry_eta, IH.
    by rewrite <- app_assoc.
Qed.

Lemma dequeue_all_all n values :
  (length values ≤ n)%nat → dequeue_all n values = values.
Proof.
  revert values. induction n as [|n IH]; intros [|x rest] Hn; simpl in *;
    try done; [lia|].
  f_equal. apply IH. lia.
Qed.

Lemma enqueue_length (a : A) p values :
  length (enqueue a p values) = S (length values).
Proof.
  unfold enqueue. rewrite (Permutation_length (sort_Permutation _)).
  rewrite length_app. simpl. lia.
Qed.

(** X14. Entries put into a new queue with [enqueue] and taken out with
    [dequeue] until the queue is empty (as many turns as entries, or
    more) come out ordered by priority,
    smallest first, entries of one priority in the order in which they
    were put in; nothing is lost or added.  After every [enqueue] the
    queue is not empty and holds one entry more. *)
Theorem queue_sorts l (n : nat) :
  let out := dequeue_all (length l + n) (enqueue_all l constructor) in
  StronglySorted by_priority out
  ∧ out ≡ₚ l
  ∧ (∀ p, with_priority p out = with_priority p l)
  ∧ (∀ (a : A) p values,
       isEmpty (enqueue a p values) = false
       ∧ length (enqueue a p values) = S (length values)).
Proof.
  intros out.
  assert (out = sort l) as ->.
  { unfold out. change (@constructor A) with (sort (@nil (entry A))).
    rewrite (enqueue_all_sort l []). simpl.
    apply dequeue_all_all.
    rewrite (Permutation_length (sort_Permutation _)). lia. }
  split_and!.
  - apply sort_sorted.
  - apply sort_Permutation.
  - intros p. apply with_priority_sort.
  - intros a p values. pose proof (enqueue_length a p values) as Hl.
    split; [|done]. by destruct (enqueue a p values).
Qed.

End Drain.
End QueueFacts.

(** ** getNeighbors and manhattanDistance *)

Module NeighborFacts.
Import Grid GridFacts PathfindingFacts.

Lemma elem_of_getNeighbors r c rows cols p :
  p ∈ getNeighbors r c rows cols
  ↔ in_bounds rows cols p = true ∧ manhattanDistance p (r, c) = 1.
Proof.
  unfold getNeighbors, directions.
  rewrite list_elem_of_In, filter_In. simpl.
  unfold manhattanDistance, row, col. destruct p as [pr pc]. simpl.
  split.
  - intros [[H|[H|[H|[H|[]]]]] Hb]; injection H as <- <-; split; (done || lia).
  - intros [Hb Hd]. split; [|done].
    destruct (decide (pr = r - 1)) as [->|?];
      [left; f_equal; lia|right].
    destruct (decide (pr = r + 1)) as [->|?];
      [left; f_equal; lia|right].
    destruct (decide (pc = c - 1)) as [->|?];
      [left; f_equal; lia|right].
    left. f_equal; lia.
Qed.

Lemma getNeighbors_NoDup r c rows cols : NoDup (getNeighbors r c rows cols).
Proof.
  unfold getNeighbors. apply NoDup_ListNoDup, List.NoDup_filter.
  apply NoDup_ListNoDup. unfold directions. simpl.
  repeat (apply NoDup_cons; split;
    [rewrite ?elem_of_cons, elem_of_nil; intros H;
     repeat destruct H as [H|H]; try done; injection H; lia|]).
  apply NoDup_nil_2.
Qed.

Lemma manhattan_sym p q : manhattanDistance p q = manhattanDistance q p.
Proof. unfold manhattanDistance. lia. Qed.

(** X15. [getNeighbors(row, col, rows, cols)] lists, without repeats,
    exactly the cells inside the grid at Manhattan distance 1 from
    [(row, col)], four of them at most.  So being a neighbour is
    symmetric between cells of the grid: the grid is an undirected
    graph. *)
Theorem getNeighbors_adjacent r c rows cols :
  (∀ p, p ∈ getNeighbors r c rows cols
        ↔ in_bounds rows cols p = true ∧ manhattanDistance p (r, c) = 1)
  ∧ NoDup (getNeighbors r c rows cols)
  ∧ (length (getNeighbors r c rows cols) ≤ 4)%nat
  ∧ (∀ p, in_bounds rows cols (r, c) = true →
          p ∈ getNeighbors r c rows cols →
          (r, c) ∈ getNeighbors (row p) (col p) rows cols).
Proof.
  split_and!.
  - intros p. apply elem_of_getNeighbors.
  - apply getNeighbors_NoDup.
  - apply getNeighbors_length.
  - intros [pr pc] Hb [_ Hd]%elem_of_getNeighbors.
    apply elem_of_getNeighbors. split; [done|].
    by rewrite manhattan_sym.
Qed.

Lemma manhattan_triangle p q t :
  manhattanDistance p t ≤ manhattanDistance p q + manhattanDistance q t.
Proof. unfold manhattanDistance. lia. Qed.

Lemma manhattan_walk rows cols start walls k p :
  walk rows cols start walls k p →
  manhattanDistance start p ≤ Z.of_nat k.
Proof.
  induction 1 as [|k p q _ IH [[_ Hd]%elem_of_getNeighbors _]].
  - unfold manhattanDistance. lia.
  - pose proof (manhattan_triangle start p q).
    rewrite manhattan_sym in Hd.
    replace (row p, col p) with p in Hd by by destruct p. lia.
Qed.

(** X16. [manhattanDistance] is a distance: it is not negative, zero
    between a cell and itself only, symmetric, and obeys the triangle
    inequality.  It never overestimates: a walk on the grid from one
    cell to another, whatever the walls, has at least as many moves as
    their Manhattan distance. *)
Theorem manhattanDistance_admissible :
  (∀ p q, 0 ≤ manhattanDistance p q)
  ∧ (∀ p q, manhattanDistance p q = 0 ↔ p = q)
  ∧ (∀ p q, manhattanDistance p q = manhattanDistance q p)
  ∧ (∀ p q t,
       manhattanDistance p t ≤ manhattanDistance p q + manhattanDistance q t)
  ∧ (∀ rows cols start walls k p,
       walk rows cols start walls k p →
       manhattanDistance start p ≤ Z.of_nat k).
Proof.
  split_and!.
  - intros p q. unfold manhattanDistance. lia.
  - intros [pr pc] [qr qc]. unfold manhattanDistance, row, col. simpl. split.
    + intros H. f_equal; lia.
    + intros [= -> ->]. lia.
  - apply manhattan_sym.
  - apply manhattan_triangle.
  - apply manhattan_walk.
Qed.

End NeighborFacts.

(** ** reconstructPath *)

Module ReconstructFacts.
Import Grid GridFacts.

Section Reconstruct.
Variables (parentMap : gmap pos pos) (start : pos).

(** Every cell of the list is the parent of the next one. *)
Fixpoint lineage (l : list pos) : Prop :=
  match l with
  | p :: (q :: _) as l' => parentMap !! q = Some p ∧ lineage l'
  | _ => True
  end.

(** What the loop returns from [current] with [path] collected. *)
Lemma reconstruct_loop_lineage fuel : ∀ current path r,
  lineage (current :: path) →
  reconstruct_loop fuel parentMap start current path = Some r →
  lineage r
  ∧ (∃ pre, r = pre ++ current :: path)
  ∧ (∃ h, head r = Some h ∧ (h = start ∨ parentMap !! h = None)).
Proof.
  induction fuel as [|fuel IH]; intros current path r Hl; simpl; [done|].
  destruct (parentMap !! current) as [p|] eqn:Hp.
  - destruct (same_pos p start) eqn:Hps.
    + apply same_pos_true in Hps as ->. intros [= <-].
      split; [by split|]. split; [by exists [start]|].
      exists start. split; [done|by left].
    + intros Hrun.
      apply IH in Hrun as (Hr & (pre & ->) & Hh); [|by split].
      split; [done|]. split; [|done].
      exists (pre ++ [p]). by rewrite <- app_assoc.
  - intros [= <-]. split; [done|]. split; [by exists []|].
    exists current. split; [done|by right].
Qed.

(** A set of cells whose parents are in the set and are not the
    start: from its cells the loop never ends. *)
Lemma reconstruct_loop_cycle (S : gset pos) fuel : ∀ current path,
  (∀ n, n ∈ S → ∃ p, parentMap !! n = Some p ∧ p ≠ start ∧ p ∈ S) →
  current ∈ S →
  reconstruct_loop fuel parentMap start current path = None.
Proof.
  induction fuel as [|fuel IH]; intros current path HS Hc; simpl; [done|].
  destruct (HS current Hc) as (p & -> & Hne & Hp).
  apply same_pos_false in Hne as ->. by apply IH.
Qed.

End Reconstruct.

(** X17. [reconstructPath] follows the parent map upwards from the
    end.  A path it returns ends with the end; every cell of it is the
    parent of the next; its first cell is the start or a cell without a
    parent.  When the end has no parent the path is the end alone,
    also when the end is not the start.  When the parents of the cells
    it passes never lead to the start or to a cell without a parent (the
    map has a cycle), it never returns. *)
Theorem reconstructPath_follows_parents parentMap start end_ :
  (∀ fuel path,
     reconstructPath fuel parentMap start end_ = Some path →
     last path = Some end_
     ∧ lineage parentMap path
     ∧ ∃ h, head path = Some h ∧ (h = start ∨ parentMap !! h = None))
  ∧ (parentMap !! end_ = None →
     ∀ fuel, reconstructPath (S fuel) parentMap start end_ = Some [end_])
  ∧ (∀ S : gset pos,
       (∀ n, n ∈ S → ∃ p, parentMap !! n = Some p ∧ p ≠ start ∧ p ∈ S) →
       end_ ∈ S →
       ∀ fuel, reconstructPath fuel parentMap start end_ = None).
Proof.
  split_and!.
  - intros fuel path Hrun. unfold reconstructPath in Hrun.
    apply reconstruct_loop_lineage in Hrun as (Hl & (pre & ->) & Hh); [|done].
    split; [apply last_snoc|done].
  - intros Hnone fuel. unfold reconstructPath. simpl. by rewrite Hnone.
  - intros S HS Hend fuel. by eapply reconstruct_loop_cycle.
Qed.

End ReconstructFacts.

(** ** The paths of dijkstra and aStar *)

Module PathFacts.
Import Grid Pathfinding GridFacts PathfindingFacts NeighborFacts.

Section Path.
Variables (rows cols : Z) (start end_ : pos) (walls : gset pos).
Variable h : pos → Z.
Hypothesis h_step : ∀ p q, edge rows cols walls p q → h p ≤ 1 + h q.
Hypothesis h_end : h end_ = 0.

Local Abbreviation edge := (edge rows cols walls).
Local Abbreviation Inv := (Inv rows cols start end_ walls h).
Local Abbreviation search_loop := (search_loop rows cols start end_ walls h).

(** Every cell of the list is followed by a neighbour inside the grid
    that is not a wall. *)
Fixpoint chain (l : list pos) : Prop :=
  match l with
  | p :: (q :: _) as l' => edge p q ∧ chain l'
  | _ => True
  end.

(** A way from the start to the end. *)
Definition way (l : list pos) : Prop :=
  head l = Some start ∧ last l = Some end_ ∧ chain l.

(** The parent of a node is a cell it was reached from. *)
Definition prev_edge (c : core) : Prop :=
  ∀ n p, prev c !! n = Some p → edge p n.

Lemma prev_edge_relax_one u d c nb :
  prev_edge c → nb ∈ getNeighbors (row u) (col u) rows cols →
  prev_edge (relax_one walls h u d c nb).
Proof.
  intros Hc Hnb. unfold relax_one.
  destruct (has walls nb) eqn:Hw; simpl; [done|].
  destruct (has (vis c) nb); [done|].
  destruct (improves (d + 1) (g c !! nb)); [|done].
  intros n p. simpl. intros [[<- <-]|[_ Hp]]%lookup_insert_Some.
  - split; [done|]. by apply has_false.
  - by apply Hc.
Qed.

Lemma prev_edge_relax_all u d todo : ∀ c,
  prev_edge c →
  (∀ nb, nb ∈ todo → nb ∈ getNeighbors (row u) (col u) rows cols) →
  prev_edge (relax_all walls h u d todo c).
Proof.
  unfold relax_all. induction todo as [|nb todo IH]; intros c Hc Hin; [done|].
  simpl. apply IH.
  - apply prev_edge_relax_one; [done|]. apply Hin. by left.
  - intros nb' H. apply Hin. by right.
Qed.

Lemma reconstruct_chain P c : Inv P c → prev_edge c →
  ∀ pfuel t d acc path,
    g c !! t = Some d → chain (t :: acc) →
    reconstruct_loop pfuel (prev c) start t acc = Some path →
    head path = Some start ∧ chain path ∧ ∃ pre, path = pre ++ t :: acc.
Proof.
  intros HI He. induction pfuel as [|pfuel IH];
    intros t d acc path Hd Hch; simpl; [done|].
  destruct (prev c !! t) as [p|] eqn:Hp.
  - pose proof (He t p Hp) as Hpt.
    destruct (same_pos p start) eqn:Hps.
    + apply same_pos_true in Hps as ->. intros [= <-].
      split; [done|]. split; [by split|]. by exists [start].
    + destruct (I_prev _ _ _ _ _ _ _ _ HI t p Hp) as [_ (dp & Hdp & _)].
      intros Hrun.
      destruct (IH p dp (t :: acc) path Hdp ltac:(by split) Hrun)
        as (Hh & Hc & pre & ->).
      split; [done|]. split; [done|]. exists (pre ++ [p]).
      by rewrite <- app_assoc.
  - intros [= <-]. split; [|split; [done|by exists []]].
    simpl. f_equal. destruct (decide (t = start)) as [|Hne]; [done|].
    destruct (I_prev_def _ _ _ _ _ _ _ _ HI t d Hd Hne) as [p Hp'].
    by rewrite Hp in Hp'.
Qed.

Lemma search_loop_way fuel pfuel : ∀ c path d V,
  Inv settled c → prev_edge c →
  search_loop fuel pfuel c = Some (Found path d V) → way path.
Proof.
  induction fuel as [|fuel IH]; intros c path d V HI He; simpl.
  { by destruct (pq c). }
  destruct (pq c) as [|e rest] eqn:Hpq; [done|].
  set (u := PriorityQueue.element e).
  destruct (has (vis c) u) eqn:Hvis.
  { apply has_true in Hvis. apply IH; [by eapply Inv_skip|done]. }
  apply has_false in Hvis.
  destruct (pop_exact rows cols start end_ walls h h_step h_end c e rest
              HI Hpq Hvis) as (du & Hdu & _).
  fold u in Hdu.
  destruct (same_pos u end_) eqn:Hue.
  - apply same_pos_true in Hue. unfold reconstructPath.
    destruct (reconstruct_loop pfuel (prev c) start end_ []) as [p|] eqn:Hr;
      [|done].
    intros [= <- _ _].
    destruct (reconstruct_chain settled c HI He pfuel end_ du [] p)
      as (Hh & Hc & pre & ->); [by rewrite <- Hue|done|done|].
    split; [done|]. split; [apply last_snoc|done].
  - apply same_pos_false in Hue. rewrite Hdu.
    apply IH.
    + apply Inv_relax_all; [by apply Inv_visit| |done|done].
      apply elem_of_add. by left.
    + by apply prev_edge_relax_all.
Qed.

Lemma prev_edge_initial : prev_edge (initial start h).
Proof. intros n p. simpl. by rewrite lookup_empty. Qed.

(** The outcome of the search, with the way it found. *)
Lemma search_way :
  ∃ o,
    (∀ fuel, (grid_fuel rows cols ≤ fuel)%nat →
       search_loop fuel fuel (initial start h) = Some o)
    ∧ Post rows cols start end_ walls h o
    ∧ match o with
      | NoPath _ => True
      | Found path _ _ => way path
      end.
Proof.
  destruct (search_spec rows cols start end_ walls h h_step h_end)
    as (o & Hrun & Hpost).
  exists o. split; [done|]. split; [done|].
  destruct o as [|path d V]; [done|].
  eapply (search_loop_way _ _ (initial start h)).
  - apply Inv_initial.
  - apply prev_edge_initial.
  - by apply (Hrun (grid_fuel rows cols)).
Qed.

End Path.

(** What a [path-found] step reports. *)
Definition shortest_way rows cols start end_ walls (s : step) : Prop :=
  type s = "path-found"
  ∧ ∃ p d,
      path s = Some p ∧ distance s = Some d
      ∧ 0 ≤ d
      ∧ walk rows cols start walls (Z.to_nat d) end_
      ∧ (∀ k, walk rows cols start walls k end_ → d ≤ Z.of_nat k)
      ∧ Z.of_nat (length p) = d + 1
      ∧ way rows cols start end_ walls p.

Lemma shortest_way_final rows cols start end_ walls h o :
  (∃ k, walk rows cols start walls k end_) →
  Post rows cols start end_ walls h o →
  match o with
  | NoPath _ => True
  | Found p _ _ => way rows cols start end_ walls p
  end →
  shortest_way rows cols start end_ walls (final_step o).
Proof.
  intros [k Hk] Hpost Hway. destruct o as [V|p d V]; simpl in *.
  { by destruct (Hpost k). }
  destruct Hpost as (dz & -> & H0 & Hw & Hmin & Hlen & _).
  split; [done|]. exists p, dz. simpl. split_and!; try done. lia.
Qed.

(** X18. When the end can be reached from the start, [dijkstra] ends
    with a [path-found] step whose [distance] is the number of moves of
    a shortest walk from the start to the end, and whose [path] is such
    a walk: it begins with the start, ends with the end, every cell is
    followed by a neighbour inside the grid that is not a wall, and it
    has [distance + 1] cells. *)
Theorem dijkstra_shortest_path rows cols start end_ walls :
  (∃ k, walk rows cols start walls k end_) →
  ∃ steps s,
    (∀ fuel, (grid_fuel rows cols ≤ fuel)%nat →
       dijkstra fuel rows cols start end_ walls = Some steps)
    ∧ last steps = Some s
    ∧ shortest_way rows cols start end_ walls s.
Proof.
  intros Hreach.
  destruct (search_way rows cols start end_ walls zero_h
              (zero_step rows cols walls) (zero_end end_))
    as (o & Hrun & Hpost & Hway).
  pose proof (dijkstra_loop_search rows cols start end_ walls
                (grid_fuel rows cols) (grid_fuel rows cols)
                (initial start zero_h) [dijkstra_init start end_]
                (Inv_initial rows cols start end_ walls zero_h)) as Hsim.
  rewrite Hrun in Hsim by done. destruct Hsim as (ext & Heq & Hext).
  eexists _, (final_step o). split_and!.
  - intros fuel Hf. unfold dijkstra.
    by apply (dijkstra_loop_mono (grid_fuel rows cols) fuel
                (grid_fuel rows cols) fuel).
  - by rewrite !app_assoc, last_snoc.
  - by eapply shortest_way_final.
Qed.

(** X19. When the end can be reached from the start, [aStar] ends with
    a [path-found] step whose [distance] is the number of moves of a
    shortest walk from the start to the end, and whose [path] is such a
    walk: it begins with the start, ends with the end, every cell is
    followed by a neighbour inside the grid that is not a wall, and it
    has [distance + 1] cells. *)
Theorem aStar_shortest_path rows cols start end_ walls :
  (∃ k, walk rows cols start walls k end_) →
  ∃ steps s,
    (∀ fuel, (grid_fuel rows cols ≤ fuel)%nat →
       aStar fuel rows cols start end_ walls = Some steps)
    ∧ last steps = Some s
    ∧ shortest_way rows cols start end_ walls s.
Proof.
  intros Hreach.
  destruct (search_way rows cols start end_ walls (manhattan_h end_)
              (manhattan_step rows cols walls end_) (manhattan_end end_))
    as (o & Hrun & Hpost & Hway).
  pose proof (aStar_loop_search rows cols start end_ walls
                (grid_fuel rows cols) (grid_fuel rows cols)
                (initial start (manhattan_h end_))
                (<[start := manhattanDistance start end_]> ∅)
                [aStar_init start end_]) as Hsim.
  rewrite Hrun in Hsim by done. destruct Hsim as (ext & Heq & Hext).
  eexists _, (final_step o). split_and!.
  - intros fuel Hf. unfold aStar.
    by apply (aStar_loop_mono (grid_fuel rows cols) fuel
                (grid_fuel rows cols) fuel).
  - by rewrite !app_assoc, last_snoc.
  - by eapply shortest_way_final.
Qed.

(** A walk on the grid 2 x 3 with a wall at (0, 1), from (0, 0) to
    (1, 2). *)
Local Ltac example_walk :=
  assert (∀ p q, In q (getNeighbors (row p) (col p) 2 3) →
                   q ≠ (0, 1) → edge 2 3 {[(0, 1)]} p q) as Hedge
    by (intros p q Hq Hw; split; [by apply list_elem_of_In|];
        by intros ?%elem_of_singleton);
  exists 3%nat;
  apply (walk_step _ _ _ _ 2 (1, 1));
    [|apply Hedge; [vm_compute; tauto|done]];
  apply (walk_step _ _ _ _ 1 (1, 0));
    [|apply Hedge; [vm_compute; tauto|done]];
  apply (walk_step _ _ _ _ 0 (0, 0));
    [|apply Hedge; [vm_compute; tauto|done]];
  apply walk_start.

Lemma dijkstra_shortest_path_witness :
  ∃ steps s,
    dijkstra 36 2 3 (0, 0) (1, 2) {[(0, 1)]} = Some steps
    ∧ last steps = Some s
    ∧ shortest_way 2 3 (0, 0) (1, 2) {[(0, 1)]} s.
Proof.
  destruct (dijkstra_shortest_path 2 3 (0, 0) (1, 2) {[(0, 1)]})
    as (steps & s & Hrun & Hlast & Hs).
  { example_walk. }
  exists steps, s. split; [apply Hrun; vm_compute; lia|]. by split.
Defined.

Lemma aStar_shortest_path_witness :
  ∃ steps s,
    aStar 36 2 3 (0, 0) (1, 2) {[(0, 1)]} = Some steps
    ∧ last steps = Some s
    ∧ shortest_way 2 3 (0, 0) (1, 2) {[(0, 1)]} s.
Proof.
  destruct (aStar_shortest_path 2 3 (0, 0) (1, 2) {[(0, 1)]})
    as (steps & s & Hrun & Hlast & Hs).
  { example_walk. }
  exists steps, s. split; [apply Hrun; vm_compute; lia|]. by split.
Defined.

(** *** Grids without walls *)

(** Without walls a cell of the grid is as many moves from the start as
    the Manhattan distance says. *)
Lemma walk_open rows cols start :
  in_bounds rows cols start = true →
  ∀ n p, in_bounds rows cols p = true →
         Z.to_nat (manhattanDistance start p) = n →
         walk rows cols start ∅ n p.
Proof.
  intros Hs. induction n as [|n IH]; intros p Hp Hn.
  - assert (p = start) as ->; [|apply walk_start].
    revert Hn. unfold manhattanDistance, row, col.
    destruct p, start. simpl. intros Hn. f_equal; lia.
  - destruct p as [pr pc], start as [sr sc] eqn:Es.
    unfold in_bounds, manhattanDistance, row, col in *. simpl in *.
    rewrite !andb_true_iff, !Z.leb_le, !Z.ltb_lt in Hs, Hp.
    set (q := if decide (pr = sr)
              then (pr, if decide (sc < pc) then pc - 1 else pc + 1)
              else (if decide (sr < pr) then pr - 1 else pr + 1, pc)).
    apply (walk_step _ _ _ _ n q).
    + apply IH; unfold q; repeat case_decide; simpl;
        rewrite ?andb_true_iff, ?Z.leb_le, ?Z.ltb_lt; lia.
    + split; [|apply not_elem_of_empty].
      apply elem_of_getNeighbors. split.
      * unfold in_bounds, row, col. simpl.
        rewrite !andb_true_iff, !Z.leb_le, !Z.ltb_lt. lia.
      * unfold manhattanDistance, row, col, q.
        repeat case_decide; simpl; lia.
Qed.

(** What the last step of a run on a grid without walls reports. *)
Definition straight (start end_ : pos) (s : step) : Prop :=
  type s = "path-found"
  ∧ distance s = Some (manhattanDistance start end_)
  ∧ ∃ p, path s = Some p
         ∧ Z.of_nat (length p) = manhattanDistance start end_ + 1.

Lemma straight_final rows cols start end_ h o :
  in_bounds rows cols start = true → in_bounds rows cols end_ = true →
  Post rows cols start end_ ∅ h o →
  straight start end_ (final_step o)
  ∧ ∃ p d V, o = Found p (Some d) V ∧ d = manhattanDistance start end_.
Proof.
  intros Hs He Hpost.
  pose proof (walk_open rows cols start Hs _ end_ He eq_refl) as Hw.
  assert (0 ≤ manhattanDistance start end_)
    by (unfold manhattanDistance; lia).
  destruct o as [V|p d V]; simpl in *.
  { by destruct (Hpost _ Hw). }
  destruct Hpost as (dz & -> & H0 & Hwz & Hmin & Hlen & _).
  apply Hmin in Hw. apply manhattan_walk in Hwz.
  assert (dz = manhattanDistance start end_) as -> by lia.
  split; [|by eexists _, _, _].
  split; [done|]. split; [done|]. exists p. split; [done|]. lia.
Qed.

(** X20. On a grid without walls, with the start and the end inside
    it, [dijkstra] and [aStar] both end with a [path-found] step whose
    distance is the Manhattan distance from the start to the end and
    whose path has one cell more.  Every cell [aStar] visits lies on a
    shortest way: its distances to the start and to the end add up to
    that distance, so [aStar] stays inside the rectangle the start and
    the end span. *)
Theorem open_grid_distance rows cols start end_ :
  in_bounds rows cols start = true →
  in_bounds rows cols end_ = true →
  ∃ stepsD stepsA sD sA VA,
    (∀ fuel, (grid_fuel rows cols ≤ fuel)%nat →
       dijkstra fuel rows cols start end_ ∅ = Some stepsD)
    ∧ (∀ fuel, (grid_fuel rows cols ≤ fuel)%nat →
         aStar fuel rows cols start end_ ∅ = Some stepsA)
    ∧ last stepsD = Some sD ∧ straight start end_ sD
    ∧ last stepsA = Some sA ∧ straight start end_ sA
    ∧ visited sA = Some VA
    ∧ ∀ n, n ∈ VA →
           manhattanDistance start n + manhattanDistance n end_
           = manhattanDistance start end_.
Proof.
  intros Hs He.
  destruct (dijkstra_spec rows cols start end_ ∅)
    as (oD & extD & HD & _ & HpD).
  destruct (aStar_spec rows cols start end_ ∅)
    as (oA & extA & HA & _ & HpA).
  destruct (straight_final _ _ _ _ _ _ Hs He HpD) as [HsD _].
  destruct (straight_final _ _ _ _ _ _ Hs He HpA)
    as [HsA (p & d & VA & -> & Hd)].
  eexists _, _, (final_step oD), _, VA.
  split; [exact HD|]. split; [exact HA|].
  split; [by rewrite app_comm_cons, last_snoc|]. split; [done|].
  split; [by rewrite app_comm_cons, last_snoc|]. split; [done|].
  split; [done|]. intros n Hn.
  destruct HpA as (dz & [= <-] & _ & _ & _ & _ & _ & Hvis & _).
  destruct (Hvis n Hn) as (k & Hk & Hle).
  apply manhattan_walk in Hk. unfold manhattan_h in Hle.
  pose proof (manhattan_triangle start n end_). lia.
Qed.

Lemma open_grid_distance_witness :
  ∃ stepsD sD,
    dijkstra 161 5 6 (1, 1) (3, 4) ∅ = Some stepsD
    ∧ last stepsD = Some sD
    ∧ distance sD = Some 5.
Proof.
  destruct (open_grid_distance 5 6 (1, 1) (3, 4))
    as (stepsD & stepsA & sD & sA & VA & HD & _ & Hl & (_ & Hd & _) & _).
  - reflexivity.
  - reflexivity.
  - exists stepsD, sD. split; [apply HD; vm_compute; lia|].
    split; [exact Hl|exact Hd].
Defined.

End PathFacts.

(** ** What bfs and dfs visit *)

Module ReachFacts.
Import Grid Traversal GridFacts TraversalFacts.

Section Reach.
Variables (rows cols : Z) (start : pos) (walls : gset pos).

Local Abbreviation edge := (PathfindingFacts.edge rows cols walls).
Local Abbreviation walk := (PathfindingFacts.walk rows cols start walls).

(** The cells that can be reached from the start by moves to neighbours
    inside the grid that are not walls. *)
Definition reachable (p : pos) : Prop := ∃ k, walk k p.

Lemma reachable_start : reachable start.
Proof. exists 0%nat. apply PathfindingFacts.walk_start. Qed.

Lemma reachable_step p q : reachable p → edge p q → reachable q.
Proof.
  intros [k Hk] He. exists (S k). by eapply PathfindingFacts.walk_step.
Qed.

(** A set that holds the start and the neighbours of its cells holds
    every reachable cell. *)
Lemma closed_reachable (V : gset pos) :
  start ∈ V → (∀ p q, p ∈ V → edge p q → q ∈ V) →
  ∀ p, reachable p → p ∈ V.
Proof.
  intros Hs Hc p [k Hk]. induction Hk as [|k p q _ IH He]; [done|].
  by eapply Hc.
Qed.

(** *** bfs *)

(** The loop over the neighbours of [u], a reachable cell. *)
Lemma bfs_neighbors_reach u nbs : ∀ seen queue steps seen' queue' steps',
  bfs_neighbors walls u nbs seen queue steps = (seen', queue', steps') →
  seen ⊆ seen'
  ∧ (∀ nb, nb ∈ nbs → nb ∉ walls → nb ∈ seen')
  ∧ (∀ p, p ∈ seen' → p ∉ seen → p ∈ nbs ∧ (p ∉ walls) ∧ p ∈ queue')
  ∧ (∀ p, p ∈ queue' → p ∈ queue ∨ (p ∈ seen' ∧ p ∉ seen))
  ∧ (∀ p, p ∈ queue → p ∈ queue').
Proof.
  induction nbs as [|nb rest IH]; intros seen queue steps seen' queue' steps';
    simpl.
  - intros [= <- <- <-]. split_and!; try done.
    + by intros nb ?%elem_of_nil.
    + by left.
  - destruct (has seen nb) eqn:Hseen; simpl.
    { apply has_true in Hseen. intros H.
      destruct (IH _ _ _ _ _ _ H) as (Hsub & Hin & Hnew & Hq & Hq').
      split_and!; try done.
      - intros p [->|Hp]%elem_of_cons Hw; [by apply Hsub|by apply Hin].
      - intros p Hp Hp'. destruct (Hnew p Hp Hp') as (? & ? & ?).
        split_and!; [by right|done..]. }
    apply has_false in Hseen.
    destruct (has walls nb) eqn:Hwall; simpl.
    { apply has_true in Hwall. intros H.
      destruct (IH _ _ _ _ _ _ H) as (Hsub & Hin & Hnew & Hq & Hq').
      split_and!; try done.
      - intros p [->|Hp]%elem_of_cons Hw; [done|by apply Hin].
      - intros p Hp Hp'. destruct (Hnew p Hp Hp') as (? & ? & ?).
        split_and!; [by right|done..]. }
    apply has_false in Hwall. intros H.
    destruct (IH _ _ _ _ _ _ H) as (Hsub & Hin & Hnew & Hq & Hq').
    assert (nb ∈ seen') as Hnb by (apply Hsub, elem_of_add; by left).
    unfold Queue.enqueue in *.
    split_and!.
    + etrans; [apply (add_subseteq seen nb)|done].
    + intros p [->|Hp]%elem_of_cons Hw; [done|by apply Hin].
    + intros p Hp Hp'. destruct (decide (p = nb)) as [->|Hne].
      * split_and!; [by left|done|]. apply Hq'. apply elem_of_app.
        right. by left.
      * destruct (Hnew p Hp) as (? & ? & ?).
        { intros [?|?]%elem_of_add; done. }
        split_and!; [by right|done..].
    + intros p Hp. destruct (Hq p Hp) as [[Hp'|Hp']%elem_of_app|[Hp1 Hp2]].
      * by left.
      * apply list_elem_of_singleton in Hp' as ->. by right.
      * right. split; [done|]. intros Hp3. apply Hp2, elem_of_add. by right.
    + intros p Hp. apply Hq', elem_of_app. by left.
Qed.

(** The invariant of the loop of [bfs]: the visited cells are
    reachable, the queued cells are visited, and the neighbours of a
    visited cell that has left the queue are visited. *)
Definition bfs_inv (seen : gset pos) (queue : list pos) : Prop :=
  start ∈ seen
  ∧ (∀ p, p ∈ seen → reachable p)
  ∧ (∀ p, p ∈ queue → p ∈ seen)
  ∧ (∀ p q, p ∈ seen → p ∉ queue → edge p q → q ∈ seen).

Lemma bfs_loop_reach fuel : ∀ seen queue steps seen' steps',
  bfs_inv seen queue →
  bfs_loop fuel rows cols walls seen queue steps = Some (seen', steps') →
  ∀ p, p ∈ seen' ↔ reachable p.
Proof.
  induction fuel as [|fuel IH]; intros seen queue steps seen' steps'
    (Hs & Hr & Hq & Hc).
  - destruct queue as [|u queue]; simpl; [|done]. intros [= <- <-] p.
    split; [apply Hr|]. apply closed_reachable; [done|].
    intros x y Hx. apply Hc; [done|]. apply not_elem_of_nil.
  - destruct queue as [|u queue]; simpl.
    { intros [= <- <-] p.
      split; [apply Hr|]. apply closed_reachable; [done|].
      intros x y Hx. apply Hc; [done|]. apply not_elem_of_nil. }
    destruct (bfs_neighbors walls u
                (getNeighbors (row u) (col u) rows cols) seen queue _)
      as [[seen1 queue1] steps1] eqn:Hnb.
    destruct (bfs_neighbors_reach _ _ _ _ _ _ _ _ Hnb)
      as (Hsub & Hin & Hnew & Hq1 & Hq1').
    assert (u ∈ seen) as Hu by (apply Hq; by left).
    apply IH. split_and!.
    + by apply Hsub.
    + intros p Hp. destruct (decide (p ∈ seen)) as [?|Hp']; [by apply Hr|].
      destruct (Hnew p Hp Hp') as (Hpn & Hpw & _).
      apply (reachable_step u); [by apply Hr|done].
    + intros p Hp. destruct (Hq1 p Hp) as [?|[? _]]; [|done].
      apply Hsub, Hq. by right.
    + intros p q Hp Hpq [Hq' Hw].
      destruct (decide (p ∈ seen)) as [Hps|Hps].
      * destruct (decide (p = u)) as [->|Hne]; [by apply Hin|].
        apply Hsub. apply (Hc p q); [done| |done].
        intros [?|?]%elem_of_cons; [done|]. by apply Hpq, Hq1'.
      * destruct (Hnew p Hp Hps) as (_ & _ & ?). done.
Qed.

Lemma bfs_inv_initial : bfs_inv {[start]} [start].
Proof.
  split_and!.
  - by apply elem_of_singleton.
  - intros p ->%elem_of_singleton. apply reachable_start.
  - intros p ->%list_elem_of_singleton. by apply elem_of_singleton.
  - intros p q ->%elem_of_singleton Hn. destruct Hn. by left.
Qed.

(** *** dfs *)

(** What a call that turns [seen] into [seen'] has added: reachable
    cells whose neighbours are in [seen']. *)
Definition dfs_added (seen seen' : gset pos) : Prop :=
  seen ⊆ seen'
  ∧ ∀ p, p ∈ seen' → p ∉ seen →
         reachable p ∧ (p ∉ walls) ∧ ∀ q, edge p q → q ∈ seen'.

Lemma dfs_added_refl seen : dfs_added seen seen.
Proof. split; [done|]. by intros p ? ?. Qed.

Lemma dfs_added_trans s1 s2 s3 :
  dfs_added s1 s2 → dfs_added s2 s3 → dfs_added s1 s3.
Proof.
  intros [H12 Hn12] [H23 Hn23]. split; [by etrans|].
  intros p Hp Hp1. destruct (decide (p ∈ s2)) as [Hp2|Hp2].
  - destruct (Hn12 p Hp2 Hp1) as (? & ? & Hc). split_and!; [done..|].
    intros q Hq. by apply H23, Hc.
  - by apply Hn23.
Qed.

Lemma dfs_neighbors_reach fuel node depth :
  (∀ nb d seen steps seen' steps',
     dfsHelper fuel rows cols walls nb d seen steps = Some (seen', steps') →
     reachable nb →
     dfs_added seen seen' ∧ (nb ∉ walls → nb ∈ seen')) →
  reachable node →
  ∀ nbs seen steps seen' steps',
    dfs_neighbors (dfsHelper fuel rows cols walls) walls node depth
                  nbs seen steps = Some (seen', steps') →
    (∀ nb, nb ∈ nbs → nb ∈ getNeighbors (row node) (col node) rows cols) →
    dfs_added seen seen' ∧ (∀ nb, nb ∈ nbs → nb ∉ walls → nb ∈ seen').
Proof.
  intros Hrec Hnode.
  induction nbs as [|nb rest IH]; intros seen steps seen' steps'; simpl.
  - intros [= <- <-] _. split; [apply dfs_added_refl|].
    by intros nb ?%elem_of_nil.
  - intros Hrun Hin.
    assert (∀ nb', nb' ∈ rest →
              nb' ∈ getNeighbors (row node) (col node) rows cols) as Hin'
      by (intros; apply Hin; by right).
    destruct (has seen nb) eqn:Hseen; simpl in Hrun.
    { apply has_true in Hseen.
      destruct (IH _ _ _ _ Hrun Hin') as [Ha Hall]. split; [done|].
      intros p [->|Hp]%elem_of_cons Hw; [by apply Ha|by apply Hall]. }
    destruct (has walls nb) eqn:Hwall; simpl in Hrun.
    { apply has_true in Hwall.
      destruct (IH _ _ _ _ Hrun Hin') as [Ha Hall]. split; [done|].
      intros p [->|Hp]%elem_of_cons Hw; [done|by apply Hall]. }
    apply has_false in Hwall.
    destruct (dfsHelper fuel rows cols walls nb (depth + 1) seen _)
      as [[seen1 steps1]|] eqn:Hcall; [|done].
    destruct (Hrec _ _ _ _ _ _ Hcall) as [Ha1 Hnb].
    { apply (reachable_step node); [done|]. split; [|done].
      apply Hin. by left. }
    destruct (IH _ _ _ _ Hrun Hin') as [Ha2 Hall].
    split; [by eapply dfs_added_trans|].
    intros p [->|Hp]%elem_of_cons Hw; [|by apply Hall].
    apply Ha2. by apply Hnb.
Qed.

Lemma dfsHelper_reach fuel : ∀ node depth seen steps seen' steps',
  dfsHelper fuel rows cols walls node depth seen steps
  = Some (seen', steps') →
  reachable node →
  dfs_added seen seen' ∧ (node ∉ walls → node ∈ seen').
Proof.
  induction fuel as [|fuel IH]; intros node depth seen steps seen' steps';
    simpl.
  - destruct (has seen node) eqn:Hseen; simpl.
    + apply has_true in Hseen. intros [= <- <-] _.
      split; [apply dfs_added_refl|done].
    + destruct (has walls node) eqn:Hwall; [|done].
      apply has_true in Hwall. intros [= <- <-] _.
      split; [apply dfs_added_refl|done].
  - destruct (has seen node) eqn:Hseen; simpl.
    { apply has_true in Hseen. intros [= <- <-] _.
      split; [apply dfs_added_refl|done]. }
    destruct (has walls node) eqn:Hwall; simpl.
    { apply has_true in Hwall. intros [= <- <-] _.
      split; [apply dfs_added_refl|done]. }
    apply has_false in Hseen, Hwall. intros Hrun Hnode.
    destruct (dfs_neighbors_reach fuel node depth IH Hnode _ _ _ _ _ Hrun)
      as [[Hsub Hnew] Hall]; [done|].
    assert (node ∈ seen') as Hin by (apply Hsub, elem_of_add; by left).
    split; [|done]. split.
    + etrans; [apply (add_subseteq seen node)|done].
    + intros p Hp Hps. destruct (decide (p = node)) as [->|Hne].
      * split_and!; [done..|]. intros q [Hq Hw]. by apply Hall.
      * apply Hnew; [done|]. intros [?|?]%elem_of_add; done.
Qed.

End Reach.

(** The [complete] step of [bfs] and the reachable cells. *)
Lemma bfs_complete_reachable rows cols start walls :
  ∃ steps s,
    (∀ fuel, (grid_fuel rows cols ≤ fuel)%nat →
       bfs fuel rows cols start walls = Some steps)
    ∧ last steps = Some s ∧ type s = "complete"
    ∧ ∀ p, p ∈ visited s ↔ reachable rows cols start walls p.
Proof.
  destruct (bfs_spec rows cols start walls) as (ext & seen' & Hrun & _).
  eexists _, _. split; [exact Hrun|].
  split; [by rewrite app_comm_cons, last_snoc|]. split; [done|]. simpl.
  specialize (Hrun _ (Nat.le_refl _)). unfold bfs in Hrun.
  destruct (bfs_loop _ _ _ _ _ _ _) as [[seen1 steps1]|] eqn:Hloop; [|done].
  injection Hrun as Hrun. unfold push in Hrun.
  rewrite app_comm_cons in Hrun. apply app_inj_tail in Hrun as [_ [= ->]].
  eapply bfs_loop_reach; [|exact Hloop].
  replace (add ∅ start) with ({[start]} : gset pos)
    by (unfold add; by rewrite (right_id_L ∅ (∪))).
  apply bfs_inv_initial.
Qed.

(** X21. [bfs] ends with a [complete] step whose visited set holds
    exactly the cells that can be reached from the start by moves to
    neighbours inside the grid that are not walls (the start itself
    among them, wall or not). *)
Theorem bfs_visits_reachable rows cols start walls :
  ∃ steps s,
    (∀ fuel, (grid_fuel rows cols ≤ fuel)%nat →
       bfs fuel rows cols start walls = Some steps)
    ∧ last steps = Some s ∧ type s = "complete"
    ∧ ∀ p, p ∈ visited s ↔ reachable rows cols start walls p.
Proof. apply bfs_complete_reachable. Qed.

(** X22. When the start is not a wall, [dfs] ends with a [complete]
    step whose visited set holds exactly the cells that can be reached
    from the start, the set [bfs] ends with.  When the start is a wall,
    [dfs] visits nothing. *)
Theorem dfs_visits_reachable rows cols start walls :
  ∃ steps s stepsB sB,
    (∀ fuel, (grid_fuel rows cols ≤ fuel)%nat →
       dfs fuel rows cols start walls = Some steps)
    ∧ (∀ fuel, (grid_fuel rows cols ≤ fuel)%nat →
         bfs fuel rows cols start walls = Some stepsB)
    ∧ last steps = Some s ∧ type s = "complete"
    ∧ last stepsB = Some sB
    ∧ (start ∉ walls →
       (∀ p, p ∈ visited s ↔ reachable rows cols start walls p)
       ∧ visited s = visited sB)
    ∧ (start ∈ walls → visited s = ∅).
Proof.
  destruct (bfs_complete_reachable rows cols start walls)
    as (stepsB & sB & HrunB & HlastB & _ & HreachB).
  destruct (dfs_spec rows cols start walls) as (ext & seen' & Hrun & _).
  eexists _, _, stepsB, sB. split; [exact Hrun|]. split; [exact HrunB|].
  split; [by rewrite app_comm_cons, last_snoc|]. split; [done|].
  split; [done|]. simpl.
  specialize (Hrun _ (Nat.le_refl _)). unfold dfs in Hrun.
  destruct (dfsHelper _ _ _ _ _ _ _ _) as [[seen1 steps1]|] eqn:Hcall;
    [|done].
  injection Hrun as Hrun. unfold push in Hrun.
  rewrite app_comm_cons in Hrun. apply app_inj_tail in Hrun as [_ [= ->]].
  split.
  - intros Hw.
    destruct (dfsHelper_reach _ _ _ _ _ _ _ _ _ _ _ Hcall
                (reachable_start rows cols start walls))
      as [[_ Hnew] Hstart].
    assert (∀ p, p ∈ seen' ↔ reachable rows cols start walls p) as Hiff.
    { intros p. split.
      - intros Hp. by apply Hnew.
      - apply closed_reachable; [by apply Hstart|].
        intros x y Hx. by apply Hnew. }
    split; [done|]. apply set_eq. intros p. by rewrite Hiff, HreachB.
  - intros Hw. rewrite dfsHelper_guard in Hcall by by right.
    by injection Hcall as <- _.
Qed.

(** *** bfs visits level by level *)

Section Levels.
Variables (rows cols : Z) (start : pos) (walls : gset pos).

Local Abbreviation edge := (PathfindingFacts.edge rows cols walls).
Local Abbreviation walk := (PathfindingFacts.walk rows cols start walls).

(** [d] is the distance of [p] from the start: the number of moves of a
    shortest walk to it. *)
Definition dist (p : pos) (d : nat) : Prop :=
  walk d p ∧ ∀ k, walk k p → (d ≤ k)%nat.

(** The cells of the [visit] steps, in the order of the steps. *)
Definition visit_order (steps : list step) : list pos :=
  omap (λ s, if String.eqb (type s) "visit" then current s else None) steps.

Lemma visit_order_app s1 s2 :
  visit_order (s1 ++ s2) = visit_order s1 ++ visit_order s2.
Proof. apply omap_app. Qed.

(** The loop over the neighbours of [u] puts the cells [new] into the
    visited set and at the end of the queue: the neighbours that are
    neither walls nor visited, each once. *)
Lemma bfs_neighbors_new u nbs : ∀ seen queue steps,
  ∃ new ext,
    bfs_neighbors walls u nbs seen queue steps
    = (list_to_set new ∪ seen, queue ++ new, steps ++ ext)
    ∧ NoDup new
    ∧ (∀ p, p ∈ new ↔ p ∈ nbs ∧ (p ∉ walls) ∧ (p ∉ seen))
    ∧ visit_order ext = [].
Proof.
  induction nbs as [|nb rest IH]; intros seen queue steps; simpl.
  - exists [], []. rewrite !app_nil_r, list_to_set_nil, (left_id_L ∅ (∪)).
    split; [done|]. split; [constructor|]. split; [|done].
    intros p. split; [by intros ?%elem_of_nil|].
    by intros [?%elem_of_nil _].
  - destruct (has seen nb) eqn:Hseen; simpl.
    { apply has_true in Hseen.
      destruct (IH seen queue steps) as (new & ext & -> & Hnd & Hnew & Hvo).
      exists new, ext. split; [done|]. split; [done|]. split; [|done].
      intros p. rewrite Hnew, elem_of_cons. split; [tauto|].
      intros [[->|?] [? ?]]; [done|tauto]. }
    apply has_false in Hseen.
    destruct (has walls nb) eqn:Hwall; simpl.
    { apply has_true in Hwall.
      destruct (IH seen queue steps) as (new & ext & -> & Hnd & Hnew & Hvo).
      exists new, ext. split; [done|]. split; [done|]. split; [|done].
      intros p. rewrite Hnew, elem_of_cons. split; [tauto|].
      intros [[->|?] [? ?]]; [done|tauto]. }
    apply has_false in Hwall.
    edestruct (IH (add seen nb) (Queue.enqueue nb queue))
      as (new & ext & -> & Hnd & Hnew & Hvo).
    unfold Queue.enqueue, push, add. rewrite <- !app_assoc. simpl.
    eexists (nb :: new), (_ :: ext). split_and!.
    + replace (list_to_set (nb :: new) ∪ seen)
        with (list_to_set new ∪ ({[nb]} ∪ seen) : gset pos); [done|].
      rewrite list_to_set_cons.
      apply set_eq. intros x. rewrite !elem_of_union. tauto.
    + constructor; [|done]. rewrite Hnew. intros (_ & _ & Hn).
      apply Hn, elem_of_add. by left.
    + intros p. rewrite !elem_of_cons, Hnew, elem_of_add. split.
      * intros [->|(? & ? & ?)]; [tauto|]. split; [tauto|]. tauto.
      * intros [[->|?] [? ?]]; [by left|].
        destruct (decide (p = nb)) as [->|?]; [by left|]. right. tauto.
    + done.
Qed.

(** The invariant of the loop: [done] are the cells visited so far, in
    order; they and the queue hold the visited set, each cell once; the
    distances along [done] and then the queue do not decrease, and those
    in the queue are at most one above that of its head; the neighbours
    of the cells of [done] are visited, and so is every cell as near as
    the head of the queue. *)
Record level_inv (done : list pos) (seen : gset pos) (queue : list pos)
    : Prop := {
  lv_nodup : NoDup (done ++ queue);
  lv_seen : ∀ p, p ∈ seen ↔ p ∈ done ∨ p ∈ queue;
  lv_closed : ∀ p q, p ∈ done → edge p q → q ∈ seen;
  lv_dist : ∃ dd dq,
    Forall2 dist done dd ∧ Forall2 dist queue dq
    ∧ StronglySorted le (dd ++ dq)
    ∧ match dq with
      | [] => True
      | d0 :: _ =>
          Forall (λ a, (a ≤ S d0)%nat) dq
          ∧ ∀ k p, walk k p → (k ≤ d0)%nat → p ∈ seen
      end
}.

(** What holds when the loop ends. *)
Definition level_post (order : list pos) (seen : gset pos) : Prop :=
  NoDup order
  ∧ (∀ p, p ∈ seen ↔ p ∈ order)
  ∧ ∃ ds, Forall2 dist order ds ∧ StronglySorted le ds.

Lemma level_inv_initial : level_inv [] {[start]} [start].
Proof.
  split.
  - simpl. apply NoDup_singleton.
  - intros p. rewrite elem_of_singleton, list_elem_of_singleton, elem_of_nil.
    tauto.
  - by intros p q ?%elem_of_nil.
  - exists [], [0%nat]. split_and!.
    + constructor.
    + repeat constructor. lia.
    + repeat constructor.
    + repeat constructor.
    + intros k p Hw Hk. assert (k = 0%nat) as -> by lia.
      inversion Hw. by apply elem_of_singleton.
Qed.

Lemma replicate_sorted (n x : nat) : StronglySorted le (replicate n x).
Proof.
  induction n as [|n IH]; simpl; constructor; [done|].
  apply Forall_forall. by intros b [-> _]%elem_of_replicate.
Qed.

Lemma level_inv_visit done seen u rest new :
  level_inv done seen (u :: rest) →
  NoDup new →
  (∀ p, p ∈ new
        ↔ p ∈ getNeighbors (row u) (col u) rows cols
          ∧ (p ∉ walls) ∧ (p ∉ seen)) →
  level_inv (done ++ [u]) (list_to_set new ∪ seen) (rest ++ new).
Proof.
  intros [Hnd Hseen Hclosed (dd & dq & Hdd & Hdq & Hsorted & Hlevel)]
    Hnew_nd Hnew.
  apply Forall2_cons_inv_l in Hdq as (d & dq' & [Hwu Hmin] & Hdq & ->).
  destruct Hlevel as [Hspan Hnear].
  apply Forall_cons in Hspan as [_ Hspan].
  assert (∀ p, p ∈ (list_to_set new ∪ seen : gset pos)
               ↔ p ∈ new ∨ p ∈ seen) as Hseen'.
  { intros p. by rewrite elem_of_union, elem_of_list_to_set. }
  assert (∀ a, a ∈ dd → (a ≤ d)%nat) as Hdd_le.
  { intros a Ha.
    apply (StronglySorted_app_1_elem_of _ _ _ a d Hsorted Ha). by left. }
  assert (∀ a, a ∈ dq' → (d ≤ a ≤ S d)%nat) as Hdq_le.
  { intros a Ha. split; [|by eapply Forall_forall in Hspan].
    apply StronglySorted_app_1_r, StronglySorted_cons in Hsorted as [Hall ?].
    by eapply Forall_forall in Hall. }
  assert (Forall (flip dist (S d)) new) as Hnew_dist.
  { apply Forall_forall. intros p [Hp [Hw Hs]]%Hnew. split.
    - by apply (PathfindingFacts.walk_step _ _ _ _ d u).
    - intros k Hk. destruct (decide (k ≤ d)%nat) as [Hle|]; [|lia].
      destruct Hs. by apply (Hnear k). }
  split.
  - rewrite app_assoc.
    apply NoDup_app. split; [by rewrite <- app_assoc|]. split; [|done].
    intros x Hx Hx'. apply Hnew in Hx' as (_ & _ & Hx').
    apply Hx', Hseen. rewrite <- app_assoc in Hx. simpl in Hx.
    by apply elem_of_app.
  - intros p. rewrite Hseen', Hseen, !elem_of_app, elem_of_cons,
      list_elem_of_singleton. tauto.
  - intros p q [Hp| ->%list_elem_of_singleton]%elem_of_app Hpq.
    + apply Hseen'. right. by eapply Hclosed.
    + apply Hseen'. destruct Hpq as [Hq Hw].
      destruct (decide (q ∈ seen)); [by right|]. left. by apply Hnew.
  - exists (dd ++ [d]), (dq' ++ replicate (length new) (S d)).
    assert (∀ a, a ∈ dq' ++ replicate (length new) (S d) →
                 (d ≤ a ≤ S d)%nat) as Hall.
    { intros a [Ha|[-> _]%elem_of_replicate]%elem_of_app; [by apply Hdq_le|].
      lia. }
    assert (StronglySorted le (dq' ++ replicate (length new) (S d)))
      as Hsorted'.
    { apply StronglySorted_app_2.
      - intros a b Ha [-> _]%elem_of_replicate. by apply Hdq_le.
      - by apply StronglySorted_app_1_r, StronglySorted_cons in Hsorted
          as [_ ?].
      - apply replicate_sorted. }
    split_and!.
    + apply Forall2_app; [done|]. by repeat constructor.
    + apply Forall2_app; [done|]. by apply Forall2_replicate_r.
    + rewrite <- app_assoc. simpl. apply StronglySorted_app_2.
      * intros a b Ha [->|Hb]%elem_of_cons; [by apply Hdd_le|].
        apply Hall in Hb. apply Hdd_le in Ha. lia.
      * by apply StronglySorted_app_1_l in Hsorted.
      * constructor; [done|]. apply Forall_forall. intros b Hb.
        apply Hall in Hb. lia.
    + destruct (dq' ++ replicate (length new) (S d)) as [|d0 tl] eqn:Hq;
        [done|].
      assert (d ≤ d0 ≤ S d)%nat as Hd0 by (apply Hall; by left).
      split.
      * apply Forall_forall. intros a Ha. apply Hall in Ha. lia.
      * intros k p Hw Hk. apply Hseen'.
        destruct (decide (k ≤ d)%nat) as [Hle|Hgt];
          [right; by apply (Hnear k)|].
        assert (k = S d) as -> by lia. assert (d0 = S d) as -> by lia.
        inversion Hw as [|k' p' q' Hw' Hpq]; subst.
        assert (p' ∈ seen) as Hp' by by apply (Hnear d).
        apply Hseen in Hp' as [Hp'|Hp'].
        { right. by apply (Hclosed p'). }
        apply elem_of_cons in Hp' as [->|Hp'].
        { destruct Hpq as [Hq' Hwq].
          destruct (decide (p ∈ seen)); [by right|]. left. by apply Hnew. }
        exfalso.
        apply list_elem_of_lookup_1 in Hp' as [i Hi].
        destruct (Forall2_lookup_l _ _ _ _ _ Hdq Hi) as (a & Ha & [_ Hamin]).
        apply Hamin in Hw'.
        assert (a ∈ S d :: tl) as Ha'.
        { rewrite <- Hq. apply elem_of_app. left.
          by eapply list_elem_of_lookup_2. }
        apply StronglySorted_cons in Hsorted' as [Htl _].
        apply elem_of_cons in Ha' as [->|Ha']; [lia|].
        eapply Forall_forall in Htl; [|done]. lia.
Qed.

Lemma bfs_loop_levels fuel : ∀ seen queue steps seen' steps',
  level_inv (visit_order steps) seen queue →
  bfs_loop fuel rows cols walls seen queue steps = Some (seen', steps') →
  level_post (visit_order steps') seen'.
Proof.
  assert (∀ seen steps, level_inv (visit_order steps) seen [] →
            level_post (visit_order steps) seen) as Hend.
  { intros seen steps [Hnd Hseen _ (dd & dq & Hdd & Hdq & Hsorted & _)].
    rewrite app_nil_r in Hnd. apply Forall2_nil_inv_l in Hdq as ->.
    rewrite app_nil_r in Hsorted. split; [done|]. split; [|by exists dd].
    intros p. rewrite Hseen, elem_of_nil. tauto. }
  induction fuel as [|fuel IH]; intros seen queue steps seen' steps' Hinv.
  - destruct queue as [|u queue]; simpl; [|done].
    intros [= <- <-]. by apply Hend.
  - destruct queue as [|u queue]; simpl.
    { intros [= <- <-]. by apply Hend. }
    edestruct (bfs_neighbors_new u
                 (getNeighbors (row u) (col u) rows cols) seen queue)
      as (new & ext & -> & Hnd & Hnew & Hvo).
    apply IH. unfold push.
    rewrite !visit_order_app, Hvo, app_nil_r. simpl.
    by apply level_inv_visit.
Qed.

End Levels.

(** X23. [bfs] visits level by level: the cells of its [visit] steps
    are the cells that can be reached from the start, each once, and
    they come in order of their distance from the start (the number of
    moves of a shortest walk), nearest first. *)
Theorem bfs_level_order rows cols start walls :
  ∃ steps,
    (∀ fuel, (grid_fuel rows cols ≤ fuel)%nat →
       bfs fuel rows cols start walls = Some steps)
    ∧ NoDup (visit_order steps)
    ∧ (∀ p, p ∈ visit_order steps ↔ reachable rows cols start walls p)
    ∧ ∃ ds, Forall2 (dist rows cols start walls) (visit_order steps) ds
            ∧ StronglySorted le ds.
Proof.
  destruct (bfs_spec rows cols start walls) as (ext & seen' & Hrun & _).
  eexists. split; [exact Hrun|].
  specialize (Hrun _ (Nat.le_refl _)). unfold bfs in Hrun.
  destruct (bfs_loop _ _ _ _ _ _ _) as [[seen1 steps1]|] eqn:Hloop; [|done].
  injection Hrun as Hrun. unfold push in Hrun.
  rewrite app_comm_cons in Hrun. apply app_inj_tail in Hrun as [Hsteps [= ->]].
  assert (add ∅ start = ({[start]} : gset pos)) as Hadd
    by (unfold add; by rewrite (right_id_L ∅ (∪))).
  rewrite Hadd in Hloop.
  pose proof (bfs_loop_reach rows cols start walls _ _ _ _ _ _
                (bfs_inv_initial rows cols start walls) Hloop) as Hreach.
  apply (bfs_loop_levels rows cols start walls) in Hloop
    as (Hnd & Hseen & Hds); [|apply level_inv_initial].
  assert (visit_order
            (Step "init" (Some start) None None {[start]} None None
             :: ext ++ [Step "complete" None None None seen' None None])
          = visit_order steps1) as ->.
  { rewrite app_comm_cons, <- Hsteps, visit_order_app. simpl.
    apply app_nil_r. }
  split; [done|]. split; [|done].
  intros p. by rewrite <- Hseen, Hreach.
Qed.

End ReachFacts.

(** ** How many steps bfs and dfs return *)

Module TraversalCounts.
Import Grid Traversal GridFacts TraversalFacts.

Section Counts.
Variables (rows cols : Z) (walls : gset pos).

Local Open Scope nat_scope.

(** Every cell the loop over the neighbours puts into the visited set
    gets one step and one place in the queue. *)
Lemma bfs_neighbors_count u nbs : ∀ seen queue steps seen' queue' steps',
  bfs_neighbors walls u nbs seen queue steps = (seen', queue', steps') →
  ∃ added,
    size seen' = size seen + added
    ∧ length queue' = length queue + added
    ∧ length steps' = length steps + added.
Proof.
  induction nbs as [|nb rest IH]; intros seen queue steps seen' queue' steps';
    simpl.
  - intros [= <- <- <-]. exists 0. lia.
  - destruct (has seen nb) eqn:Hseen; simpl; [by apply IH|].
    destruct (has walls nb); simpl; [by apply IH|].
    apply has_false in Hseen. intros H.
    apply IH in H as (added & Hs & Hq & Hl).
    unfold Queue.enqueue, push in *. rewrite length_app in Hq, Hl.
    rewrite (PathfindingFacts.size_add _ _ Hseen) in Hs.
    exists (S added). simpl in *. lia.
Qed.

(** In the loop of [bfs] the steps and the queued cells together are
    twice the visited cells: a cell is counted when it is discovered
    and when it is visited. *)
Lemma bfs_loop_count fuel : ∀ seen queue steps seen' steps',
  length steps + length queue = 2 * size seen →
  bfs_loop fuel rows cols walls seen queue steps = Some (seen', steps') →
  length steps' = 2 * size seen'.
Proof.
  induction fuel as [|fuel IH]; intros seen queue steps seen' steps' Hinv.
  - destruct queue; simpl; [|done]. intros [= <- <-]. simpl in Hinv. lia.
  - destruct queue as [|u queue]; simpl.
    { intros [= <- <-]. simpl in Hinv. lia. }
    destruct (bfs_neighbors walls u _ seen queue _)
      as [[seen1 queue1] steps1] eqn:Hnb.
    apply bfs_neighbors_count in Hnb as (added & Hs & Hq & Hl).
    apply IH. unfold push in Hl. rewrite length_app in Hl.
    simpl in *. lia.
Qed.

(** A call of [dfsHelper] that visits [v] cells adds [3 v - 2] steps: a
    [visit] for each, a [discover] and a [backtrack] for each but the
    first. *)
Lemma dfs_neighbors_count fuel node depth :
  (∀ nb d seen steps seen' steps',
     dfsHelper fuel rows cols walls nb d seen steps = Some (seen', steps') →
     nb ∉ seen → nb ∉ walls →
     length steps' + 2 + 3 * size seen = length steps + 3 * size seen') →
  ∀ nbs seen steps seen' steps',
    dfs_neighbors (dfsHelper fuel rows cols walls) walls node depth
                  nbs seen steps = Some (seen', steps') →
    length steps' + 3 * size seen = length steps + 3 * size seen'.
Proof.
  intros Hrec.
  induction nbs as [|nb rest IH]; intros seen steps seen' steps'; simpl.
  - by intros [= <- <-].
  - destruct (has seen nb) eqn:Hseen; simpl; [by apply IH|].
    destruct (has walls nb) eqn:Hwall; simpl; [by apply IH|].
    apply has_false in Hseen, Hwall.
    destruct (dfsHelper fuel rows cols walls nb (depth + 1)%Z seen _)
      as [[seen1 steps1]|] eqn:Hcall; [|done].
    apply Hrec in Hcall; [|done..]. intros Hrun. apply IH in Hrun.
    unfold push in *. rewrite length_app in *. simpl in *. lia.
Qed.

Lemma dfsHelper_count fuel : ∀ node depth seen steps seen' steps',
  dfsHelper fuel rows cols walls node depth seen steps
  = Some (seen', steps') →
  node ∉ seen → node ∉ walls →
  length steps' + 2 + 3 * size seen = length steps + 3 * size seen'.
Proof.
  induction fuel as [|fuel IH]; intros node depth seen steps seen' steps'
    Hrun Hseen Hwall; simpl in Hrun;
    apply has_false in Hseen as Hseen', Hwall as Hwall';
    rewrite Hseen', Hwall' in Hrun; simpl in Hrun; [done|].
  apply (dfs_neighbors_count fuel node depth IH) in Hrun.
  unfold push in Hrun. rewrite length_app in Hrun.
  rewrite (PathfindingFacts.size_add _ _ Hseen) in Hrun.
  simpl in Hrun. lia.
Qed.

End Counts.

(** X24. The number of steps of a traversal is fixed by the number [v]
    of cells it visits (the size of the visited set of its [complete]
    step): [bfs] returns [2 v + 1] steps; [dfs] returns [3 v] steps when
    the start is not a wall, and [init] and [complete] alone, with
    nothing visited, when it is. *)
Theorem grid_traversal_step_counts rows cols start walls :
  ∃ stepsB sB stepsD sD,
    (∀ fuel, (grid_fuel rows cols ≤ fuel)%nat →
       bfs fuel rows cols start walls = Some stepsB)
    ∧ (∀ fuel, (grid_fuel rows cols ≤ fuel)%nat →
         dfs fuel rows cols start walls = Some stepsD)
    ∧ last stepsB = Some sB ∧ last stepsD = Some sD
    ∧ length stepsB = (2 * size (visited sB) + 1)%nat
    ∧ (start ∉ walls → length stepsD = (3 * size (visited sD))%nat)
    ∧ (start ∈ walls → length stepsD = 2%nat ∧ visited sD = ∅).
Proof.
  destruct (bfs_spec rows cols start walls) as (extB & VB & HB & _).
  destruct (dfs_spec rows cols start walls) as (extD & VD & HD & _).
  eexists _, _, _, _. split; [exact HB|]. split; [exact HD|].
  split; [by rewrite app_comm_cons, last_snoc|].
  split; [by rewrite app_comm_cons, last_snoc|]. simpl.
  specialize (HB _ (Nat.le_refl _)). unfold bfs in HB.
  destruct (bfs_loop _ _ _ _ _ _ _) as [[seen1 steps1]|] eqn:Hloop; [|done].
  injection HB as HB. unfold push in HB.
  rewrite app_comm_cons in HB. apply app_inj_tail in HB as [HB [= ->]].
  apply bfs_loop_count in Hloop.
  2:{ unfold add. rewrite (right_id_L ∅ (∪)), size_singleton. done. }
  specialize (HD _ (Nat.le_refl _)). unfold dfs in HD.
  destruct (dfsHelper _ _ _ _ _ _ _ _) as [[seen2 steps2]|] eqn:Hcall;
    [|done].
  injection HD as HD. unfold push in HD.
  rewrite app_comm_cons in HD. apply app_inj_tail in HD as [HD [= ->]].
  split_and!.
  - rewrite HB in Hloop. simpl in Hloop. rewrite length_app. simpl. lia.
  - intros Hw. apply dfsHelper_count in Hcall; [|apply not_elem_of_empty|done].
    rewrite size_empty, HD in Hcall. simpl in Hcall.
    rewrite length_app. simpl. lia.
  - intros Hw. rewrite dfsHelper_guard in Hcall by by right.
    injection Hcall as <- <-. split; [|done].
    injection HD as <-. done.
Qed.

End TraversalCounts.

(** ** The steps of the sorts *)

Module SortingTrace.
Import Sorting SortingFacts.

Local Open Scope nat_scope.

(** The number of steps of one type. *)
Definition count (ty : string) (steps : list step) : nat :=
  length (List.filter (λ s, String.eqb (type s) ty) steps).

Lemma count_app ty s1 s2 : count ty (s1 ++ s2) = count ty s1 + count ty s2.
Proof. unfold count. by rewrite List.filter_app, length_app. Qed.

Lemma count_nil ty : count ty [] = 0.
Proof. done. Qed.

Lemma count_cons ty s l :
  count ty (s :: l) = (if String.eqb (type s) ty then 1 else 0) + count ty l.
Proof. unfold count. simpl. by destruct (String.eqb (type s) ty). Qed.

(** *** Inversions *)

(** The elements of [l] below [x], and the pairs of [l] that are out of
    order: a larger element before a smaller one. *)
Definition below (x : Z) (l : list Z) : nat :=
  length (filter (λ y, (y < x)%Z) l).

Fixpoint inversions (l : list Z) : nat :=
  match l with
  | [] => 0
  | x :: l' => below x l' + inversions l'
  end.

(** The pairs out of order with the first element in [a] and the second
    in [b]. *)
Fixpoint cross (a b : list Z) : nat :=
  match a with
  | [] => 0
  | x :: a' => below x b + cross a' b
  end.

Lemma below_app x a b : below x (a ++ b) = below x a + below x b.
Proof. unfold below. by rewrite filter_app, length_app. Qed.

Lemma below_cons x y l :
  below x (y :: l) = (if decide (y < x)%Z then 1 else 0) + below x l.
Proof. unfold below. rewrite filter_cons. by case_decide. Qed.

Lemma below_Permutation x a b : a ≡ₚ b → below x a = below x b.
Proof. intros H. unfold below. by rewrite H. Qed.

Lemma inversions_app a b :
  inversions (a ++ b) = inversions a + cross a b + inversions b.
Proof.
  induction a as [|x a IH]; simpl; [done|]. rewrite below_app, IH. lia.
Qed.

Lemma cross_Permutation_l a a' b : a ≡ₚ a' → cross a b = cross a' b.
Proof. induction 1; simpl; lia. Qed.

Lemma cross_Permutation_r a b b' : b ≡ₚ b' → cross a b = cross a b'.
Proof.
  intros H. induction a as [|x a IH]; simpl; [done|].
  by rewrite IH, (below_Permutation x b b').
Qed.

Lemma below_least x l : Forall (Z.le x) l → below x l = 0.
Proof.
  induction 1 as [|y l Hy Hl IH]; [done|].
  rewrite below_cons, IH. case_decide; [lia|done].
Qed.

Lemma inversions_sorted l : StronglySorted Z.le l → inversions l = 0.
Proof.
  induction 1 as [|x l Hs IH Hx]; simpl; [done|].
  by rewrite IH, below_least.
Qed.

(** *** bubbleSort *)

(** The exchanges of one pass. *)
Fixpoint swaps (x : Z) (l : list Z) : nat :=
  match l with
  | [] => 0
  | y :: l' => if (y <? x)%Z then S (swaps x l') else swaps y l'
  end.

(** Every exchange of a pass removes one inversion. *)
Lemma swaps_inversions l : ∀ x,
  swaps x l + inversions (bubble_pass x l).1 = inversions (x :: l).
Proof.
  induction l as [|y l IH]; intros x; simpl; [done|].
  destruct (Z.ltb_spec y x); simpl.
  - rewrite (below_Permutation y _ _ (bubble_pass_Permutation l x)).
    specialize (IH x). simpl in IH. rewrite !below_cons.
    repeat case_decide; lia.
  - rewrite (below_Permutation x _ _ (bubble_pass_Permutation l y)).
    specialize (IH y). simpl in IH. rewrite !below_cons.
    repeat case_decide; lia.
Qed.

(** The steps of a pass: a [compare] for every pair, a [swap] after it
    when the pair is exchanged; the array of each is a rearrangement of
    the array the pass began with. *)
Lemma bubble_inner_trace l : ∀ pre x suf n i swapped steps,
  ∃ ext,
    bubble_inner (length l) n i (length pre) (pre ++ x :: l ++ suf)
                 swapped steps
    = (pre ++ (bubble_pass x l).1 ++ suf,
       swapped || (bubble_pass x l).2, steps ++ ext)
    ∧ Forall (λ s, array s ≡ₚ pre ++ x :: l ++ suf) ext
    ∧ count "swap" ext = swaps x l
    ∧ count "compare" ext = length l
    ∧ length ext = length l + swaps x l.
Proof.
  induction l as [|y l IH]; intros pre x suf n i swapped steps; simpl.
  - exists []. by rewrite orb_false_r, app_nil_r.
  - rewrite lookup_mid, lookup_mid_S. simpl.
    destruct (y <? x)%Z eqn:E; simpl.
    + rewrite swap_mid.
      edestruct (IH (pre ++ [y]) x suf n i true)
        as (ext & Hs & Hperm & Hsw & Hcmp & Hlen).
      rewrite length_app in Hs. simpl in Hs.
      rewrite <- !app_assoc in Hs, Hperm. simpl in Hs, Hperm.
      rewrite Hs. unfold push. rewrite <- !app_assoc. simpl.
      eexists. split; [by rewrite orb_true_r|]. split_and!.
      * constructor; [done|]. constructor.
        { simpl. apply Permutation_app_head, Permutation_swap. }
        eapply Forall_impl; [exact Hperm|]. intros s ->.
        apply Permutation_app_head, Permutation_swap.
      * rewrite !count_cons, Hsw. simpl. lia.
      * rewrite !count_cons, Hcmp. simpl. lia.
      * simpl. lia.
    + edestruct (IH (pre ++ [x]) y suf n i swapped)
        as (ext & Hs & Hperm & Hsw & Hcmp & Hlen).
      rewrite length_app in Hs. simpl in Hs.
      rewrite <- !app_assoc in Hs, Hperm. simpl in Hs, Hperm.
      rewrite Hs. unfold push. rewrite <- !app_assoc. simpl.
      eexists. split; [done|]. split_and!.
      * constructor; [done|]. done.
      * rewrite !count_cons, Hsw. simpl. lia.
      * rewrite !count_cons, Hcmp. simpl. lia.
      * simpl. lia.
Qed.

(** The steps of the passes. *)
Lemma bubble_outer_trace arr todo : ∀ i array steps,
  bubble_inv arr array i →
  todo = length array - 1 - i →
  ∃ result ext,
    bubble_outer todo (length array) i array steps = (result, steps ++ ext)
    ∧ Forall (λ s, Sorting.array s ≡ₚ arr) ext
    ∧ count "swap" ext + inversions result = inversions array.
Proof.
  induction todo as [|todo IH]; intros i array steps
    (pre & suf & -> & Hi & Hsuf & Hle & Hperm) Htodo.
  - simpl. exists (pre ++ suf), []. by rewrite app_nil_r.
  - rewrite length_app in Htodo.
    destruct pre as [|x l]; [simpl in Htodo; lia|].
    cbn [bubble_outer].
    replace (length ((x :: l) ++ suf) - i - 1) with (length l)
      by (rewrite length_app; simpl; lia).
    destruct (bubble_inner_trace l [] x suf (length ((x :: l) ++ suf)) i false
                (push steps (Step "pass" ((x :: l) ++ suf) None
                   (Some (array_from (length ((x :: l) ++ suf) - i)
                      (λ idx, length ((x :: l) ++ suf) - 1 - idx)))
                   None None None)))
      as (ext1 & Hin & Hperm1 & Hsw1 & _).
    simpl in Hin, Hperm1. simpl. rewrite Hin. simpl.
    pose proof (bubble_pass_Permutation l x) as Hp.
    pose proof (swaps_inversions l x) as Hinv.
    assert (swaps x l + inversions ((bubble_pass x l).1 ++ suf)
            = inversions (x :: l ++ suf)) as Hinv'.
    { change (x :: l ++ suf) with ((x :: l) ++ suf).
      rewrite !inversions_app, (cross_Permutation_l _ _ _ Hp). lia. }
    assert (Forall (λ s, Sorting.array s ≡ₚ arr) ext1) as Hperm1'.
    { eapply Forall_impl; [exact Hperm1|]. intros s ->. done. }
    destruct (bubble_pass x l).2 eqn:Hsw; simpl.
    + destruct (bubble_pass_last l x) as (r & m & Hr & Hrm & _).
      rewrite Hr in *. clear Hr.
      assert (length ((r ++ [m]) ++ suf) = S (length (l ++ suf))) as Hlen.
      { rewrite length_app, Hp, length_app. done. }
      rewrite <- Hlen.
      edestruct (IH (i + 1) ((r ++ [m]) ++ suf)) as (result & ext2 & -> & Hperm2 & Hsw2).
      * exists r, (m :: suf). split; [by rewrite <- app_assoc|].
        split; [simpl; lia|]. split; [|split].
        -- constructor; [done|]. apply Forall_forall. intros b Hb.
           apply Hle; [|done]. rewrite <- Hp. set_solver.
        -- intros a b Ha [->|Hb]%elem_of_cons.
           ++ rewrite Forall_forall in Hrm. by apply Hrm.
           ++ apply Hle; [|done]. rewrite <- Hp. set_solver.
        -- by rewrite <- Hperm, <- app_assoc, (app_assoc r), Hp.
      * rewrite Hlen, length_app. simpl in Htodo. lia.
      * unfold push. rewrite <- !app_assoc. simpl.
        eexists _, _. split; [done|]. split.
        -- constructor; [done|]. by apply Forall_app.
        -- rewrite count_cons, count_app. simpl. simpl in Hinv'. lia.
    + unfold push. rewrite <- !app_assoc. simpl.
      eexists _, _. split; [done|]. split.
      * constructor; [done|]. apply Forall_app. split; [done|].
        constructor; [|done]. simpl. by rewrite Hp.
      * rewrite count_cons, count_app, count_cons, count_nil. simpl.
        simpl in Hinv'. lia.
Qed.

Lemma bubbleSort_trace arr :
  ∃ result ext,
    bubbleSort arr
    = Step "init" arr None None None None None :: ext
      ++ [Step "complete" result None (Some (seq 0 (length arr)))
               None None None]
    ∧ sorted_version arr result
    ∧ Forall (λ s, array s ≡ₚ arr) ext
    ∧ count "swap" ext = inversions arr.
Proof.
  unfold bubbleSort.
  assert (bubble_inv arr arr 0) as Hinv.
  { exists arr, []. rewrite app_nil_r.
    repeat split; [constructor|set_solver|done]. }
  pose proof (bubble_outer_sorted arr (length arr - 1) 0 arr
    (push [] (Step "init" arr None None None None None)) Hinv
    ltac:(lia)) as Hsorted.
  destruct (bubble_outer_trace arr (length arr - 1) 0 arr
    (push [] (Step "init" arr None None None None None)) Hinv
    ltac:(lia)) as (result & ext & Hrun & Hperm & Hsw).
  rewrite Hrun in *. simpl in Hsorted.
  exists result, ext. split_and!; try done.
  - unfold push, array_from. by rewrite list_fmap_id.
  - destruct Hsorted as [Hs _]. rewrite (inversions_sorted _ Hs) in Hsw. lia.
Qed.

(** *** insertionSort *)

Lemma cross_cons_r b key c :
  Forall (λ a, (key < a)%Z) b →
  cross b (key :: c) = length b + cross b c.
Proof.
  induction 1 as [|x b Hx Hb IH]; simpl; [done|].
  rewrite below_cons, IH. case_decide; lia.
Qed.

(** Moving [key] to the left over [b], all above it, removes as many
    inversions as [b] has elements. *)
Lemma inversions_insert a b key c :
  Forall (λ x, (key < x)%Z) b →
  inversions (a ++ b ++ key :: c)
  = length b + inversions (a ++ key :: b ++ c).
Proof.
  intros Hb.
  assert (inversions (b ++ key :: c)
          = length b + inversions (key :: b ++ c)) as Hmid.
  { rewrite (inversions_app b (key :: c)), cross_cons_r by done.
    cbn [inversions]. rewrite below_app, (inversions_app b c).
    assert (below key b = 0) as ->; [|lia].
    apply below_least. eapply Forall_impl; [exact Hb|]. simpl. lia. }
  rewrite (inversions_app a (b ++ key :: c)),
    (inversions_app a (key :: b ++ c)), Hmid.
  rewrite (cross_Permutation_r a (b ++ key :: c) (key :: b ++ c))
    by (symmetry; apply Permutation_middle).
  lia.
Qed.

(** The steps of the shifting loop: a [compare] and a [shift] for every
    element that moves. *)
Lemma insertion_inner_trace l1 : ∀ l2 g suf i key steps,
  Forall (λ a, (key < a)%Z) l2 →
  ∃ l1' l2' g' ext,
    insertion_inner (length l1) i (Some key) (l1 ++ g :: l2 ++ suf) steps
    = (length l1', l1' ++ g' :: l2' ++ suf, steps ++ ext)
    ∧ l1' ++ l2' = l1 ++ l2
    ∧ Forall (λ a, (key < a)%Z) l2'
    ∧ (∀ a, last l1' = Some a → (a ≤ key)%Z)
    ∧ length l2' = length l2 + count "shift" ext
    ∧ count "compare" ext = count "shift" ext
    ∧ length ext = 2 * count "shift" ext
    ∧ count "select" ext = 0 ∧ count "insert" ext = 0
    ∧ Forall (λ s, length (array s) = length (l1 ++ g :: l2 ++ suf)
                   ∧ (type s = "compare" ∨ type s = "shift")) ext.
Proof.
  induction l1 as [|a l1 IH] using rev_ind;
    intros l2 g suf i key steps Hl2.
  - exists [], l2, g, []. rewrite app_nil_r. by split_and!.
  - rewrite length_app. simpl. rewrite Nat.add_1_r. simpl.
    rewrite <- app_assoc. simpl. rewrite lookup_mid. simpl.
    destruct (Z.ltb_spec key a).
    + rewrite insert_mid_S.
      edestruct (IH (a :: l2) a suf i key)
        as (l1' & l2' & g' & ext & -> & Heq & H2 & H1 & Hlen & Hcmp
            & Hext & Hsel & Hins & Hall);
        [by constructor|].
      unfold push. rewrite <- !app_assoc. simpl.
      eexists l1', l2', g', _. split; [done|]. split_and!; try done.
      * rewrite !count_cons. simpl in *. lia.
      * rewrite !count_cons. simpl. lia.
      * rewrite !count_cons. simpl. lia.
      * constructor; [split; [done|by left]|]. constructor.
        { simpl. split; [|by right].
          rewrite !length_app. simpl. by rewrite !length_app. }
        eapply Forall_impl; [exact Hall|]. intros s [-> ?]. split; [|done].
        rewrite !length_app. simpl. by rewrite !length_app.
    + exists (l1 ++ [a]), l2, g, []. rewrite app_nil_r. split_and!; try done.
      * by rewrite length_app, Nat.add_1_r, <- app_assoc.
      * intros b. rewrite last_snoc. by intros [= <-].
Qed.

(** The steps of the loop over the keys. *)
Lemma insertion_outer_trace arr todo : ∀ pre suf steps,
  StronglySorted Z.le pre →
  pre ++ suf ≡ₚ arr →
  length suf = todo →
  ∃ result ext,
    insertion_outer todo (length pre) (pre ++ suf) steps
    = (result, steps ++ ext)
    ∧ count "shift" ext + inversions result = inversions (pre ++ suf)
    ∧ length ext = 2 * todo + 2 * count "shift" ext
    ∧ Forall (λ s, length (array s) = length arr
                   ∧ (type s ≠ "compare" → type s ≠ "shift" →
                      array s ≡ₚ arr)) ext.
Proof.
  induction todo as [|todo IH]; intros pre suf steps Hs Hperm Hlen.
  - destruct suf; [|done]. simpl. exists (pre ++ []), [].
    by rewrite !app_nil_r.
  - destruct suf as [|key suf]; [done|]. cbn [insertion_outer].
    rewrite lookup_mid.
    edestruct (insertion_inner_trace pre [] key suf (length pre) key)
      as (l1' & l2' & g' & ext1 & Hin & Heq & H2 & H1 & Hl2 & Hcmp & Hext1
          & _ & _ & Hall1);
      [constructor|].
    simpl in Hin. rewrite Hin. clear Hin. simpl.
    rewrite insert_mid. rewrite app_nil_r in Heq.
    specialize (IH (l1' ++ key :: l2') suf).
    rewrite <- app_assoc in IH. simpl in IH.
    replace (length pre + 1) with (length (l1' ++ key :: l2'))
      by (rewrite <- Heq, !length_app; simpl; lia).
    edestruct IH as (result & ext2 & -> & Hinv & Hext2 & Hall2).
    + apply insert_into_split; [by rewrite Heq|done..].
    + rewrite <- Hperm, <- Heq, <- !app_assoc.
      apply Permutation_app_head. simpl.
      by rewrite !Permutation_middle.
    + simpl in Hlen. lia.
    + unfold push. rewrite <- !app_assoc. simpl.
      eexists _, _. split; [done|].
      assert (length (pre ++ key :: suf) = length arr) as Hn
        by by rewrite Hperm.
      split_and!.
      * rewrite count_cons, !count_app, count_cons. simpl.
        rewrite <- Heq, <- app_assoc, (inversions_insert l1' l2' key suf)
          by done.
        simpl in Hl2. lia.
      * simpl. rewrite !length_app. simpl.
        rewrite count_cons, !count_app, count_cons. simpl. lia.
      * constructor; [split; [exact Hn|intros _ _; exact Hperm]|].
        apply Forall_app. split.
        { eapply Forall_impl; [exact Hall1|]. simpl.
          intros s (-> & [Hty|Hty]). all: split; [done|]; by intros ? ?. }
        assert (l1' ++ key :: l2' ++ suf ≡ₚ arr) as Hp'.
        { rewrite <- Hperm, <- Heq, <- !app_assoc.
          apply Permutation_app_head. by rewrite !Permutation_middle. }
        constructor; [|done]. simpl.
        split; [by apply Permutation_length|done].
Qed.

Lemma insertionSort_trace arr :
  ∃ result ext,
    insertionSort arr
    = Step "init" arr None None None None None :: ext
      ++ [Step "complete" result None (Some (seq 0 (length arr)))
               None None None]
    ∧ sorted_version arr result
    ∧ count "shift" ext = inversions arr
    ∧ length ext = 2 * (length arr - 1) + 2 * inversions arr
    ∧ Forall (λ s, length (array s) = length arr
                   ∧ (type s ≠ "compare" → type s ≠ "shift" →
                      array s ≡ₚ arr)) ext.
Proof.
  unfold insertionSort. destruct arr as [|a arr].
  { exists [], []. split_and!; try done. split; [constructor|done]. }
  pose proof (insertion_outer_sorted (a :: arr) (length arr) [a] arr
    (push [] (Step "init" (a :: arr) None None None None None))) as H.
  destruct (insertion_outer_trace (a :: arr) (length arr) [a] arr
    (push [] (Step "init" (a :: arr) None None None None None)))
    as (result & ext & Hrun & Hinv & Hlen & Hall);
    [repeat constructor|done..|].
  simpl in H, Hrun. simpl. rewrite Nat.sub_0_r, Hrun in *.
  assert (sorted_version (a :: arr) result) as Hs
    by (apply H; [repeat constructor|done..]).
  exists result, ext. split_and!; try done.
  - unfold push, array_from. by rewrite list_fmap_id.
  - destruct Hs as [Hs _]. rewrite (inversions_sorted _ Hs) in Hinv.
    simpl in Hinv. simpl. lia.
  - destruct Hs as [Hs _]. rewrite (inversions_sorted _ Hs) in Hinv.
    simpl in Hinv. simpl. lia.
Qed.

(** X25. [bubbleSort] makes as many exchanges, and [insertionSort] as
    many shifts, as the input has inversions (pairs of positions whose
    values are out of order): the number of [swap] steps of the one and
    of [shift] steps of the other is that number. *)
Theorem moves_are_inversions (arr : list Z) :
  count "swap" (bubbleSort arr) = inversions arr
  ∧ count "shift" (insertionSort arr) = inversions arr.
Proof.
  split.
  - destruct (bubbleSort_trace arr) as (result & ext & -> & _ & _ & Hsw).
    rewrite count_cons, count_app, count_cons, count_nil, Hsw. simpl. lia.
  - destruct (insertionSort_trace arr) as (result & ext & -> & _ & Hsh & _).
    rewrite count_cons, count_app, count_cons, count_nil, Hsh. simpl. lia.
Qed.

(** X26. The array of every step of [bubbleSort] is a rearrangement of
    the input: a frame never loses or repeats a value.  In
    [insertionSort] the array of every step has the length of the
    input, and the array of every step other than [compare] and [shift]
    is a rearrangement of the input (while a key is being inserted, the
    array shows the value that was shifted twice). *)
Theorem frames_rearrange (arr : list Z) :
  Forall (λ s, array s ≡ₚ arr) (bubbleSort arr)
  ∧ Forall (λ s, length (array s) = length arr
                 ∧ (type s ≠ "compare" → type s ≠ "shift" →
                    array s ≡ₚ arr)) (insertionSort arr).
Proof.
  split.
  - destruct (bubbleSort_trace arr)
      as (result & ext & -> & [_ Hp] & Hall & _).
    constructor; [done|]. apply Forall_app. split; [done|].
    by constructor.
  - destruct (insertionSort_trace arr)
      as (result & ext & -> & [_ Hp] & _ & _ & Hall).
    constructor; [done|]. apply Forall_app. split; [done|].
    constructor; [|done]. simpl. split; [by apply Permutation_length|done].
Qed.


(** *** bubbleSort on an array in order *)

Lemma bubble_inner_sorted l : ∀ pre x suf n i swapped steps,
  Sorted Z.le (x :: l) →
  ∃ ext,
    bubble_inner (length l) n i (length pre) (pre ++ x :: l ++ suf)
                 swapped steps
    = (pre ++ x :: l ++ suf, swapped, steps ++ ext)
    ∧ type <$> ext = replicate (length l) "compare"
    ∧ Forall (λ s, array s = pre ++ x :: l ++ suf) ext.
Proof.
  induction l as [|y l IH]; intros pre x suf n i swapped steps Hs; simpl.
  - exists []. by rewrite app_nil_r.
  - rewrite lookup_mid, lookup_mid_S. simpl.
    apply Sorted_inv in Hs as [Hs Hxy]. apply HdRel_inv in Hxy.
    assert ((y <? x)%Z = false) as -> by (apply Z.ltb_ge; lia).
    edestruct (IH (pre ++ [x]) y suf n i swapped) as (ext & Hr & Hty & Hall);
      [done|].
    rewrite length_app in Hr. simpl in Hr.
    rewrite <- !app_assoc in Hr, Hall. simpl in Hr, Hall.
    rewrite Hr. unfold push. rewrite <- !app_assoc. simpl.
    eexists. split; [done|]. split; [by rewrite fmap_cons, Hty|].
    by constructor.
Qed.

(** X28. On an array of two or more elements that is in order,
    [bubbleSort] makes one pass and stops: it returns [init], [pass],
    [n - 1] [compare] steps, [early-exit] and [complete], [n + 3] steps,
    each showing the input unchanged.  On an array of fewer than two
    elements it returns [init] and [complete] alone. *)
Theorem bubbleSort_in_order (arr : list Z) :
  (StronglySorted Z.le arr → 2 ≤ length arr →
   type <$> bubbleSort arr
   = ["init"; "pass"] ++ replicate (length arr - 1) "compare"
     ++ ["early-exit"; "complete"]
   ∧ length (bubbleSort arr) = length arr + 3
   ∧ Forall (λ s, array s = arr) (bubbleSort arr))
  ∧ (length arr < 2 →
     type <$> bubbleSort arr = ["init"; "complete"]
     ∧ Forall (λ s, array s = arr) (bubbleSort arr)).
Proof.
  split.
  - intros Hs Hn. destruct arr as [|x l]; [simpl in Hn; lia|].
    replace (replicate (length (x :: l) - 1) "compare")
      with (replicate (length l) "compare")
      by (simpl; by rewrite Nat.sub_0_r).
    replace (length (x :: l) + 3) with (S (S (length l + 2)))
      by (simpl; lia).
    unfold bubbleSort.
    replace (length (x :: l) - 1) with (S (length l - 1))
      by (simpl in *; lia).
    cbn [bubble_outer].
    replace (length (x :: l) - 0 - 1) with (length l) by (simpl; lia).
    edestruct (bubble_inner_sorted l [] x [] (length (x :: l)) 0 false)
      as (ext & Hr & Hty & Hall); [by apply StronglySorted_Sorted|].
    simpl in Hr, Hall. rewrite app_nil_r in Hr, Hall.
    simpl. rewrite Hr. simpl. unfold push. rewrite <- !app_assoc. simpl.
    rewrite !fmap_app, Hty. simpl.
    split_and!; [done| |].
    + rewrite length_app. simpl.
      apply (f_equal length) in Hty.
      rewrite length_fmap, length_replicate in Hty. lia.
    + constructor; [done|]. constructor; [done|].
      apply Forall_app. split; [done|]. by repeat constructor.
  - intros Hn. destruct arr as [|x [|y l]]; [| |simpl in Hn; lia].
    + split; [done|]. by repeat constructor.
    + split; [done|]. by repeat constructor.
Qed.


Lemma bubbleSort_in_order_witness :
  type <$> bubbleSort [1; 2; 3]%Z
  = ["init"; "pass"; "compare"; "compare"; "early-exit"; "complete"].
Proof.
  destruct (bubbleSort_in_order [1; 2; 3]%Z) as [H _].
  apply H; [repeat constructor; lia|simpl; lia].
Defined.

(** *** mergeSort *)

Lemma count_none ty ext :
  Forall (λ s, type s ≠ ty) ext → count ty ext = 0.
Proof.
  induction 1 as [|s ext Hs Hext IH]; [done|].
  rewrite count_cons, IH.
  destruct (String.eqb_spec (type s) ty); [done|lia].
Qed.

Lemma length_assign a k v : length (assign a k v) = length a.
Proof. destruct v; simpl; [apply length_insert|done]. Qed.

(** The steps of the two loops of [merge] are [compare] and [place]
    steps; no assignment changes the length of the array. *)
Definition placing (n : nat) (s : step) : Prop :=
  (type s = "compare" ∨ type s = "place") ∧ length (array s) = n.

Lemma merge_rest_steps todo : ∀ src i k a steps,
  ∃ k' a' ext,
    merge_rest todo src i k a steps = (k', a', steps ++ ext)
    ∧ Forall (placing (length a)) ext
    ∧ length a' = length a.
Proof.
  induction todo as [|todo IH]; intros src i k a steps; simpl.
  - exists k, a, []. by rewrite app_nil_r.
  - edestruct (IH src (i + 1) (k + 1) (assign a k (src !! i)))
      as (k' & a' & ext & -> & Hall & Hlen).
    rewrite length_assign in Hall, Hlen.
    unfold push. rewrite <- app_assoc. simpl.
    eexists _, _, _. split; [done|]. split; [|done].
    constructor; [|done]. split; [by right|]. simpl. apply length_assign.
Qed.

Lemma merge_both_steps fuel : ∀ L R left mid i j k a steps i' j' k' a' steps',
  merge_both fuel L R left mid i j k a steps = Some (i', j', k', a', steps') →
  ∃ ext, steps' = steps ++ ext
         ∧ Forall (placing (length a)) ext
         ∧ length a' = length a.
Proof.
  induction fuel as [|fuel IH];
    intros L R left mid i j k a steps i' j' k' a' steps'; simpl.
  - destruct ((i <? length L) && (j <? length R)); [done|].
    intros [= <- <- <- <- <-]. exists []. by rewrite app_nil_r.
  - destruct ((i <? length L) && (j <? length R)).
    2:{ intros [= <- <- <- <- <-]. exists []. by rewrite app_nil_r. }
    destruct (le (L !! i) (R !! j)); intros Hrun;
      apply IH in Hrun as (ext & -> & Hall & Hlen);
      rewrite length_assign in Hall, Hlen;
      unfold push; rewrite <- !app_assoc; simpl;
      (eexists; split; [done|]; split; [|done]);
      (constructor; [split; [by left|done]|]);
      (constructor; [split; [by right|apply length_assign]|done]).
Qed.

Lemma merge_steps left mid right depth a steps a' steps' :
  merge left mid right depth a steps = Some (a', steps') →
  ∃ ext,
    steps' = steps
      ++ Step "merge-start" a None None (Some (left, right)) None (Some depth)
      :: ext
      ++ [Step "merge-complete" a' None None (Some (left, right)) None None]
    ∧ Forall (placing (length a)) ext
    ∧ length a' = length a.
Proof.
  unfold merge.
  destruct (merge_both _ _ _ _ _ _ _ _ _ _) as [[[[[i j] k] a1] s1]|] eqn:Hb;
    [|done].
  apply merge_both_steps in Hb as (ext1 & -> & Hall1 & Hlen1).
  edestruct (merge_rest_steps (length (slice a left (mid + 1)) - i)
               (slice a left (mid + 1)) i k a1)
    as (k2 & a2 & ext2 & -> & Hall2 & Hlen2).
  edestruct (merge_rest_steps
               (length (slice a (mid + 1) (right + 1)) - j)
               (slice a (mid + 1) (right + 1)) j k2 a2)
    as (k3 & a3 & ext3 & -> & Hall3 & Hlen3).
  intros [= <- <-]. unfold push. rewrite <- !app_assoc. simpl.
  exists (ext1 ++ ext2 ++ ext3). rewrite <- !app_assoc.
  split; [done|]. split; [|lia].
  rewrite Hlen2, Hlen1 in Hall3. rewrite Hlen1 in Hall2.
  by rewrite !Forall_app.
Qed.

(** What a [merge-complete] step says: its range of its array is in
    order. *)
Definition merged_ok (s : step) : Prop :=
  type s = "merge-complete" →
  ∃ l r, range s = Some (l, r)
         ∧ StronglySorted Z.le (slice (array s) l (r + 1)).

Lemma slice_mid (pre seg suf : list Z) l r :
  l = length pre → l + length seg = r + 1 →
  slice (pre ++ seg ++ suf) l (r + 1) = seg.
Proof.
  intros -> Hr. unfold slice. rewrite drop_app_length.
  replace (r + 1 - length pre) with (length seg) by lia.
  apply take_app_length.
Qed.

Lemma placing_not n ty s :
  ty ≠ "compare" → ty ≠ "place" → placing n s → type s ≠ ty.
Proof. intros ? ? [[->| ->] _]; congruence. Qed.

(** The steps of [mergeSortHelper] on the range that holds [seg]. *)
Lemma mergeSortHelper_trace fuel : ∀ seg pre suf left right depth steps,
  left = length pre → left + length seg = right + 1 →
  length seg ≤ fuel →
  ∃ seg' ext,
    mergeSortHelper fuel left right depth (pre ++ seg ++ suf) steps
    = Some (pre ++ seg' ++ suf, steps ++ ext)
    ∧ sorted_version seg seg'
    ∧ Forall (λ s, merged_ok s
                   ∧ length (array s) = length (pre ++ seg ++ suf)) ext
    ∧ count "divide" ext = length seg - 1
    ∧ count "merge-start" ext = length seg - 1
    ∧ count "merge-complete" ext = length seg - 1.
Proof.
  induction fuel as [|fuel IH];
    intros seg pre suf left right depth steps Hl Hr Hf.
  { simpl. destruct (Nat.leb_spec right left) as [Hle|Hlt];
      [|destruct seg; simpl in *; lia].
    exists seg, []. rewrite app_nil_r. split; [done|].
    destruct seg as [|a [|b seg]]; simpl in Hr; try lia;
      (split_and!; try done; split; [repeat constructor|done]). }
  cbn [mergeSortHelper].
  destruct (Nat.leb_spec right left) as [Hle|Hlt].
  { exists seg, []. rewrite app_nil_r. split; [done|].
    destruct seg as [|a [|b seg]]; simpl in Hr; try lia;
      (split_and!; try done; split; [repeat constructor|done]). }
  set (mid := (left + right) / 2).
  assert (left ≤ mid < right) as Hmid.
  { pose proof (Nat.div_mod_eq (left + right) 2) as Hdm.
    pose proof (Nat.mod_upper_bound (left + right) 2) as Hub.
    fold mid in Hdm. lia. }
  assert (seg = take (mid + 1 - left) seg ++ drop (mid + 1 - left) seg)
    as Hseg by by rewrite take_drop.
  set (L := take (mid + 1 - left) seg) in *.
  set (R := drop (mid + 1 - left) seg) in *.
  assert (length L = mid + 1 - left) as HL
    by (unfold L; rewrite length_take; lia).
  assert (length R = right - mid) as HR
    by (unfold R; rewrite length_drop; lia).
  assert (length seg = length L + length R) as Hlen
    by (rewrite Hseg at 1; by rewrite length_app).
  rewrite Hseg, <- app_assoc.
  edestruct (IH L pre (R ++ suf) left mid (depth + 1))
    as (L' & ext1 & H1 & HsL & Hall1 & Hd1 & Hs1 & Hc1); [done|lia|lia|].
  rewrite H1. clear H1.
  assert (length L' = length L) as HL'
    by (destruct HsL as [_ Hp]; by rewrite Hp).
  replace (pre ++ L' ++ R ++ suf) with ((pre ++ L') ++ R ++ suf)
    by by rewrite <- app_assoc.
  edestruct (IH R (pre ++ L') suf (mid + 1) right (depth + 1))
    as (R' & ext2 & H2 & HsR & Hall2 & Hd2 & Hs2 & Hc2);
    [rewrite length_app; lia|lia|lia|].
  rewrite H2. clear H2.
  assert (length R' = length R) as HR'
    by (destruct HsR as [_ Hp]; by rewrite Hp).
  rewrite <- (app_assoc pre L').
  edestruct (merge_runs pre L' R' suf left mid right depth)
    as [steps3 H3]; [done|lia|lia|].
  rewrite H3. apply merge_steps in H3 as (ext3 & -> & Hall3 & Hlen3).
  pose proof (list_merge_sorted_version _ _ _ _ HsL HsR) as Hs.
  assert (length (list_merge Z.le L' R') = length (L ++ R)) as Hm
    by (destruct Hs as [_ Hp]; by rewrite Hp).
  unfold push. rewrite <- !app_assoc. simpl. rewrite <- ?app_assoc.
  eexists (list_merge Z.le L' R'), _. split; [done|].
  split; [done|].
  assert (∀ n, n = length (pre ++ L ++ R ++ suf) →
            Forall (placing n) ext3 →
            Forall (λ s, merged_ok s
                         ∧ length (array s) = length (pre ++ L ++ R ++ suf))
                   ext3) as Hplace.
  { intros n -> H. eapply Forall_impl; [exact H|].
    intros s [[Hty|Hty] Hn]; (split; [|done]); intros Hc; congruence. }
  assert (length (pre ++ L' ++ R' ++ suf) = length (pre ++ L ++ R ++ suf))
    as Hsame by (rewrite !length_app; lia).
  split_and!.
  - constructor; [split; [by intros ?|done]|].
    apply Forall_app. split; [done|]. apply Forall_app. split.
    { eapply Forall_impl; [exact Hall2|]. intros s [? Hn]. split; [done|].
      rewrite Hn, !length_app. lia. }
    constructor.
    { split; [by intros ?|]. simpl. by rewrite Hsame. }
    apply Forall_app. split; [exact (Hplace _ Hsame Hall3)|].
    constructor; [|done]. split.
    + intros _. exists left, right. split; [done|]. simpl.
      rewrite slice_mid; [by destruct Hs|done|].
      rewrite Hm, <- Hseg. lia.
    + simpl. rewrite !length_app, Hm, !length_app. lia.
  - rewrite count_cons, !count_app, count_cons, count_app, count_cons,
      count_nil, Hd1, Hd2.
    rewrite (count_none "divide" ext3)
      by (eapply Forall_impl; [exact Hall3|];
          intros s; by apply placing_not).
    simpl. rewrite length_app. lia.
  - rewrite count_cons, !count_app, count_cons, count_app, count_cons,
      count_nil, Hs1, Hs2.
    rewrite (count_none "merge-start" ext3)
      by (eapply Forall_impl; [exact Hall3|];
          intros s; by apply placing_not).
    simpl. rewrite length_app. lia.
  - rewrite count_cons, !count_app, count_cons, count_app, count_cons,
      count_nil, Hc1, Hc2.
    rewrite (count_none "merge-complete" ext3)
      by (eapply Forall_impl; [exact Hall3|];
          intros s; by apply placing_not).
    simpl. rewrite length_app. lia.
Qed.

(** X29. In a run of [mergeSort] on [n] elements every step shows an
    array of [n] elements, and at every [merge-complete] step the range
    the step names is in order in the array of the step.  The run
    divides [n - 1] times: it has [n - 1] [divide], [merge-start] and
    [merge-complete] steps each (none on an array of fewer than two
    elements). *)
Theorem mergeSort_merges (arr : list Z) :
  ∃ steps,
    (∀ fuel, length arr ≤ fuel → mergeSort fuel arr = Some steps)
    ∧ Forall (λ s, length (array s) = length arr ∧ merged_ok s) steps
    ∧ count "divide" steps = length arr - 1
    ∧ count "merge-start" steps = length arr - 1
    ∧ count "merge-complete" steps = length arr - 1.
Proof.
  unfold mergeSort. destruct arr as [|a arr].
  { eexists. split; [intros fuel _; by destruct fuel|].
    split; [|done]. repeat constructor; by intros ?. }
  destruct (mergeSortHelper_trace (length (a :: arr)) (a :: arr) [] []
              0 (length (a :: arr) - 1) 0
              (push [] (Step "init" (a :: arr) None None None None None)))
    as (seg' & ext & Hr & Hs & Hall & Hd & Hms & Hmc);
    [done|simpl; lia|done|].
  rewrite !app_nil_r in Hr, Hall. simpl app in Hr.
  eexists. split_and!.
  - intros fuel Hf.
    by rewrite (mergeSortHelper_mono _ fuel _ _ _ _ _ _ Hf Hr).
  - unfold push. simpl. constructor; [split; [done|by intros ?]|].
    apply Forall_app. split.
    + eapply Forall_impl; [exact Hall|]. by intros s [? ?].
    + constructor; [|done]. split; [|by intros ?]. simpl.
      destruct Hs as [_ Hp]. rewrite ?app_nil_r.
      by apply Permutation_length in Hp.
  - unfold push. simpl.
    rewrite count_cons, count_app, count_cons, count_nil, Hd. simpl. lia.
  - unfold push. simpl.
    rewrite count_cons, count_app, count_cons, count_nil, Hms. simpl. lia.
  - unfold push. simpl.
    rewrite count_cons, count_app, count_cons, count_nil, Hmc. simpl. lia.
Qed.

End SortingTrace.

(** ** The sorted marks of bubbleSort *)

Module SortedMarks.
Import Sorting SortingFacts.

Local Open Scope nat_scope.












End SortedMarks.
